(** * Tokenizers of the Liquid template engine

    A shallow embedding of [liquid/lex.py] and
    [liquid/expressions/loop/lex.py].  Both files drive Python's [re]
    module: a rule table is joined into one alternation of named groups,
    [finditer] scans the source with it, and a loop turns every match
    into zero, one or two tokens.  The development has these layers:

    - [Str]: the string methods the lexers call;
    - [Re]: the fragment of Python regular expressions the rule tables
      use, as an abstract syntax with a backtracking matcher, and the
      [search] and [finditer] scanning loops on top of it;
    - [Tok]: tokens, exceptions, and generators as the list of tokens
      yielded together with the exception that ended them, if any;
    - [Lex] and [LoopLex]: the rule tables and generator functions of
      the two source files;
    - [Sem]: the notions the properties are stated with;
    - the facts about the matcher, the scanning loops and the loop
      bodies, and the properties of the tokenizers.

    Text is modelled as [string], one [ascii] per character: the
    development covers ASCII input, where [\w], [\d], [\s] and
    [str.isspace] have the meaning spelled out in [Str] and [in_class].
    No pattern of the lexers is compiled with re.ASCII, so beyond ASCII
    these classes hold more characters than the ones modelled here; a
    property that depends on them is stated for sources of ASCII
    characters.
    The matcher is pure, so a generator that consumes the matches one by
    one yields what the loop over the list of all matches yields. *)

From Stdlib Require Import String Ascii List Arith Lia Bool.
Import ListNotations.
Open Scope string_scope.
Open Scope list_scope.
Open Scope nat_scope.

Set Implicit Arguments.

(* ================================================================== *)
(** ** Strings as Python uses them *)

Module Str.

Definition nl : ascii := "010"%char.
Definition tab : ascii := "009"%char.
Definition cr : ascii := "013"%char.

(** [str.isspace] on one ASCII character; the same set is [\s]. *)
Definition is_space (a : ascii) : bool :=
  let n := nat_of_ascii a in
  ((9 <=? n) && (n <=? 13)) || ((28 <=? n) && (n <=? 32)).

Definition is_digit (a : ascii) : bool :=
  let n := nat_of_ascii a in (48 <=? n) && (n <=? 57).

Definition is_alpha (a : ascii) : bool :=
  let n := nat_of_ascii a in
  ((65 <=? n) && (n <=? 90)) || ((97 <=? n) && (n <=? 122)).

(** [\w] on one ASCII character. *)
Definition is_word (a : ascii) : bool :=
  is_alpha a || is_digit a || Ascii.eqb a "_".

(** [c.isascii()] *)
Definition is_ascii (a : ascii) : bool := nat_of_ascii a <? 128.

(** [s.count("\n")] *)
Fixpoint count_nl (s : string) : nat :=
  match s with
  | EmptyString => 0
  | String a s' => (if Ascii.eqb a nl then 1 else 0) + count_nl s'
  end.

(** [s.lstrip()] *)
Fixpoint lstrip (s : string) : string :=
  match s with
  | String a s' => if is_space a then lstrip s' else s
  | EmptyString => EmptyString
  end.

(** [s.rstrip()] *)
Fixpoint rstrip (s : string) : string :=
  match s with
  | EmptyString => EmptyString
  | String a s' =>
      match rstrip s' with
      | EmptyString => if is_space a then EmptyString else String a EmptyString
      | t => String a t
      end
  end.

(** [bool(s)] for a string. *)
Definition truthy (s : string) : bool :=
  match s with EmptyString => false | _ => true end.

(** [bool(x)] where [x] is a string or [None]. *)
Definition truthy_opt (o : option string) : bool :=
  match o with Some s => truthy s | None => false end.

(** [s[:n]] *)
Fixpoint take (n : nat) (s : string) : string :=
  match n, s with
  | S n', String a s' => String a (take n' s')
  | _, _ => EmptyString
  end.

(** The remainder of [s] after the prefix [p], when [s] starts with [p]. *)
Fixpoint strip_prefix (p s : string) : option string :=
  match p with
  | EmptyString => Some s
  | String a p' =>
      match s with
      | String b s' => if Ascii.eqb a b then strip_prefix p' s' else None
      | EmptyString => None
      end
  end.

(** [s.startswith(p)] *)
Definition startswith (p s : string) : bool :=
  match strip_prefix p s with Some _ => true | None => false end.

(** The last character of [w], or [d] when [w] is empty. *)
Fixpoint last_char (w : string) (d : option ascii) : option ascii :=
  match w with
  | EmptyString => d
  | String a w' => last_char w' (Some a)
  end.

Fixpoint all_chars (f : ascii -> bool) (w : string) : bool :=
  match w with
  | EmptyString => true
  | String a w' => f a && all_chars f w'
  end.

(** [x in xs] for a collection of strings. *)
Definition mem (x : string) (xs : list string) : bool :=
  existsb (String.eqb x) xs.

End Str.

(* ================================================================== *)
(** ** The regular expressions of the rule tables *)

Module Re.

Import Str.

(** Character classes. *)
Inductive charset : Type :=
| CAny                               (* [.] under re.DOTALL *)
| CNotNewline                        (* [.] without flags *)
| CWord                              (* [\w] *)
| CDigit                             (* [\d] *)
| CSpace                             (* [\s] *)
| CChar (c : ascii)                  (* one literal character *)
| CRange (lo hi : ascii)             (* [lo-hi] inside brackets *)
| CNone                              (* no character *)
| COr (a b : charset).               (* two items of a bracket set *)

(** [[...]]: a bracketed set, from its items. *)
Definition cset (items : list charset) : charset :=
  fold_right COr CNone items.

(** Patterns.  Every quantifier of the rule tables is applied to a
    single character class, so repetition is a constructor over
    [charset]: [Rep c lo hi greedy] is [c{lo,hi}], lazy when [greedy] is
    [false]; [hi = None] is an open upper bound. *)
Inductive regex : Type :=
| Empty
| Lit (s : string)                   (* text escaped with re.escape *)
| Chr (c : charset)
| Rep (c : charset) (lo : nat) (hi : option nat) (greedy : bool)
| Seq (a b : regex)
| Alt (a b : regex)
| Named (name : string) (r : regex)  (* (?P<name>...) *)
| Group (r : regex)                  (* (...) *)
| Backref (name : string)            (* (?P=name) *)
| Ahead (r : regex)                  (* (?=...) *)
| NotAhead (r : regex)               (* (?!...) *)
| Eos                                (* $ *)
| WordB.                             (* \b *)

Declare Scope re_scope.
Delimit Scope re_scope with re.
Bind Scope re_scope with regex.
Infix "<+>" := Seq (at level 60, right associativity) : re_scope.
Infix "<|>" := Alt (at level 70, right associativity) : re_scope.

Definition star (c : charset) : regex := Rep c 0 None true.        (* c*  *)
Definition plus (c : charset) : regex := Rep c 1 None true.        (* c+  *)
Definition opt (c : charset) : regex := Rep c 0 (Some 1) true.     (* c?  *)
Definition star_lazy (c : charset) : regex := Rep c 0 None false.  (* c*? *)
Definition plus_lazy (c : charset) : regex := Rep c 1 None false.  (* c+? *)

Fixpoint in_class (c : charset) (a : ascii) : bool :=
  match c with
  | CAny => true
  | CNotNewline => negb (Ascii.eqb a nl)
  | CWord => is_word a
  | CDigit => is_digit a
  | CSpace => is_space a
  | CChar b => Ascii.eqb a b
  | CRange lo hi =>
      (nat_of_ascii lo <=? nat_of_ascii a) && (nat_of_ascii a <=? nat_of_ascii hi)
  | CNone => false
  | COr c1 c2 => in_class c1 a || in_class c2 a
  end.

(** The state of one match attempt: the character before the current
    position (for [\b]), the text still to scan, the groups captured so
    far, and the name of the group that closed last ([None] when no
    group has closed or the last one to close has no name). *)
Record mstate : Type := MState {
  prev : option ascii;
  rest : string;
  marks : list (string * string);
  last : option string
}.

Definition moved (p : option ascii) (s : string) (st : mstate) : mstate :=
  MState p s (marks st) (last st).

Fixpoint lookup (n : string) (ms : list (string * string)) : option string :=
  match ms with
  | [] => None
  | (k, v) :: ms' => if String.eqb n k then Some v else lookup n ms'
  end.

(** The text between the positions of [st] and of a later state [st1]. *)
Definition captured (st st1 : mstate) : string :=
  take (String.length (rest st) - String.length (rest st1)) (rest st).

Definition close_named (n : string) (st st1 : mstate) : mstate :=
  MState (prev st1) (rest st1) ((n, captured st st1) :: marks st1) (Some n).

Definition close_group (st1 : mstate) : mstate :=
  MState (prev st1) (rest st1) (marks st1) None.

(** [$] without re.MULTILINE: the end of the text, or just before a
    newline that ends the text. *)
Definition at_eos (s : string) : bool :=
  match s with
  | EmptyString => true
  | String a EmptyString => Ascii.eqb a nl
  | _ => false
  end.

Definition opt_word (o : option ascii) : bool :=
  match o with Some a => is_word a | None => false end.

Definition next_char (s : string) : option ascii :=
  match s with String a _ => Some a | EmptyString => None end.

Definition at_boundary (st : mstate) : bool :=
  xorb (opt_word (prev st)) (opt_word (next_char (rest st))).

Definition can_more (hi : option nat) : bool :=
  match hi with Some 0 => false | _ => true end.

Definition dec (hi : option nat) : option nat := option_map Nat.pred hi.

(** Greedy repetition: take characters while possible, give them back
    one at a time while the continuation fails. *)
Fixpoint rep_greedy (A : Type) (c : charset) (lo : nat) (hi : option nat)
    (p : option ascii) (s : string)
    (k : option ascii -> string -> option A) : option A :=
  let stop := if lo =? 0 then k p s else None in
  match s with
  | String a s' =>
      if in_class c a && can_more hi then
        match rep_greedy c (Nat.pred lo) (dec hi) (Some a) s' k with
        | Some x => Some x
        | None => stop
        end
      else stop
  | EmptyString => stop
  end.

(** Lazy repetition: try the continuation first, take one more
    character each time it fails. *)
Fixpoint rep_lazy (A : Type) (c : charset) (lo : nat) (hi : option nat)
    (p : option ascii) (s : string)
    (k : option ascii -> string -> option A) : option A :=
  match (if lo =? 0 then k p s else None) with
  | Some x => Some x
  | None =>
      match s with
      | String a s' =>
          if in_class c a && can_more hi
          then rep_lazy c (Nat.pred lo) (dec hi) (Some a) s' k
          else None
      | EmptyString => None
      end
  end.

(** The backtracking matcher, in continuation-passing style: [exec r st k]
    is the first way, in the order the sre engine tries them, to match
    [r] at [st] such that the continuation [k] accepts what follows. *)
Fixpoint exec (A : Type) (r : regex) (st : mstate)
    (k : mstate -> option A) {struct r} : option A :=
  match r with
  | Empty => k st
  | Lit s =>
      match strip_prefix s (rest st) with
      | Some s' => k (moved (last_char s (prev st)) s' st)
      | None => None
      end
  | Chr c =>
      match rest st with
      | String a s' => if in_class c a then k (moved (Some a) s' st) else None
      | EmptyString => None
      end
  | Rep c lo hi greedy =>
      (if greedy then @rep_greedy A else @rep_lazy A)
        c lo hi (prev st) (rest st) (fun p s => k (moved p s st))
  | Seq a b => exec a st (fun st1 => exec b st1 k)
  | Alt a b =>
      match exec a st k with
      | Some x => Some x
      | None => exec b st k
      end
  | Named n r' => exec r' st (fun st1 => k (close_named n st st1))
  | Group r' => exec r' st (fun st1 => k (close_group st1))
  | Backref n =>
      match lookup n (marks st) with
      | Some w =>
          match strip_prefix w (rest st) with
          | Some s' => k (moved (last_char w (prev st)) s' st)
          | None => None
          end
      | None => None
      end
  | Ahead r' =>
      match exec r' st (fun st1 => Some st1) with
      | Some st1 => k (MState (prev st) (rest st) (marks st1) (last st1))
      | None => None
      end
  | NotAhead r' =>
      match exec r' st (fun _ => Some tt) with
      | Some _ => None
      | None => k st
      end
  | Eos => if at_eos (rest st) then k st else None
  | WordB => if at_boundary st then k st else None
  end.

(** *** Match objects and scanning *)

(** What the lexers read off a match object: its span, [m.group()],
    [m.lastgroup] and the named groups. *)
Record Match : Type := MkMatch {
  m_start : nat;
  m_end : nat;
  m_text : string;
  lastgroup : option string;
  m_groups : list (string * string)
}.

(** [m.group(name)]: [None] when the group took no part in the match. *)
Definition group (m : Match) (name : string) : option string :=
  lookup name (m_groups m).

(** One attempt at one position.  With [must_advance] an empty match is
    a failure of the attempt, so the engine backtracks into the
    pattern for a non-empty one. *)
Definition match_at (re : regex) (p : option ascii) (s : string)
    (must_advance : bool) : option mstate :=
  exec re (MState p s [] None)
    (fun st1 =>
       if must_advance && (String.length (rest st1) =? String.length s)
       then None else Some st1).

Definition mk_match (pos : nat) (s : string) (st1 : mstate) : Match :=
  let n := String.length s - String.length (rest st1) in
  MkMatch pos (pos + n) (take n s) (last st1) (marks st1).

(** [pattern.search] from a position: the leftmost position at which the
    pattern matches.  [must_advance] only concerns the first attempt. *)
Fixpoint search (re : regex) (p : option ascii) (s : string)
    (must_advance : bool) (pos : nat) : option (Match * mstate) :=
  match match_at re p s must_advance with
  | Some st1 => Some (mk_match pos s st1, st1)
  | None =>
      match s with
      | EmptyString => None
      | String a s' => search re (Some a) s' false (S pos)
      end
  end.

(** The loop of the scanner behind [finditer]: the next search starts
    where the previous match ended, and after an empty match it must
    advance.  [None] means the fuel ran out. *)
Fixpoint scan (fuel : nat) (re : regex) (p : option ascii) (s : string)
    (must_advance : bool) (pos : nat) : option (list Match) :=
  match fuel with
  | 0 => None
  | S fuel' =>
      match search re p s must_advance pos with
      | None => Some []
      | Some (m, st1) =>
          match scan fuel' re (prev st1) (rest st1)
                  (m_end m =? m_start m) (m_end m) with
          | Some ms => Some (m :: ms)
          | None => None
          end
      end
  end.

(** Two searches per position are the most a scan can make. *)
Definition scan_fuel (s : string) : nat := 2 * String.length s + 2.

Definition finditer_opt (re : regex) (source : string) : option (list Match) :=
  scan (scan_fuel source) re None source false 0.

(** [pattern.finditer(source)], as the list of all its matches. *)
Definition finditer (re : regex) (source : string) : list Match :=
  match finditer_opt re source with
  | Some ms => ms
  | None => []
  end.

End Re.

(* ================================================================== *)
(** ** Tokens, errors and generators *)

Module Tok.

(** Modelled from the spec: [liquid/token.py] is not part of the sources.
    Section 3 of the specification makes a token kind a tag drawn from a
    closed enumeration, and a keyword kind the keyword's own text (the
    lexers assign the matched text to [kind]); the kinds are therefore
    strings, each keyword kind spelled as its keyword and every other
    kind named after its constant. *)
Definition TOKEN_ILLEGAL := "illegal".
Definition TOKEN_TAG := "tag".
Definition TOKEN_EXPRESSION := "expression".
Definition TOKEN_STATEMENT := "statement".
Definition TOKEN_LITERAL := "literal".
Definition TOKEN_IDENTIFIER := "identifier".
Definition TOKEN_IDENTINDEX := "ident_index".
Definition TOKEN_IDENTSTRING := "ident_string".
Definition TOKEN_STRING := "string".
Definition TOKEN_INTEGER := "integer".
Definition TOKEN_FLOAT := "float".
Definition TOKEN_NEGATIVE := "negative".
Definition TOKEN_DOT := "dot".
Definition TOKEN_COMMA := "comma".
Definition TOKEN_LBRACKET := "lbracket".
Definition TOKEN_RBRACKET := "rbracket".
Definition TOKEN_LPAREN := "lparen".
Definition TOKEN_RPAREN := "rparen".
Definition TOKEN_COLON := "colon".
Definition TOKEN_PIPE := "pipe".
Definition TOKEN_RANGE := "range".
Definition TOKEN_ASSIGN := "assign".
Definition TOKEN_SKIP := "skip".
Definition TOKEN_NEWLINE := "newline".
Definition TOKEN_TRUE := "true".
Definition TOKEN_FALSE := "false".
Definition TOKEN_NIL := "nil".
Definition TOKEN_EMPTY := "empty".
Definition TOKEN_AND := "and".
Definition TOKEN_OR := "or".
Definition TOKEN_CONTAINS := "contains".
Definition TOKEN_WITH := "with".
Definition TOKEN_FOR := "for".
Definition TOKEN_AS := "as".
Definition TOKEN_BY := "by".
Definition TOKEN_IN := "in".
Definition TOKEN_OFFSET := "offset".
Definition TOKEN_LIMIT := "limit".
Definition TOKEN_REVERSED := "reversed".
Definition TOKEN_COLS := "cols".
Definition TOKEN_CONTINUE := "continue".

(** [Token(linenum, type, value)]; the loop sub-lexer yields the same
    triple as a plain tuple. *)
Record Token : Type := MkToken {
  linenum : nat;
  kind : string;
  value : string
}.

(** The text of the messages; an f-string keeps its interpolated value
    as an argument. *)
Inductive message : Type :=
| unexpected (value : string)            (* f"unexpected {value!r}" *)
| unknown_operator (value : string)      (* f"unknown operator {value!r}" *)
| expected_end.                          (* "expected '}}', found 'eof'" *)

Inductive exception : Type :=
| LiquidSyntaxError (msg : message) (at_line : nat)
| AssertionError.

(** What a consumer that exhausts a generator sees: the tokens yielded,
    in order, and the exception that ended the iteration, if any. *)
Record output : Type := MkOutput {
  tokens : list Token;
  raised : option exception
}.

(** One pass through the body of a [for match in ...] loop: the tokens
    it yields, and either the loop's variables for the next pass or the
    exception it raises. *)
Inductive pass (S : Type) : Type :=
| Next (yielded : list Token) (st : S)
| Raise (yielded : list Token) (e : exception).

Arguments Next {S} yielded st.
Arguments Raise {S} yielded e.

Fixpoint for_each (S : Type) (body : S -> Re.Match -> pass S) (st : S)
    (ms : list Re.Match) : output :=
  match ms with
  | [] => MkOutput [] None
  | m :: ms' =>
      match body st m with
      | Next ts st' =>
          let o := for_each body st' ms' in
          MkOutput (ts ++ tokens o) (raised o)
      | Raise ts e => MkOutput ts (Some e)
      end
  end.

(** [m.group(name)] where the lexer yields the group's text.  Python
    gives [None] for a group that took no part in the match; the groups
    that the lexers yield are part of the rule that matched and always
    take part (module [GroupFacts]), so the case is given the empty
    text rather than a value of its own. *)
Definition group_str (m : Re.Match) (name : string) : string :=
  match Re.group m name with
  | Some v => v
  | None => EmptyString
  end.

End Tok.

(* ================================================================== *)
(** ** liquid/lex.py *)

Module Lex.

Import Str Re Tok.
Local Open Scope re_scope.

(** [_compile_rules] compiles every table with re.DOTALL. *)
Definition dot : charset := CAny.

Definition dquote : ascii := "034"%char.

(** [[a-zA-Z0-9_\-]] *)
Definition ident_tail : charset :=
  cset [CRange "a" "z"; CRange "A" "Z"; CRange "0" "9"; CChar "_"; CChar "-"].

(** [[a-zA-Z0-9_\-?]] *)
Definition ident_tail_q : charset :=
  cset [CRange "a" "z"; CRange "A" "Z"; CRange "0" "9"; CChar "_"; CChar "-";
        CChar "?"].

(** [[ \t]] *)
Definition blank : charset := cset [CChar " "; CChar tab].

Definition IDENTIFIER_PATTERN : regex := Chr CWord <+> star ident_tail.

Definition STRING_PATTERN : regex :=
  Named "quote" (Chr (cset [CChar dquote; CChar "'"]))
  <+> Named "quoted" (star_lazy dot)
  <+> Backref "quote".

Definition identifier_rules : list (string * regex) :=
  [ (TOKEN_INTEGER, plus CDigit);
    (TOKEN_STRING, STRING_PATTERN);
    (TOKEN_IDENTIFIER, IDENTIFIER_PATTERN);
    (TOKEN_DOT, Lit ".");
    (TOKEN_LBRACKET, Lit "[");
    (TOKEN_RBRACKET, Lit "]");
    ("NEWLINE", Chr (CChar nl));
    ("SKIP", plus blank);
    (TOKEN_ILLEGAL, Chr dot) ].

Definition filtered_expression_rules : list (string * regex) :=
  [ (TOKEN_FLOAT, plus CDigit <+> Lit "." <+> star CDigit);
    (TOKEN_INTEGER, plus CDigit);
    (TOKEN_NEGATIVE, Lit "-");
    (TOKEN_STRING, STRING_PATTERN);
    (TOKEN_IDENTIFIER, IDENTIFIER_PATTERN);
    (TOKEN_DOT, Lit ".");
    (TOKEN_COMMA, Lit ",");
    (TOKEN_LBRACKET, Lit "[");
    (TOKEN_RBRACKET, Lit "]");
    (TOKEN_COLON, Lit ":");
    (TOKEN_PIPE, Lit "|");
    ("NEWLINE", Chr (CChar nl));
    ("SKIP", plus blank);
    (TOKEN_ILLEGAL, Chr dot) ].

Definition filtered_expression_keywords : list string :=
  [TOKEN_TRUE; TOKEN_FALSE; TOKEN_NIL; TOKEN_EMPTY].

Definition assignment_expression_rules : list (string * regex) :=
  (TOKEN_ASSIGN, Lit "=") :: filtered_expression_rules.

Definition boolean_expression_rules : list (string * regex) :=
  [ (TOKEN_FLOAT, plus CDigit <+> Lit "." <+> star CDigit);
    (TOKEN_INTEGER, plus CDigit);
    (TOKEN_NEGATIVE, Lit "-");
    (TOKEN_STRING, STRING_PATTERN);
    (TOKEN_IDENTIFIER, Chr CWord <+> star ident_tail_q);
    (TOKEN_DOT, Lit ".");
    (TOKEN_LBRACKET, Lit "[");
    (TOKEN_RBRACKET, Lit "]");
    (TOKEN_COLON, Lit ":");
    ("NEWLINE", Chr (CChar nl));
    ("OP", Rep (cset [CChar "!"; CChar "="; CChar "<"; CChar ">"]) 1 (Some 2) true);
    ("SKIP", plus blank);
    (TOKEN_ILLEGAL, Chr dot) ].

Definition boolean_expression_keywords : list string :=
  [TOKEN_TRUE; TOKEN_FALSE; TOKEN_NIL; TOKEN_EMPTY; TOKEN_AND; TOKEN_OR;
   TOKEN_CONTAINS].

Definition loop_expression_rules : list (string * regex) :=
  [ (TOKEN_INTEGER, plus CDigit);
    (TOKEN_IDENTIFIER, IDENTIFIER_PATTERN);
    (TOKEN_RANGE, Lit "..");
    (TOKEN_DOT, Lit ".");
    (TOKEN_LBRACKET, Lit "[");
    (TOKEN_RBRACKET, Lit "]");
    (TOKEN_LPAREN, Lit "(");
    (TOKEN_RPAREN, Lit ")");
    (TOKEN_COLON, Lit ":");
    ("NEWLINE", Chr (CChar nl));
    ("SKIP", plus blank);
    (TOKEN_ILLEGAL, Chr dot) ].

Definition loop_expression_keywords : list string :=
  [TOKEN_IN; TOKEN_OFFSET; TOKEN_LIMIT; TOKEN_REVERSED; TOKEN_COLS].

Definition include_expression_rules : list (string * regex) :=
  [ (TOKEN_FLOAT, plus CDigit <+> Lit "." <+> star CDigit);
    (TOKEN_INTEGER, plus CDigit);
    (TOKEN_NEGATIVE, Lit "-");
    (TOKEN_STRING, STRING_PATTERN);
    (TOKEN_IDENTIFIER, Chr CWord <+> star ident_tail_q);
    (TOKEN_DOT, Lit ".");
    (TOKEN_COMMA, Lit ",");
    (TOKEN_LBRACKET, Lit "[");
    (TOKEN_RBRACKET, Lit "]");
    (TOKEN_COLON, Lit ":");
    ("NEWLINE", Chr (CChar nl));
    ("SKIP", plus blank);
    (TOKEN_ILLEGAL, Chr dot) ].

Definition include_expression_keywords : list string :=
  [TOKEN_TRUE; TOKEN_FALSE; TOKEN_NIL; TOKEN_EMPTY; TOKEN_WITH; TOKEN_FOR;
   TOKEN_AS].

(** ["|".join(...)]: the alternatives in the order of the list. *)
Fixpoint alternation (rs : list regex) : regex :=
  match rs with
  | [] => Empty
  | [r] => r
  | r :: rs' => r <|> alternation rs'
  end.

(** Compile the given rules into a single regular expression. *)
Definition _compile_rules (rules : list (string * regex)) : regex :=
  alternation (map (fun rule => Named (fst rule) (snd rule)) rules).

(** Compile rules for lexing liquid templates.  [re.escape] makes each
    delimiter a literal. *)
Definition compile_liquid_rules
    (tag_start_string tag_end_string
     statement_start_string statement_end_string : string) : regex :=
  let tag_s := Lit tag_start_string in
  let tag_e := Lit tag_end_string in
  let stmt_s := Lit statement_start_string in
  let stmt_e := Lit statement_end_string in
  let liquid_rules :=
    [ ("RAW",
       tag_s <+> star CSpace <+> Lit "raw" <+> star CSpace <+> tag_e
       <+> Named "raw" (star_lazy dot)
       <+> tag_s <+> star CSpace <+> Lit "endraw" <+> star CSpace <+> tag_e);
      (TOKEN_STATEMENT,
       stmt_s <+> opt (CChar "-") <+> star CSpace
       <+> Named "stmt" (star_lazy dot)
       <+> star CSpace <+> Named "rss" (opt (CChar "-")) <+> stmt_e);
      ("TAG",
       tag_s <+> opt (CChar "-") <+> star CSpace
       <+> Named "name" (star CWord) <+> star CSpace
       <+> Named "expr" (star_lazy dot)
       <+> star CSpace <+> Named "rst" (opt (CChar "-")) <+> tag_e);
      (TOKEN_LITERAL,
       plus_lazy dot
       <+> Ahead (Group (Group (tag_s <|> stmt_s)
                         <+> Named "rstrip" (opt (CChar "-")))
                  <|> Eos)) ]
  in
  _compile_rules liquid_rules.

(** The expression of a "liquid" tag: a tag name, optionally followed
    by blanks and an expression, ended by a newline.  Compiled without
    flags, so [.] stops at a newline. *)
Definition LIQUID_EXPRESSION_RE : regex :=
  star blank <+> Named "name" (plus CWord) <+> star blank
  <+> Named "expr" (star CNotNewline) <+> star_lazy blank
  <+> Group (Chr (CChar nl) <|> Eos).

Definition liquid_expression_body (line_count : nat) (m : Match)
    : pass nat :=
  let line_num := line_count in
  let value := m_text m in
  let line_count := line_count + count_nl value in
  let tag := MkToken line_num TOKEN_TAG (group_str m "name") in
  if truthy_opt (group m "expr")
  then Next [tag; MkToken line_num TOKEN_EXPRESSION (group_str m "expr")]
            line_count
  else Next [tag] line_count.

(** Tokenize a "liquid" tag expression. *)
Definition tokenize_liquid_expression (source : string) : output :=
  for_each liquid_expression_body 1 (finditer LIQUID_EXPRESSION_RE source).

Section Tokenize.

(** The table [operators] of [liquid/token.py], which is not part of
    the sources: a lookup that fails stands for [KeyError]. *)
Variable operators : string -> option string.

Definition _tokenize_body (keywords : list string) (line_num : nat)
    (m : Match) : pass nat :=
  match lastgroup m with
  | None => Raise [] AssertionError
  | Some kind =>
      let value := m_text m in
      if (kind =? TOKEN_IDENTIFIER)%string && mem value keywords then
        Next [MkToken line_num value value] line_num
      else if (kind =? TOKEN_STRING)%string then
        Next [MkToken line_num kind (group_str m "quoted")] line_num
      else if (kind =? "OP")%string then
        match operators value with
        | Some kind' => Next [MkToken line_num kind' value] line_num
        | None =>
            Raise [] (LiquidSyntaxError (unknown_operator value) line_num)
        end
      else if (kind =? "NEWLINE")%string then
        Next [] (line_num + 1)
      else if (kind =? "SKIP")%string then
        Next [] line_num
      else if (kind =? TOKEN_ILLEGAL)%string then
        Raise [] (LiquidSyntaxError (unexpected value) line_num)
      else
        Next [MkToken line_num kind value] line_num
  end.

(** Generate tokens from the given source string according to the
    compiled rules. *)
Definition _tokenize (source : string) (rules : regex)
    (keywords : list string) : output :=
  for_each (_tokenize_body keywords) 1 (finditer rules source).

Definition tokenize_identifier (source : string) : output :=
  _tokenize source (_compile_rules identifier_rules) [].

Definition tokenize_loop_expression (source : string) : output :=
  _tokenize source (_compile_rules loop_expression_rules)
    loop_expression_keywords.

Definition tokenize_filtered_expression (source : string) : output :=
  _tokenize source (_compile_rules filtered_expression_rules)
    filtered_expression_keywords.

Definition tokenize_assignment_expression (source : string) : output :=
  _tokenize source (_compile_rules assignment_expression_rules)
    filtered_expression_keywords.

Definition tokenize_boolean_expression (source : string) : output :=
  _tokenize source (_compile_rules boolean_expression_rules)
    boolean_expression_keywords.

Definition tokenize_include_expression (source : string) : output :=
  _tokenize source (_compile_rules include_expression_rules)
    include_expression_keywords.

Definition tokenize_paginate_expression (source : string) : output :=
  _tokenize source (_compile_rules identifier_rules) [TOKEN_BY].

End Tokenize.

(** The loop variables of [_tokenize_template]. *)
Record tstate : Type := TState {
  line_count : nat;
  lstrip : bool
}.

Definition _tokenize_template_body (st : tstate) (m : Match) : pass tstate :=
  match lastgroup m with
  | None => Raise [] AssertionError
  | Some kind =>
      let line_num := line_count st in
      let value := m_text m in
      let line_count := line_count st + count_nl value in
      if (kind =? TOKEN_STATEMENT)%string then
        let value := group_str m "stmt" in
        let lstrip := truthy_opt (group m "rss") in
        Next [MkToken line_num kind value] (TState line_count lstrip)
      else if (kind =? "TAG")%string then
        let name := group_str m "name" in
        let value := group_str m "expr" in
        let lstrip := truthy_opt (group m "rst") in
        if negb (truthy value) then
          Next [MkToken line_num TOKEN_TAG name] (TState line_count lstrip)
        else
          Next [MkToken line_num TOKEN_TAG name;
                MkToken line_num TOKEN_EXPRESSION value]
               (TState line_count lstrip)
      else if (kind =? "RAW")%string then
        Next [MkToken line_num TOKEN_LITERAL (group_str m "raw")]
             (TState line_count (lstrip st))
      else if (kind =? TOKEN_LITERAL)%string then
        let value := if lstrip st then Str.lstrip value else value in
        let value :=
          if truthy_opt (group m "rstrip") then Str.rstrip value else value in
        if negb (truthy value) then
          Next [] (TState line_count (lstrip st))
        else if startswith "{{" value then
          Raise [] (LiquidSyntaxError expected_end line_count)
        else if startswith "{%" value then
          Raise [] (LiquidSyntaxError expected_end line_count)
        else
          Next [MkToken line_num kind value] (TState line_count (lstrip st))
      else
        Next [MkToken line_num kind value] (TState line_count (lstrip st))
  end.

Definition _tokenize_template (source : string) (rules : regex) : output :=
  for_each _tokenize_template_body (TState 1 false) (finditer rules source).

(** [get_lexer]; the [lru_cache] around it only saves recompilation. *)
Definition get_lexer
    (tag_start_string tag_end_string
     statement_start_string statement_end_string : string)
    : string -> output :=
  fun source =>
    _tokenize_template source
      (compile_liquid_rules tag_start_string tag_end_string
         statement_start_string statement_end_string).

(** [get_lexer()] with its default arguments. *)
Definition default_lexer : string -> output :=
  get_lexer "{%" "%}" "{{" "}}".

End Lex.

(* ================================================================== *)
(** ** liquid/expressions/loop/lex.py *)

Module LoopLex.

Import Str Re Tok.
Local Open Scope re_scope.

(** Modelled from the spec: [liquid/expressions/common.py], which
    defines the patterns and group names imported here, is not part of
    the sources.  The specification gives this sub-lexer no identifier
    syntax of its own, so an identifier is what [liquid/lex.py] makes
    it. *)
Definition IDENTIFIER_PATTERN : regex := Lex.IDENTIFIER_PATTERN.

(** Modelled from the spec: the names under which
    [liquid/expressions/common.py] captures the index, the quote and
    the quoted text; each is spelled after its constant. *)
Definition GROUP_IDENTINDEX := "identindex".
Definition GROUP_IDENTQUOTE := "identquote".
Definition GROUP_IDENTQUOTED := "identquoted".

(** Modelled from the spec: the pattern of [liquid/expressions/common.py]
    for an indexed identifier.  Section 4.3 describes the match as
    `name[...]` with a bracketed index that is reduced to its inner index
    text; the quoted form is the next rule of the table, so the index
    here is an integer, captured without the blanks around it.  Whether
    the name in front of the bracket belongs to the match cannot be
    read off the sources; the properties of this sub-lexer proved below
    hold either way. *)
Definition IDENTINDEX_PATTERN : regex :=
  IDENTIFIER_PATTERN <+> Lit "[" <+> star CSpace
  <+> Named GROUP_IDENTINDEX (plus CDigit)
  <+> star CSpace <+> Lit "]".

(** Modelled from the spec: the pattern of [liquid/expressions/common.py]
    for a quoted identifier, `name["literal"]` in section 4.3, whose
    capture is the text inside the quotes. *)
Definition IDENTSTRING_PATTERN : regex :=
  IDENTIFIER_PATTERN <+> Lit "[" <+> star CSpace
  <+> Named GROUP_IDENTQUOTE (Chr (cset [CChar Lex.dquote; CChar "'"]))
  <+> Named GROUP_IDENTQUOTED (star_lazy CAny)
  <+> Backref GROUP_IDENTQUOTE
  <+> star CSpace <+> Lit "]".

Definition token_rules : list (string * regex) :=
  [ (TOKEN_IDENTINDEX, IDENTINDEX_PATTERN);
    (TOKEN_IDENTSTRING, IDENTSTRING_PATTERN);
    (TOKEN_RANGE, Lit "..");
    (TOKEN_FLOAT,
     opt (CChar "-") <+> plus CDigit <+> Lit "." <+> NotAhead (Lit ".")
     <+> star CDigit);
    (TOKEN_INTEGER, opt (CChar "-") <+> plus CDigit <+> WordB);
    (TOKEN_DOT, Lit ".");
    (TOKEN_IDENTIFIER, IDENTIFIER_PATTERN);
    (TOKEN_LPAREN, Lit "(");
    (TOKEN_RPAREN, Lit ")");
    (TOKEN_LBRACKET, Lit "[");
    (TOKEN_RBRACKET, Lit "]");
    (TOKEN_COLON, Lit ":");
    (TOKEN_PIPE, Lit "|");
    (TOKEN_NEWLINE, Chr (CChar nl));
    (TOKEN_SKIP, plus (cset [CChar " "; CChar tab; CChar cr]));
    (TOKEN_ILLEGAL, Chr CAny) ].

Definition keywords : list string :=
  [TOKEN_IN; TOKEN_OFFSET; TOKEN_LIMIT; TOKEN_REVERSED; TOKEN_COLS;
   TOKEN_CONTINUE].

(** The same join as [_compile_rules], compiled with re.DOTALL. *)
Definition OUTPUT_RE : regex :=
  Lex.alternation (map (fun rule => Named (fst rule) (snd rule)) token_rules).

Definition tokenize_body (line_num : nat) (m : Match) : pass nat :=
  match lastgroup m with
  | None => Raise [] AssertionError
  | Some kind =>
      let value := m_text m in
      let newlines := count_nl value in
      if (kind =? TOKEN_IDENTIFIER)%string && mem value keywords then
        Next [MkToken (line_num + newlines) value value] (line_num + newlines)
      else if (kind =? TOKEN_IDENTINDEX)%string then
        Next [MkToken (line_num + newlines) kind (group_str m GROUP_IDENTINDEX)]
             (line_num + newlines)
      else if (kind =? TOKEN_IDENTSTRING)%string then
        Next [MkToken (line_num + newlines) TOKEN_IDENTIFIER
                (group_str m GROUP_IDENTQUOTED)]
             (line_num + newlines)
      else if (kind =? TOKEN_NEWLINE)%string then
        Next [] (line_num + 1)
      else if (kind =? TOKEN_SKIP)%string then
        Next [] line_num
      else if (kind =? TOKEN_ILLEGAL)%string then
        Raise [] (LiquidSyntaxError (unexpected value) line_num)
      else
        Next [MkToken (line_num + newlines) kind value] (line_num + newlines)
  end.

(** Yield tokens from a loop expression. *)
Definition tokenize (source : string) (line_num : nat) : output :=
  for_each tokenize_body line_num (finditer OUTPUT_RE source).

End LoopLex.

(* ================================================================== *)
(** ** Notions used to state the properties *)

Module Sem.

Import Str Re Tok Lex.

(** *** Of the matcher *)

(** [st'] is [st] after reading the text [w]. *)
Definition consumed (w : string) (st st' : mstate) : Prop :=
  exists s', rest st = (w ++ s')%string
             /\ st' = moved (last_char w (prev st)) s' st.

Definition within (hi : option nat) (n : nat) : Prop :=
  match hi with Some h => n <= h | None => True end.

(** The ways a pattern can take a state to a later one, without the
    order in which the engine tries them. *)
Fixpoint matches (r : regex) (st st' : mstate) : Prop :=
  match r with
  | Empty => st' = st
  | Lit s => consumed s st st'
  | Chr c =>
      exists a, in_class c a = true /\ consumed (String a EmptyString) st st'
  | Rep c lo hi _ =>
      exists w, all_chars (in_class c) w = true
                /\ lo <= String.length w /\ within hi (String.length w)
                /\ consumed w st st'
  | Seq a b => exists st1, matches a st st1 /\ matches b st1 st'
  | Alt a b => matches a st st' \/ matches b st st'
  | Named n r' => exists st1, matches r' st st1 /\ st' = close_named n st st1
  | Group r' => exists st1, matches r' st st1 /\ st' = close_group st1
  | Backref n => exists w, lookup n (marks st) = Some w /\ consumed w st st'
  | Ahead r' =>
      exists st1, matches r' st st1
                  /\ st' = MState (prev st) (rest st) (marks st1) (last st1)
  | NotAhead r' => st' = st /\ exec r' st (fun _ => Some tt) = None
  | Eos => st' = st /\ at_eos (rest st) = true
  | WordB => st' = st /\ at_boundary st = true
  end.

(** Patterns that cannot match the empty text, by their syntax. *)
Fixpoint nonempty (r : regex) : bool :=
  match r with
  | Lit s => negb (String.eqb s EmptyString)
  | Chr _ => true
  | Rep _ lo _ _ => 0 <? lo
  | Seq a b => nonempty a || nonempty b
  | Alt a b => nonempty a && nonempty b
  | Named _ r' => nonempty r'
  | Group r' => nonempty r'
  | Empty | Backref _ | Ahead _ | NotAhead _ | Eos | WordB => false
  end.

(** *** Of the scanning loop *)

(** The scanning loop as a relation, without fuel. *)
Inductive Scan (re : regex)
  : option ascii -> string -> bool -> nat -> list Match -> Prop :=
| Scan_done p s must pos :
    search re p s must pos = None ->
    Scan re p s must pos []
| Scan_more p s must pos m st1 ms :
    search re p s must pos = Some (m, st1) ->
    Scan re (prev st1) (rest st1) (m_end m =? m_start m) (m_end m) ms ->
    Scan re p s must pos (m :: ms).

(** Matches in scanning order, none before [from] or beyond [upto]. *)
Fixpoint ordered (from upto : nat) (ms : list Match) : Prop :=
  match ms with
  | [] => True
  | m :: ms' =>
      from <= m_start m /\ m_start m <= m_end m /\ m_end m <= upto
      /\ ordered (m_end m) upto ms'
  end.

(** Each match takes at least one character. *)
Definition advancing (ms : list Match) : Prop :=
  Forall (fun m => m_start m < m_end m) ms.

(** The matches tile the text between [from] and [upto]. *)
Fixpoint contiguous (from upto : nat) (ms : list Match) : Prop :=
  match ms with
  | [] => from = upto
  | m :: ms' =>
      m_start m = from /\ m_start m < m_end m
      /\ contiguous (m_end m) upto ms'
  end.

(** The texts of the matches, joined. *)
Fixpoint join_texts (ms : list Match) : string :=
  match ms with
  | [] => EmptyString
  | m :: ms' => (m_text m ++ join_texts ms')%string
  end.

(** The compiled tables of the expression sub-lexers; they all end with
    the catch-all rule.  The paginate tokenizer shares the table of the
    identifier tokenizer. *)
Definition expression_grammars : list regex :=
  [ _compile_rules identifier_rules;
    _compile_rules filtered_expression_rules;
    _compile_rules assignment_expression_rules;
    _compile_rules boolean_expression_rules;
    _compile_rules loop_expression_rules;
    _compile_rules include_expression_rules;
    LoopLex.OUTPUT_RE ].

(** The tables handed to [_tokenize]. *)
Definition expression_tables : list (list (string * regex)) :=
  [ identifier_rules; filtered_expression_rules; assignment_expression_rules;
    boolean_expression_rules; loop_expression_rules; include_expression_rules ].

(** *** Of the generators *)

(** The seven expression sub-lexers built on [_tokenize]. *)
Definition expression_tokenizers (operators : string -> option string)
    : list (string -> output) :=
  [ tokenize_identifier operators;
    tokenize_loop_expression operators;
    tokenize_filtered_expression operators;
    tokenize_assignment_expression operators;
    tokenize_boolean_expression operators;
    tokenize_include_expression operators;
    tokenize_paginate_expression operators ].

(** The tokens yielded at each pass of a [for_each] loop, pass by pass. *)
Fixpoint yields (S : Type) (body : S -> Match -> pass S) (st : S)
    (ms : list Match) : list (list Token) :=
  match ms with
  | [] => []
  | m :: ms' =>
      match body st m with
      | Next ts st' => ts :: yields body st' ms'
      | Raise ts _ => [ts]
      end
  end.

(** The loop variables after the passes over [ms], when none of them
    raises. *)
Fixpoint last_state (S : Type) (body : S -> Match -> pass S) (st : S)
    (ms : list Match) : option S :=
  match ms with
  | [] => Some st
  | m :: ms' =>
      match body st m with
      | Next _ st' => last_state body st' ms'
      | Raise _ _ => None
      end
  end.

Definition ends_well (o : output) : Prop :=
  raised o = None \/ exists msg ln, raised o = Some (LiquidSyntaxError msg ln).

(** The newlines inside the spans of the first [i] matches. *)
Definition newlines_before (ms : list Match) (i : nat) : nat :=
  list_sum (map (fun m => count_nl (m_text m)) (firstn i ms)).

(** The value of a literal after the trimming that [_tokenize_template]
    applies to it, given the pending left trim [l]. *)
Definition trimmed (l : bool) (m : Match) : string :=
  let v := if l then Str.lstrip (m_text m) else m_text m in
  if truthy_opt (group m "rstrip") then rstrip v else v.


(** [[!=<>]] *)
Definition operator_chars : charset :=
  cset [CChar "!"; CChar "="; CChar "<"; CChar ">"].

(** A table of operators with no entry at all: every lookup fails. *)
Definition no_operators : string -> option string := fun _ => None.

(** *** Sources used as examples *)

(** The line with [b] is the third line of [a], blank line, [b]. *)
Definition blank_line_source : string :=
  String "a" (String nl (String nl (String "b" EmptyString))).

(** A raw block and a statement that span several lines. *)
Definition multi_line_source : string :=
  ("{% raw %}" ++ String nl (String nl "{% endraw %}{{ x" ++ String nl "}}y"))%string.

(** A statement with a trailing trim marker, a raw block whose body
    keeps its blanks, and a literal with leading blanks. *)
Definition trim_raw_source : string :=
  "{{ x -}}{% raw %} a {% endraw %}  b".

(** *** Of the token streams *)

(** The kinds of the tokens of the template lexer. *)
Definition template_kinds : list string :=
  [TOKEN_STATEMENT; TOKEN_TAG; TOKEN_EXPRESSION; TOKEN_LITERAL].

(** Every expression token comes directly after a tag token of the same
    line; [before] is the token that precedes the list, if any. *)
Fixpoint paired (before : option Token) (ts : list Token) : Prop :=
  match ts with
  | [] => True
  | t :: ts' =>
      (kind t = TOKEN_EXPRESSION ->
       exists b, before = Some b /\ kind b = TOKEN_TAG
                 /\ linenum b = linenum t)
      /\ paired (Some t) ts'
  end.

(** A run of tokens that can stand anywhere in a paired stream. *)
Definition closed (ts : list Token) : Prop :=
  forall b us, (forall b', paired b' us) -> paired b (ts ++ us).

(** The line numbers never go down, starting from [lo]. *)
Fixpoint nondecreasing (lo : nat) (ts : list Token) : Prop :=
  match ts with
  | [] => True
  | t :: ts' => lo <= linenum t /\ nondecreasing (linenum t) ts'
  end.

(** An exception with a line is raised at or after the line of every
    token yielded before it. *)
Definition error_after (o : output) : Prop :=
  match raised o with
  | Some (LiquidSyntaxError _ ln) =>
      Forall (fun t => linenum t <= ln) (tokens o)
  | _ => True
  end.

Definition shift_token (d : nat) (t : Token) : Token :=
  MkToken (linenum t + d) (kind t) (value t).

Definition shift_exception (d : nat) (e : exception) : exception :=
  match e with
  | LiquidSyntaxError msg ln => LiquidSyntaxError msg (ln + d)
  | AssertionError => AssertionError
  end.

(** An output with every line number moved down by [d] lines. *)
Definition shift_output (d : nat) (o : output) : output :=
  MkOutput (map (shift_token d) (tokens o))
           (option_map (shift_exception d) (raised o)).

(** The expression sub-lexers whose tables have no rule for operators. *)
Definition plain_tokenizers (operators : string -> option string)
    : list (string -> output) :=
  [ tokenize_identifier operators;
    tokenize_loop_expression operators;
    tokenize_filtered_expression operators;
    tokenize_assignment_expression operators;
    tokenize_include_expression operators;
    tokenize_paginate_expression operators ].

(** A token with the identifier [word] turned into a keyword: its kind
    becomes the word itself. *)
Definition as_keyword (word : string) (t : Token) : Token :=
  if ((kind t =? TOKEN_IDENTIFIER) && (value t =? word))%string
  then MkToken (linenum t) word word
  else t.

(** *** Of the text a pattern reads *)

(** Every character of the class satisfies [f]. *)
Definition class_within (c : charset) (f : ascii -> bool) : bool :=
  forallb (fun n => implb (in_class c (ascii_of_nat n)) (f (ascii_of_nat n)))
    (seq 0 256).

(** Patterns that, by their syntax, read only characters that satisfy
    [f]. *)
Fixpoint reads_only (f : ascii -> bool) (r : regex) : bool :=
  match r with
  | Empty | Ahead _ | NotAhead _ | Eos | WordB => true
  | Lit s => all_chars f s
  | Chr c | Rep c _ _ _ => class_within c f
  | Seq a b | Alt a b => reads_only f a && reads_only f b
  | Named _ r' | Group r' => reads_only f r'
  | Backref _ => false
  end.

Definition not_newline (a : ascii) : bool := negb (Ascii.eqb a nl).

(** A loop expression on two lines. *)
Definition loop_lines_source : string :=
  String "x" (String nl "in y").

(** *** Of the text of the tokens *)

(** The characters that the expression sub-lexers pass over. *)
Definition is_blank (a : ascii) : bool :=
  Ascii.eqb a " " || Ascii.eqb a tab || Ascii.eqb a nl.

Definition not_blank (a : ascii) : bool := negb (is_blank a).

Fixpoint remove_blank (s : string) : string :=
  match s with
  | EmptyString => EmptyString
  | String a s' =>
      if is_blank a then remove_blank s' else String a (remove_blank s')
  end.

(** The values of the tokens, joined. *)
Fixpoint join_values (ts : list Token) : string :=
  match ts with
  | [] => EmptyString
  | t :: ts' => (value t ++ join_values ts')%string
  end.

(** [a] is the first character of the delimiter. *)
Definition opens (delimiter : string) (a : ascii) : bool :=
  match delimiter with
  | String b _ => Ascii.eqb a b
  | EmptyString => false
  end.

(** The characters of plain text: those that start neither of the
    opening delimiters, the brace of the default ones apart. *)
Definition plain (tag_start statement_start : string) (a : ascii) : bool :=
  negb (opens tag_start a || opens statement_start a || Ascii.eqb a "{").

(** Two lines of plain text, the second ended by a newline. *)
Definition plain_source : string :=
  String "a" (String nl (String "b" (String nl EmptyString))).

(** *** Of the order in which the matcher tries *)

(** Patterns without a lookahead. *)
Fixpoint ahead_free (r : regex) : bool :=
  match r with
  | Ahead _ => false
  | Seq a b | Alt a b => ahead_free a && ahead_free b
  | Named _ r' | Group r' => ahead_free r'
  | Empty | Lit _ | Chr _ | Rep _ _ _ _ | Backref _ | NotAhead _
  | Eos | WordB => true
  end.

(** The continuation that [match_at] gives the matcher: what one
    attempt of a search accepts. *)
Definition accept (must : bool) (s : string) (st1 : mstate) : option mstate :=
  if must && (String.length (rest st1) =? String.length s)
  then None else Some st1.

(** Patterns whose matches depend on the text ahead only: no
    backreference, no lookahead and no word boundary. *)
Fixpoint text_only (r : regex) : bool :=
  match r with
  | Backref _ | Ahead _ | NotAhead _ | WordB => false
  | Seq a b | Alt a b => text_only a && text_only b
  | Named _ r' | Group r' => text_only r'
  | Empty | Lit _ | Chr _ | Rep _ _ _ _ | Eos => true
  end.

(** [part in s] *)
Definition contains (part s : string) : Prop :=
  exists before after, s = (before ++ part ++ after)%string.

(** The first character of [s] satisfies [f]. *)
Definition first_is (f : ascii -> bool) (s : string) : bool :=
  match s with String a _ => f a | EmptyString => false end.

(** The last character of [s] satisfies [f]. *)
Definition last_is (f : ascii -> bool) (s : string) : bool :=
  match last_char s None with Some a => f a | None => false end.

(** Continuations that look at the text ahead only. *)
Definition by_rest (A : Type) (k : mstate -> option A) : Prop :=
  forall st st', rest st = rest st' -> k st = None -> k st' = None.

(** The texts that close a raw block: [{% endraw %}] with any
    whitespace inside. *)
Definition closes_raw (tag_start tag_end s : string) : Prop :=
  exists sp1 sp2,
    all_chars is_space sp1 = true /\ all_chars is_space sp2 = true
    /\ s = (tag_start ++ sp1 ++ "endraw" ++ sp2 ++ tag_end)%string.

Definition is_dash (a : ascii) : bool := Ascii.eqb a "-".

(** [s.endswith(suffix)] *)
Definition endswith (suffix s : string) : Prop :=
  exists before, s = (before ++ suffix)%string.

(** *** Of the markup after a literal *)





(** A tag with both trim markers, a name and an expression, and a
    statement, between literals. *)
Definition tag_source : string := "a {%- if x -%} b {{ y }}".

(** Two lines of a [liquid] tag, the second without an expression. *)
Definition liquid_lines_source : string :=
  ("assign x = 1" ++ String nl "break")%string.

(** [s.isascii()] *)
Definition isascii (s : string) : bool := all_chars is_ascii s.

(** *** Of the text between the delimiters *)

(** [s] without the dash it starts with, if it does. *)
Definition chop_start_dash (s : string) : string :=
  match strip_prefix "-" s with Some s' => s' | None => s end.

(** [s[:-1]] *)
Fixpoint drop_last (s : string) : string :=
  match s with
  | EmptyString => EmptyString
  | String a EmptyString => EmptyString
  | String a s' => String a (drop_last s')
  end.

(** [s] without the dash it ends with, if it does. *)
Definition chop_end_dash (s : string) : string :=
  if last_is is_dash s then drop_last s else s.

(** [s.strip()] *)
Definition strip (s : string) : string := rstrip (Str.lstrip s).

(** The longest prefix of [s] made of characters that satisfy [f], and
    what is left of [s] after it. *)
Fixpoint take_while (f : ascii -> bool) (s : string) : string :=
  match s with
  | String a s' => if f a then String a (take_while f s') else EmptyString
  | EmptyString => EmptyString
  end.

Fixpoint drop_while (f : ascii -> bool) (s : string) : string :=
  match s with
  | String a s' => if f a then drop_while f s' else s
  | EmptyString => EmptyString
  end.

End Sem.

Unset Implicit Arguments.

(* ================================================================== *)
(** ** Facts about strings *)

Module StrFacts.

Import Str.

Lemma length_app (u v : string) :
  String.length (u ++ v) = String.length u + String.length v.
Proof.
  induction u as [|a u IH]; simpl; [reflexivity | now rewrite IH].
Qed.

Lemma app_assoc (u v w : string) :
  ((u ++ v) ++ w)%string = (u ++ (v ++ w))%string.
Proof.
  induction u as [|a u IH]; simpl; [reflexivity | now rewrite IH].
Qed.

Lemma strip_prefix_app (p s s' : string) :
  strip_prefix p s = Some s' -> s = (p ++ s')%string.
Proof.
  revert s; induction p as [|a p IH]; intros s H; simpl in *.
  - now inversion H.
  - destruct s as [|b s]; [discriminate|].
    destruct (Ascii.eqb a b) eqn:E; [|discriminate].
    apply Ascii.eqb_eq in E; subst b.
    now rewrite (IH _ H).
Qed.

Lemma strip_prefix_complete (p s' : string) :
  strip_prefix p (p ++ s') = Some s'.
Proof.
  induction p as [|a p IH]; simpl; [reflexivity|].
  now rewrite Ascii.eqb_refl.
Qed.

Lemma take_app (u v : string) :
  take (String.length u) (u ++ v) = u.
Proof.
  induction u as [|a u IH]; simpl.
  - now destruct v.
  - now rewrite IH.
Qed.

Lemma take_app_length (u v : string) :
  take (String.length (u ++ v) - String.length v) (u ++ v) = u.
Proof.
  rewrite length_app.
  replace (String.length u + String.length v - String.length v)
    with (String.length u) by lia.
  apply take_app.
Qed.

Lemma count_nl_app (u v : string) :
  count_nl (u ++ v) = count_nl u + count_nl v.
Proof.
  induction u as [|a u IH]; simpl; [reflexivity | rewrite IH; lia].
Qed.

Lemma startswith_app (p s : string) :
  startswith p s = true -> exists t, s = (p ++ t)%string.
Proof.
  unfold startswith. intros H.
  destruct (strip_prefix p s) as [t|] eqn:E; [|discriminate].
  exists t. now apply strip_prefix_app.
Qed.

Lemma mem_In (x : string) (xs : list string) :
  mem x xs = true <-> In x xs.
Proof.
  unfold mem. rewrite existsb_exists. split.
  - intros [y [Hy E]]. apply String.eqb_eq in E. now subst.
  - intros H. exists x. split; [assumption | apply String.eqb_refl].
Qed.

Lemma take_length (n : nat) (s : string) :
  n <= String.length s -> String.length (take n s) = n.
Proof.
  revert s; induction n as [|n IH]; intros [|a s] H; simpl in *; try lia.
  rewrite IH; lia.
Qed.

Lemma mem_true_In (x : string) (xs : list string) :
  mem x xs = true -> In x xs.
Proof. apply mem_In. Qed.

Lemma mem_false_not_In (x : string) (xs : list string) :
  mem x xs = false -> ~ In x xs.
Proof.
  intros H I. apply mem_In in I. congruence.
Qed.

End StrFacts.

(* ================================================================== *)
(** ** What a successful match attempt guarantees *)

Module ReFacts.

Import Str Re Sem StrFacts.

Lemma rep_greedy_sound (A : Type) (c : charset) (s : string) :
  forall lo hi p (k : option ascii -> string -> option A) x,
    rep_greedy c lo hi p s k = Some x ->
    exists w s', s = (w ++ s')%string
                 /\ all_chars (in_class c) w = true
                 /\ lo <= String.length w /\ within hi (String.length w)
                 /\ k (last_char w p) s' = Some x.
Proof.
  induction s as [|a s IH]; intros lo hi p k x H; simpl in H.
  - destruct (lo =? 0) eqn:E; [|discriminate].
    apply Nat.eqb_eq in E. exists EmptyString, EmptyString.
    simpl. repeat split; try lia; [destruct hi; simpl; lia | assumption].
  - assert (Stop : (if lo =? 0 then k p (String a s) else None) = Some x ->
                   exists w s', String a s = (w ++ s')%string
                     /\ all_chars (in_class c) w = true
                     /\ lo <= String.length w /\ within hi (String.length w)
                     /\ k (last_char w p) s' = Some x).
    { intros S. destruct (lo =? 0) eqn:E; [|discriminate].
      apply Nat.eqb_eq in E. exists EmptyString, (String a s).
      simpl. repeat split; try lia; [destruct hi; simpl; lia | assumption]. }
    destruct (in_class c a && can_more hi) eqn:T; [|now apply Stop].
    destruct (rep_greedy c (Nat.pred lo) (dec hi) (Some a) s k) eqn:R;
      [|now apply Stop].
    inversion H; subst a0; clear H.
    apply andb_prop in T. destruct T as [Tc Tm].
    destruct (IH _ _ _ _ _ R) as (w & s' & -> & Hall & Hlo & Hhi & Hk).
    exists (String a w), s'. simpl. rewrite Tc, Hall.
    repeat split; try lia; [|assumption].
    destruct hi as [[|h]|]; simpl in *; try discriminate; lia.
Qed.

Lemma rep_lazy_sound (A : Type) (c : charset) (s : string) :
  forall lo hi p (k : option ascii -> string -> option A) x,
    rep_lazy c lo hi p s k = Some x ->
    exists w s', s = (w ++ s')%string
                 /\ all_chars (in_class c) w = true
                 /\ lo <= String.length w /\ within hi (String.length w)
                 /\ k (last_char w p) s' = Some x.
Proof.
  induction s as [|a s IH]; intros lo hi p k x H; simpl in H.
  - destruct (lo =? 0) eqn:E.
    + apply Nat.eqb_eq in E. exists EmptyString, EmptyString.
      destruct (k p EmptyString) eqn:K; [|discriminate].
      simpl. repeat split; try lia; [destruct hi; simpl; lia | congruence].
    + discriminate.
  - destruct (if lo =? 0 then k p (String a s) else None) eqn:S.
    + destruct (lo =? 0) eqn:E; [|discriminate].
      apply Nat.eqb_eq in E. exists EmptyString, (String a s).
      simpl. repeat split; try lia; [destruct hi; simpl; lia | congruence].
    + destruct (in_class c a && can_more hi) eqn:T; [|discriminate].
      apply andb_prop in T. destruct T as [Tc Tm].
      destruct (IH _ _ _ _ _ H) as (w & s' & -> & Hall & Hlo & Hhi & Hk).
      exists (String a w), s'. simpl. rewrite Tc, Hall.
      repeat split; try lia; [|assumption].
      destruct hi as [[|h]|]; simpl in *; try discriminate; lia.
Qed.

(** Soundness of the matcher: whatever [exec] returns was accepted by
    the continuation at a state the pattern leads to. *)
Theorem exec_sound (r : regex) :
  forall (A : Type) (st : mstate) (k : mstate -> option A) (x : A),
    exec r st k = Some x ->
    exists st', matches r st st' /\ k st' = Some x.
Proof.
  induction r as [ | s | c | c lo hi g | a IHa b IHb | a IHa b IHb
                 | n r IH | r IH | n | r IH | r IH | | ];
    intros A st k x H; simpl in H.
  - exists st. now split.
  - destruct (strip_prefix s (rest st)) as [s'|] eqn:E; [|discriminate].
    eexists. split; [|exact H]. exists s'. split; [|reflexivity].
    now apply strip_prefix_app.
  - destruct (rest st) as [|a s'] eqn:E; [discriminate|].
    destruct (in_class c a) eqn:T; [|discriminate].
    eexists. split; [|exact H]. exists a. split; [assumption|].
    exists s'. now split.
  - assert (S : exists w s', rest st = (w ++ s')%string
                /\ all_chars (in_class c) w = true
                /\ lo <= String.length w /\ within hi (String.length w)
                /\ k (moved (last_char w (prev st)) s' st) = Some x).
    { destruct g; [apply rep_greedy_sound in H | apply rep_lazy_sound in H];
        exact H. }
    destruct S as (w & s' & E & Hall & Hlo & Hhi & Hk).
    eexists. split; [|exact Hk]. exists w. repeat split; try assumption.
    exists s'. now split.
  - apply IHa in H. destruct H as (st1 & Ma & H).
    apply IHb in H. destruct H as (st2 & Mb & H).
    exists st2. split; [|assumption]. now exists st1.
  - destruct (exec a st k) eqn:E.
    + inversion H; subst. apply IHa in E. destruct E as (st1 & M & K).
      exists st1. split; [now left | assumption].
    + apply IHb in H. destruct H as (st1 & M & K).
      exists st1. split; [now right | assumption].
  - apply IH in H. destruct H as (st1 & M & K).
    eexists. split; [|exact K]. now exists st1.
  - apply IH in H. destruct H as (st1 & M & K).
    eexists. split; [|exact K]. now exists st1.
  - destruct (lookup n (marks st)) as [w|] eqn:L; [|discriminate].
    destruct (strip_prefix w (rest st)) as [s'|] eqn:E; [|discriminate].
    eexists. split; [|exact H]. exists w. split; [assumption|].
    exists s'. split; [|reflexivity]. now apply strip_prefix_app.
  - destruct (exec r st (fun st1 => Some st1)) as [st1|] eqn:E; [|discriminate].
    apply IH in E. destruct E as (st2 & M & K). inversion K; subst st2.
    eexists. split; [|exact H]. now exists st1.
  - destruct (exec r st (fun _ => Some tt)) eqn:E; [discriminate|].
    exists st. now repeat split.
  - destruct (at_eos (rest st)) eqn:E; [|discriminate].
    exists st. now repeat split.
  - destruct (at_boundary st) eqn:E; [|discriminate].
    exists st. now repeat split.
Qed.

(** A pattern only ever moves forward in the text. *)
Lemma matches_suffix (r : regex) :
  forall st st', matches r st st' ->
                 exists w, rest st = (w ++ rest st')%string.
Proof.
  assert (C : forall w st st', consumed w st st' ->
                exists w, rest st = (w ++ rest st')%string).
  { intros w st st' (s' & E & ->). now exists w. }
  induction r as [ | s | c | c lo hi g | a IHa b IHb | a IHa b IHb
                 | n r IH | r IH | n | r IH | r IH | | ];
    intros st st' M; simpl in M.
  - subst. now exists EmptyString.
  - eapply C; eassumption.
  - destruct M as (a & _ & M). eapply C; eassumption.
  - destruct M as (w & _ & _ & _ & M). eapply C; eassumption.
  - destruct M as (st1 & Ma & Mb).
    destruct (IHa _ _ Ma) as [u Eu]. destruct (IHb _ _ Mb) as [v Ev].
    exists (u ++ v)%string. now rewrite Eu, Ev, app_assoc.
  - destruct M as [M|M]; [now apply IHa | now apply IHb].
  - destruct M as (st1 & M & ->). unfold close_named; simpl. now apply IH.
  - destruct M as (st1 & M & ->). unfold close_group; simpl. now apply IH.
  - destruct M as (w & _ & M). eapply C; eassumption.
  - destruct M as (st1 & M & ->). now exists EmptyString.
  - destruct M as [-> _]. now exists EmptyString.
  - destruct M as [-> _]. now exists EmptyString.
  - destruct M as [-> _]. now exists EmptyString.
Qed.

Lemma matches_length (r : regex) (st st' : mstate) :
  matches r st st' -> String.length (rest st') <= String.length (rest st).
Proof.
  intros M. destruct (matches_suffix _ _ _ M) as [w E].
  rewrite E, length_app. lia.
Qed.

Lemma matches_nonempty (r : regex) :
  forall st st', nonempty r = true -> matches r st st' ->
                 String.length (rest st') < String.length (rest st).
Proof.
  assert (C : forall w st st', consumed w st st' ->
                String.length (rest st)
                = String.length w + String.length (rest st')).
  { intros w st st' (s' & E & ->). simpl. now rewrite E, length_app. }
  induction r as [ | s | c | c lo hi g | a IHa b IHb | a IHa b IHb
                 | n r IH | r IH | n | r IH | r IH | | ];
    intros st st' N M; simpl in N, M; try discriminate.
  - apply C in M. destruct s; [discriminate | simpl in M; lia].
  - destruct M as (a & _ & M). apply C in M. simpl in M. lia.
  - destruct M as (w & _ & Hlo & _ & M). apply C in M.
    apply Nat.ltb_lt in N. lia.
  - destruct M as (st1 & Ma & Mb).
    pose proof (matches_length _ _ _ Ma). pose proof (matches_length _ _ _ Mb).
    apply orb_prop in N. destruct N as [N|N].
    + specialize (IHa _ _ N Ma). lia.
    + specialize (IHb _ _ N Mb). lia.
  - apply andb_prop in N. destruct N as [Na Nb].
    destruct M as [M|M]; [now apply IHa | now apply IHb].
  - destruct M as (st1 & M & ->). unfold close_named; simpl. now apply IH.
  - destruct M as (st1 & M & ->). unfold close_group; simpl. now apply IH.
Qed.

End ReFacts.

(* ================================================================== *)
(** ** Scanning: search and finditer *)

Module ScanFacts.

Import Str Re Sem StrFacts ReFacts.

Lemma match_at_sound (re : regex) (p : option ascii) (s : string)
    (must : bool) (st1 : mstate) :
  match_at re p s must = Some st1 ->
  matches re (MState p s [] None) st1
  /\ (must = true -> String.length (rest st1) <> String.length s).
Proof.
  unfold match_at. intros H.
  apply exec_sound in H. destruct H as (st' & M & K).
  destruct (must && (String.length (rest st') =? String.length s)) eqn:E;
    [discriminate|].
  inversion K; subst st'. split; [assumption|].
  intros ->. simpl in E. now apply Nat.eqb_neq in E.
Qed.

(** Where [search] found its match: after skipping [skipped], at an
    attempt that only had to advance if it was the first one. *)
Lemma search_sound (re : regex) (s : string) :
  forall p must pos m st1,
    search re p s must pos = Some (m, st1) ->
    exists skipped s0 p0 must0,
      s = (skipped ++ s0)%string
      /\ match_at re p0 s0 must0 = Some st1
      /\ m = mk_match (pos + String.length skipped) s0 st1
      /\ (skipped = EmptyString -> must0 = must /\ p0 = p)
      /\ (skipped <> EmptyString -> must0 = false).
Proof.
  induction s as [|a s IH]; intros p must pos m st1 H; simpl in H.
  - destruct (match_at re p EmptyString must) as [st|] eqn:E; [|discriminate].
    inversion H; subst. exists EmptyString, EmptyString, p, must.
    simpl. rewrite Nat.add_0_r. repeat split; try assumption; congruence.
  - destruct (match_at re p (String a s) must) as [st|] eqn:E.
    + inversion H; subst. exists EmptyString, (String a s), p, must.
      simpl. rewrite Nat.add_0_r. repeat split; try assumption; congruence.
    + apply IH in H.
      destruct H as (skipped & s0 & p0 & must0 & -> & M & -> & He & Hn).
      exists (String a skipped), s0, p0, must0. simpl.
      replace (pos + S (String.length skipped))
        with (S pos + String.length skipped) by lia.
      repeat split; try assumption; try discriminate.
      intros _. destruct skipped as [|b sk].
      * now destruct (He eq_refl).
      * now apply Hn.
Qed.

Lemma scan_Scan (re : regex) (fuel : nat) :
  forall p s must pos ms,
    scan fuel re p s must pos = Some ms -> Scan re p s must pos ms.
Proof.
  induction fuel as [|fuel IH]; intros p s must pos ms H; simpl in H;
    [discriminate|].
  destruct (search re p s must pos) as [[m st1]|] eqn:E.
  - destruct (scan fuel re (prev st1) (rest st1) (m_end m =? m_start m)
                (m_end m)) as [ms'|] eqn:R; [|discriminate].
    inversion H; subst. eapply Scan_more; [eassumption | now apply IH].
  - inversion H; subst. now apply Scan_done.
Qed.

(** The span of a found match, in terms of the text left after it. *)
Lemma search_span (re : regex) (s : string) p must pos m st1 :
  search re p s must pos = Some (m, st1) ->
  pos <= m_start m /\ m_start m <= m_end m
  /\ m_end m + String.length (rest st1) = pos + String.length s
  /\ (m_end m = m_start m -> must = true -> pos < m_start m)
  /\ (nonempty re = true -> m_start m < m_end m).
Proof.
  intros H. apply search_sound in H.
  destruct H as (skipped & s0 & p0 & must0 & -> & M & -> & He & Hn).
  apply match_at_sound in M. destruct M as [M Hadv].
  pose proof (matches_length _ _ _ M) as L. simpl in L.
  unfold mk_match; simpl. rewrite length_app.
  repeat split; try lia.
  - intros Hz Hm. destruct skipped as [|b sk]; [|simpl; lia].
    destruct (He eq_refl) as [-> _]. specialize (Hadv Hm). lia.
  - intros N. pose proof (matches_nonempty _ _ _ N M) as Lt. simpl in Lt. lia.
Qed.

(** Every scan has enough fuel: a search either ends the scan or
    shortens what is left, and an empty match is followed by a search
    that must advance. *)
Lemma scan_enough (re : regex) (fuel : nat) :
  forall p s (must : bool) pos,
    2 * String.length s + (if must then 0 else 1) < fuel ->
    scan fuel re p s must pos <> None.
Proof.
  induction fuel as [|fuel IH]; intros p s must pos F; [lia|].
  simpl. destruct (search re p s must pos) as [[m st1]|] eqn:E;
    [|discriminate].
  pose proof (search_span _ _ _ _ _ _ _ E) as (S1 & S2 & S3 & S4 & _).
  assert (G : scan fuel re (prev st1) (rest st1) (m_end m =? m_start m)
                (m_end m) <> None).
  { apply IH. destruct (m_end m =? m_start m) eqn:Z.
    - apply Nat.eqb_eq in Z. destruct must.
      + specialize (S4 Z eq_refl). lia.
      + lia.
    - apply Nat.eqb_neq in Z. destruct must; lia. }
  destruct (scan fuel re (prev st1) (rest st1) (m_end m =? m_start m)
              (m_end m)); [discriminate | contradiction].
Qed.

(** [finditer] never runs out of fuel. *)
Theorem finditer_total (re : regex) (source : string) :
  finditer_opt re source = Some (finditer re source).
Proof.
  unfold finditer.
  destruct (finditer_opt re source) eqn:E; [reflexivity|].
  exfalso. unfold finditer_opt in E. revert E.
  apply scan_enough. unfold scan_fuel. lia.
Qed.

Lemma finditer_Scan (re : regex) (source : string) :
  Scan re None source false 0 (finditer re source).
Proof.
  apply scan_Scan with (fuel := scan_fuel source). apply finditer_total.
Qed.

(** A property of every match that [search] can return holds of every
    match of [finditer]. *)
Lemma Scan_Forall (re : regex) (P : Match -> Prop) :
  (forall p s must pos m st1,
      search re p s must pos = Some (m, st1) -> P m) ->
  forall p s must pos ms, Scan re p s must pos ms -> Forall P ms.
Proof.
  intros HP p s must pos ms S.
  induction S as [|p s must pos m st1 ms E S IH]; constructor.
  - eapply HP; eassumption.
  - assumption.
Qed.

Lemma Scan_ordered (re : regex) p s must pos ms :
  Scan re p s must pos ms -> ordered pos (pos + String.length s) ms.
Proof.
  intros S. induction S as [|p s must pos m st1 ms E S IH]; simpl; [trivial|].
  pose proof (search_span _ _ _ _ _ _ _ E) as (S1 & S2 & S3 & _).
  rewrite S3 in IH. repeat split; try lia. exact IH.
Qed.

Lemma Scan_advancing (re : regex) p s must pos ms :
  nonempty re = true -> Scan re p s must pos ms -> advancing ms.
Proof.
  intros N S. eapply Scan_Forall; [|exact S].
  intros p' s' must' pos' m st1 E.
  now apply (search_span _ _ _ _ _ _ _ E).
Qed.

Lemma ordered_advancing_count (ms : list Match) :
  forall from upto, ordered from upto ms -> advancing ms ->
                    from + List.length ms <= Nat.max from upto.
Proof.
  induction ms as [|m ms IH]; intros from upto O A; simpl in *; [lia|].
  destruct O as (O1 & O2 & O3 & O). inversion A as [|? ? A1 A2]; subst.
  specialize (IH _ _ O A2). lia.
Qed.

(** The first match of a scan, when the pattern matches at the start. *)
Lemma finditer_first (re : regex) (source : string) (st1 : mstate) :
  match_at re None source false = Some st1 ->
  exists ms, finditer re source = mk_match 0 source st1 :: ms.
Proof.
  intros E. pose proof (finditer_Scan re source) as S.
  assert (H : search re None source false 0
              = Some (mk_match 0 source st1, st1)).
  { destruct source; simpl; now rewrite E. }
  inversion S as [? ? ? ? N|? ? ? ? m st2 ms Hs S']; subst.
  - congruence.
  - rewrite H in Hs. inversion Hs; subst. now exists ms.
Qed.

End ScanFacts.

(* ================================================================== *)
(** ** Rule tables and generators *)

Module RuleFacts.

Import Str Re Tok Lex Sem StrFacts ReFacts ScanFacts.

Lemma alternation_inv (rs : list regex) (st st' : mstate) :
  rs <> [] -> matches (alternation rs) st st' ->
  exists r, In r rs /\ matches r st st'.
Proof.
  induction rs as [|r rs IH]; intros N M; [congruence|].
  destruct rs as [|r' rs].
  - exists r. split; [now left | exact M].
  - change (matches r st st' \/ matches (alternation (r' :: rs)) st st') in M.
    destruct M as [M|M].
    + exists r. split; [now left | exact M].
    + destruct (IH ltac:(discriminate) M) as (r0 & I & M0).
      exists r0. split; [now right | exact M0].
Qed.

(** A match of a compiled table is a match of one of its rules, whose
    group is the last to close. *)
Lemma compile_rules_inv (rules : list (string * regex)) (st st' : mstate) :
  rules <> [] -> matches (_compile_rules rules) st st' ->
  exists name pattern st1,
    In (name, pattern) rules /\ matches pattern st st1
    /\ st' = close_named name st st1.
Proof.
  intros N M. unfold _compile_rules in M.
  apply alternation_inv in M; [|now destruct rules].
  destruct M as (r & I & M). apply in_map_iff in I.
  destruct I as ([name pattern] & <- & I). simpl in M.
  destruct M as (st1 & M & ->). now exists name, pattern, st1.
Qed.

(** What the lexers read off a match of a compiled table. *)
Lemma search_rule (rules : list (string * regex)) p s must pos m st1 :
  rules <> [] ->
  search (_compile_rules rules) p s must pos = Some (m, st1) ->
  exists name pattern st0 st_in,
    In (name, pattern) rules /\ marks st0 = [] /\ matches pattern st0 st_in
    /\ lastgroup m = Some name
    /\ m_text m = captured st0 st_in
    /\ m_groups m = (name, captured st0 st_in) :: marks st_in.
Proof.
  intros N H. apply search_sound in H.
  destruct H as (skipped & s0 & p0 & must0 & -> & M & -> & _).
  apply match_at_sound in M. destruct M as [M _].
  apply compile_rules_inv in M; [|assumption].
  destruct M as (name & pattern & st_in & I & M & ->).
  exists name, pattern, (MState p0 s0 [] None), st_in.
  repeat split; try assumption; reflexivity.
Qed.

(** The text a pattern reads is the text between the two states. *)
Lemma consumed_captured (w : string) (st st' : mstate) :
  consumed w st st' -> captured st st' = w.
Proof.
  intros (s' & E & ->). unfold captured; simpl. rewrite E.
  apply take_app_length.
Qed.

(** A table whose last rule is the catch-all [.] matches at every
    position before the end of the text. *)
Lemma catch_all_matches (rs : list regex) (name : string) (p : option ascii)
    (a : ascii) (s : string) :
  match_at (alternation (rs ++ [Named name (Chr CAny)])) p (String a s) false
  <> None.
Proof.
  unfold match_at. simpl andb.
  induction rs as [|r rs IH]; simpl.
  - discriminate.
  - destruct (rs ++ [Named name (Chr CAny)]) as [|r' rs'] eqn:E.
    + now destruct rs.
    + change (exec (r <|> alternation (r' :: rs'))%re
                (MState p (String a s) [] None) (fun st1 => Some st1) <> None).
      simpl exec.
      destruct (exec r (MState p (String a s) [] None) (fun st1 => Some st1));
        [discriminate | exact IH].
Qed.

Section ForEach.

Variable S : Type.
Variable body : S -> Match -> pass S.

Lemma for_each_raised (ms : list Match) :
  forall st e, raised (for_each body st ms) = Some e ->
               exists st' m ts, In m ms /\ body st' m = Raise ts e.
Proof.
  induction ms as [|m ms IH]; intros st e H; simpl in H; [discriminate|].
  destruct (body st m) as [ts st'|ts e'] eqn:B; simpl in H.
  - destruct (IH _ _ H) as (st0 & m0 & ts0 & I & B0).
    exists st0, m0, ts0. split; [now right | exact B0].
  - inversion H; subst. exists st, m, ts. split; [now left | exact B].
Qed.

Lemma for_each_token (ms : list Match) :
  forall st t, In t (tokens (for_each body st ms)) ->
               exists st' m, In m ms
                 /\ match body st' m with
                    | Next ts _ | Raise ts _ => In t ts
                    end.
Proof.
  induction ms as [|m ms IH]; intros st t H; simpl in H; [contradiction|].
  destruct (body st m) as [ts st'|ts e'] eqn:B; simpl in H.
  - apply in_app_or in H. destruct H as [H|H].
    + exists st, m. split; [now left | now rewrite B].
    + destruct (IH _ _ H) as (st0 & m0 & I & B0).
      exists st0, m0. split; [now right | exact B0].
  - exists st, m. split; [now left | now rewrite B].
Qed.

Lemma for_each_app (ms1 ms2 : list Match) :
  forall st st1,
    last_state body st ms1 = Some st1 ->
    for_each body st (ms1 ++ ms2)
    = MkOutput (tokens (for_each body st ms1)
                ++ tokens (for_each body st1 ms2))
               (raised (for_each body st1 ms2)).
Proof.
  induction ms1 as [|m ms1 IH]; intros st st1 H; simpl in H |- *.
  - inversion H; subst. now destruct (for_each body st1 ms2).
  - destruct (body st m) as [ts st'|ts e]; [|discriminate].
    rewrite (IH _ _ H). simpl. now rewrite List.app_assoc.
Qed.

Lemma for_each_count (n : nat) :
  (forall st m, match body st m with
                | Next ts _ | Raise ts _ => List.length ts <= n
                end) ->
  forall ms st,
    List.length (tokens (for_each body st ms)) <= n * List.length ms.
Proof.
  intros H ms. induction ms as [|m ms IH]; intros st; simpl; [lia|].
  specialize (H st m).
  destruct (body st m) as [ts st'|ts e]; simpl.
  - rewrite List.length_app. specialize (IH st'). lia.
  - lia.
Qed.

Lemma for_each_ends_well (ms : list Match) :
  (forall st m ts e, In m ms -> body st m = Raise ts e ->
                     exists msg ln, e = LiquidSyntaxError msg ln) ->
  forall st, ends_well (for_each body st ms).
Proof.
  intros H st. unfold ends_well.
  destruct (raised (for_each body st ms)) as [e|] eqn:R; [|now left].
  right. apply for_each_raised in R. destruct R as (st' & m & ts & I & B).
  destruct (H _ _ _ _ I B) as (msg & ln & ->). now exists msg, ln.
Qed.

Lemma tokens_concat_yields (ms : list Match) :
  forall st, tokens (for_each body st ms) = concat (yields body st ms).
Proof.
  induction ms as [|m ms IH]; intros st; simpl; [reflexivity|].
  destruct (body st m) as [ts st'|ts e]; simpl.
  - now rewrite IH.
  - now rewrite app_nil_r.
Qed.

Lemma yields_nth (ms : list Match) :
  forall st i chunk,
    nth_error (yields body st ms) i = Some chunk ->
    exists m, nth_error ms i = Some m.
Proof.
  induction ms as [|m ms IH]; intros st i chunk N; simpl in N.
  - now destruct i.
  - destruct i as [|i]; [now exists m|]. simpl.
    destruct (body st m) as [ts st'|ts e]; simpl in N.
    + eapply IH; eassumption.
    + now destruct i.
Qed.

End ForEach.

(** *** Matches of a compiled table in a scan *)

Lemma finditer_rule (rules : list (string * regex)) (source : string) :
  rules <> [] ->
  Forall (fun m =>
            exists name pattern st0 st_in,
              In (name, pattern) rules /\ marks st0 = []
              /\ matches pattern st0 st_in
              /\ lastgroup m = Some name
              /\ m_text m = captured st0 st_in
              /\ m_groups m = (name, captured st0 st_in) :: marks st_in)
         (finditer (_compile_rules rules) source).
Proof.
  intros N. eapply Scan_Forall; [|apply finditer_Scan].
  intros p s must pos m st1 E. eapply search_rule; eassumption.
Qed.

Lemma finditer_lastgroup (rules : list (string * regex)) (source : string)
    (m : Match) :
  rules <> [] -> In m (finditer (_compile_rules rules) source) ->
  exists name, In name (map fst rules) /\ lastgroup m = Some name.
Proof.
  intros N I. pose proof (finditer_rule rules source N) as F.
  rewrite Forall_forall in F.
  destruct (F _ I) as (name & pattern & _ & _ & Hin & _ & _ & L & _).
  exists name. split; [|exact L].
  apply in_map_iff. now exists (name, pattern).
Qed.

End RuleFacts.

(* ================================================================== *)
(** ** Groups that the lexers yield *)

Module GroupFacts.

Import Str Re Tok Lex Sem StrFacts ReFacts ScanFacts RuleFacts.

(** Open the hypotheses that a sequence of patterns matched. *)
Ltac open_match :=
  repeat match goal with
         | H : exists _, _ |- _ => destruct H
         | H : _ /\ _ |- _ => destruct H
         | H : consumed _ _ _ |- _ => destruct H as (? & ? & ?)
         | H : _ \/ _ |- _ => destruct H
         end;
  subst.

(** Go through the rules of a table; [E] names the rule that matched. *)
Ltac each_rule Hin M E :=
  simpl in Hin;
  repeat (destruct Hin as [Hin|Hin];
          [inversion Hin; subst; clear Hin; try discriminate E;
           simpl in M; open_match; cbn; discriminate|]);
  contradiction.

(** The groups whose text the template lexer yields always take part
    in the match of their rule, so none of them reads as [None]. *)
Lemma template_groups_participate (ts te ss se source : string) (m : Match) :
  In m (finditer (compile_liquid_rules ts te ss se) source) ->
  (lastgroup m = Some TOKEN_STATEMENT ->
   group m "stmt" <> None /\ group m "rss" <> None)
  /\ (lastgroup m = Some "TAG" ->
      group m "name" <> None /\ group m "expr" <> None
      /\ group m "rst" <> None)
  /\ (lastgroup m = Some "RAW" -> group m "raw" <> None).
Proof.
  intros I. unfold compile_liquid_rules in I.
  match type of I with
  | In _ (finditer (_compile_rules ?rs) _) =>
      pose proof (finditer_rule rs source ltac:(discriminate)) as F
  end.
  rewrite Forall_forall in F.
  destruct (F _ I) as (name & pattern & st0 & st_in & Hin & _ & M & L & _ & G).
  clear F I. unfold group. rewrite G, L. clear G L.
  simpl in Hin.
  destruct Hin as [Hin|[Hin|[Hin|[Hin|[]]]]]; inversion Hin; subst name pattern;
    clear Hin; simpl in M; open_match;
    (split; [|split]); intros E; try discriminate E; cbn;
    repeat split; discriminate.
Qed.

Lemma string_group_participates (rules : list (string * regex))
    (source : string) (m : Match) :
  In rules expression_tables ->
  In m (finditer (_compile_rules rules) source) ->
  lastgroup m = Some TOKEN_STRING ->
  group m "quoted" <> None.
Proof.
  intros T I E.
  assert (N : rules <> []).
  { simpl in T. repeat (destruct T as [<-|T]; [discriminate|]). contradiction. }
  pose proof (finditer_rule rules source N) as F.
  rewrite Forall_forall in F.
  destruct (F _ I) as (name & pattern & st0 & st_in & Hin & _ & M & L & _ & G).
  clear F I N. unfold group. rewrite G. rewrite L in E. clear G L.
  simpl in T.
  repeat (destruct T as [<-|T]; [each_rule Hin M E|]).
  contradiction.
Qed.

Lemma loop_groups_participate (source : string) (m : Match) :
  In m (finditer LoopLex.OUTPUT_RE source) ->
  (lastgroup m = Some TOKEN_IDENTINDEX ->
   group m LoopLex.GROUP_IDENTINDEX <> None)
  /\ (lastgroup m = Some TOKEN_IDENTSTRING ->
      group m LoopLex.GROUP_IDENTQUOTED <> None).
Proof.
  intros I.
  change LoopLex.OUTPUT_RE with (_compile_rules LoopLex.token_rules) in I.
  pose proof (finditer_rule LoopLex.token_rules source ltac:(discriminate))
    as F.
  rewrite Forall_forall in F.
  destruct (F _ I) as (name & pattern & st0 & st_in & Hin & _ & M & L & _ & G).
  clear F I. unfold group. rewrite G, L. clear G L.
  split; intros E; each_rule Hin M E.
Qed.

Lemma liquid_line_groups_participate (source : string) (m : Match) :
  In m (finditer LIQUID_EXPRESSION_RE source) ->
  group m "name" <> None /\ group m "expr" <> None.
Proof.
  intros I.
  assert (F : Forall (fun m => group m "name" <> None
                               /\ group m "expr" <> None)
                (finditer LIQUID_EXPRESSION_RE source)).
  { eapply Scan_Forall; [|apply finditer_Scan].
    intros p s must pos m' st1 E. apply search_sound in E.
    destruct E as (skipped & s0 & p0 & must0 & -> & M & -> & _).
    apply match_at_sound in M. destruct M as [M _].
    simpl in M. open_match; unfold group; cbn; split; discriminate. }
  rewrite Forall_forall in F. now apply F.
Qed.

End GroupFacts.

(* ================================================================== *)
(** ** Passes of the template lexer *)

Module TemplateFacts.

Import Str Re Tok Lex Sem StrFacts ReFacts ScanFacts RuleFacts.

(** One pass of [_tokenize_template]: the tokens carry the line count
    the pass started with, and the pass adds the newlines of the span. *)
Lemma template_pass_lines (st : tstate) (m : Match) :
  match _tokenize_template_body st m with
  | Next ts st' =>
      Forall (fun t => linenum t = line_count st) ts
      /\ line_count st' = line_count st + count_nl (m_text m)
  | Raise ts _ => ts = []
  end.
Proof.
  unfold _tokenize_template_body.
  destruct (lastgroup m) as [k|]; [|reflexivity].
  repeat match goal with
         | |- context [if ?c then _ else _] => destruct c
         end;
    try reflexivity; split; try reflexivity; repeat constructor.
Qed.

Lemma template_yields_lines (ms : list Match) :
  forall st i chunk t,
    nth_error (yields _tokenize_template_body st ms) i = Some chunk ->
    In t chunk ->
    linenum t = line_count st + newlines_before ms i.
Proof.
  induction ms as [|m ms IH]; intros st i chunk t N I; simpl in N.
  - now destruct i.
  - pose proof (template_pass_lines st m) as P.
    destruct (_tokenize_template_body st m) as [ts st'|ts e].
    + destruct P as [F L]. destruct i as [|i]; simpl in N.
      * inversion N; subst chunk. rewrite Forall_forall in F.
        rewrite (F _ I). unfold newlines_before. simpl. lia.
      * rewrite (IH _ _ _ _ N I), L.
        unfold newlines_before. simpl. lia.
    + subst ts. destruct i as [|[|i]]; simpl in N; try discriminate.
      inversion N; subst chunk. contradiction.
Qed.

Lemma tag_pass (st : tstate) (m : Match) :
  lastgroup m = Some "TAG" ->
  _tokenize_template_body st m
  = if negb (truthy (group_str m "expr")) then
      Next [MkToken (line_count st) TOKEN_TAG (group_str m "name")]
           (TState (line_count st + count_nl (m_text m))
              (truthy_opt (group m "rst")))
    else
      Next [MkToken (line_count st) TOKEN_TAG (group_str m "name");
            MkToken (line_count st) TOKEN_EXPRESSION (group_str m "expr")]
           (TState (line_count st + count_nl (m_text m))
              (truthy_opt (group m "rst"))).
Proof.
  intros K. unfold _tokenize_template_body. rewrite K. reflexivity.
Qed.

Lemma raw_pass (st : tstate) (m : Match) :
  lastgroup m = Some "RAW" ->
  _tokenize_template_body st m
  = Next [MkToken (line_count st) TOKEN_LITERAL (group_str m "raw")]
         (TState (line_count st + count_nl (m_text m)) (lstrip st)).
Proof.
  intros K. unfold _tokenize_template_body. rewrite K. reflexivity.
Qed.

Lemma literal_pass (st : tstate) (m : Match) :
  lastgroup m = Some TOKEN_LITERAL ->
  _tokenize_template_body st m
  = if negb (truthy (trimmed (lstrip st) m)) then
      Next [] (TState (line_count st + count_nl (m_text m)) (lstrip st))
    else if startswith "{{" (trimmed (lstrip st) m) then
      Raise [] (LiquidSyntaxError expected_end
                  (line_count st + count_nl (m_text m)))
    else if startswith "{%" (trimmed (lstrip st) m) then
      Raise [] (LiquidSyntaxError expected_end
                  (line_count st + count_nl (m_text m)))
    else
      Next [MkToken (line_count st) TOKEN_LITERAL (trimmed (lstrip st) m)]
           (TState (line_count st + count_nl (m_text m)) (lstrip st)).
Proof.
  intros K. unfold _tokenize_template_body. rewrite K. reflexivity.
Qed.



(** The lexer's output when the scan reaches the match [m] without an
    exception. *)
Lemma lexer_split
    (tag_start tag_end statement_start statement_end source : string)
    (ms1 ms2 : list Match) (st : tstate) :
  finditer (compile_liquid_rules tag_start tag_end
              statement_start statement_end) source
  = ms1 ++ ms2 ->
  last_state _tokenize_template_body (TState 1 false) ms1 = Some st ->
  get_lexer tag_start tag_end statement_start statement_end source
  = MkOutput
      (tokens (for_each _tokenize_template_body (TState 1 false) ms1)
       ++ tokens (for_each _tokenize_template_body st ms2))
      (raised (for_each _tokenize_template_body st ms2)).
Proof.
  intros F L. unfold get_lexer, _tokenize_template. rewrite F.
  now apply for_each_app.
Qed.

(** *** Trimming *)

Lemma rstrip_keeps_prefix (p s : string) :
  all_chars (fun a => negb (is_space a)) p = true ->
  exists t, rstrip (p ++ s) = (p ++ t)%string.
Proof.
  induction p as [|a p IH]; intros H; simpl in *.
  - now exists (rstrip s).
  - apply andb_prop in H. destruct H as [Ha Hp].
    destruct (IH Hp) as [t E]. rewrite E.
    apply negb_true_iff in Ha. rewrite Ha.
    destruct (p ++ t)%string eqn:Z.
    + destruct p; [|discriminate]. simpl in Z. subst t. now exists EmptyString.
    + exists t. now rewrite Z.
Qed.

Lemma lstrip_keeps_prefix (a : ascii) (s : string) :
  is_space a = false -> Str.lstrip (String a s) = String a s.
Proof. intros H. simpl. now rewrite H. Qed.

(** What the trimming of a literal leaves of a text that starts with an
    opening brace and one more character that is not a space. *)
Lemma trimmed_keeps_opening (b : ascii) (t : string) (l r : bool) :
  is_space b = false ->
  exists t',
    (if r then rstrip (if l then Str.lstrip (String "{" (String b t))
                       else String "{" (String b t))
     else (if l then Str.lstrip (String "{" (String b t))
           else String "{" (String b t)))
    = String "{" (String b t').
Proof.
  intros Hb.
  assert (L : (if l then Str.lstrip (String "{" (String b t))
               else String "{" (String b t)) = String "{" (String b t)).
  { destruct l; [|reflexivity]. now apply lstrip_keeps_prefix. }
  rewrite L. destruct r; [|now exists t].
  destruct (rstrip_keeps_prefix (String "{" (String b EmptyString)) t) as [t' E].
  - simpl. now rewrite Hb.
  - exists t'. exact E.
Qed.




Lemma opening_literal_pass (st : tstate) (m : Match) :
  lastgroup m = Some TOKEN_LITERAL ->
  startswith "{{" (m_text m) = true \/ startswith "{%" (m_text m) = true ->
  _tokenize_template_body st m
  = Raise [] (LiquidSyntaxError expected_end
                (line_count st + count_nl (m_text m))).
Proof.
  intros K H. unfold _tokenize_template_body. rewrite K.
  change ((TOKEN_LITERAL =? TOKEN_STATEMENT)%string) with false.
  change ((TOKEN_LITERAL =? "TAG")%string) with false.
  change ((TOKEN_LITERAL =? "RAW")%string) with false.
  change ((TOKEN_LITERAL =? TOKEN_LITERAL)%string) with true.
  cbv iota.
  destruct H as [H|H]; apply startswith_app in H; destruct H as [t E];
    rewrite E; simpl append.
  - destruct (trimmed_keeps_opening "{" t (lstrip st)
                (truthy_opt (group m "rstrip")) eq_refl) as [t' T].
    rewrite T. reflexivity.
  - destruct (trimmed_keeps_opening "%" t (lstrip st)
                (truthy_opt (group m "rstrip")) eq_refl) as [t' T].
    rewrite T. reflexivity.
Qed.

End TemplateFacts.

(* ================================================================== *)
(** ** Passes of the expression sub-lexers *)

Module ExprFacts.

Import Str Re Tok Lex Sem StrFacts ReFacts ScanFacts RuleFacts.

Lemma illegal_pass (operators : string -> option string)
    (keywords : list string) (ln : nat) (m : Match) :
  lastgroup m = Some TOKEN_ILLEGAL ->
  _tokenize_body operators keywords ln m
  = Raise [] (LiquidSyntaxError (unexpected (m_text m)) ln).
Proof.
  intros K. unfold _tokenize_body. rewrite K. reflexivity.
Qed.

(** What the errors of the boolean tokenizer say about the match that
    caused them. *)
Lemma boolean_raise_origin (operators : string -> option string)
    (source : string) (e : exception) :
  raised (tokenize_boolean_expression operators source) = Some e ->
  exists ln w,
    (e = LiquidSyntaxError (unknown_operator w) ln
     /\ operators w = None
     /\ all_chars (in_class operator_chars) w = true
     /\ 1 <= String.length w <= 2)
    \/ (e = LiquidSyntaxError (unexpected w) ln /\ String.length w = 1).
Proof.
  intros H. unfold tokenize_boolean_expression, _tokenize in H.
  apply for_each_raised in H. destruct H as (ln & m & ts & I & B).
  pose proof (@finditer_rule boolean_expression_rules source
                ltac:(discriminate)) as F.
  rewrite Forall_forall in F.
  destruct (F _ I) as (name & pattern & st0 & st_in & Hin & _ & M & L & T & _).
  unfold _tokenize_body in B. rewrite L in B. clear L F I.
  exists ln, (m_text m).
  destruct (mem (m_text m) boolean_expression_keywords);
  destruct (operators (m_text m)) eqn:O;
  simpl in Hin;
  repeat (destruct Hin as [Hin|Hin];
          [inversion Hin; subst name pattern; clear Hin; cbn in B; try discriminate |]);
  try contradiction.
  all: inversion B; subst ts e; rewrite T.
  all: match goal with
       | M : matches (Chr _) _ _ |- _ =>
           destruct M as (a & _ & C); rewrite (consumed_captured _ _ _ C);
           right; split; reflexivity
       | M : matches (Rep _ _ _ _) _ _ |- _ =>
           destruct M as (w & Hall & Hlo & Hhi & C);
           rewrite (consumed_captured _ _ _ C);
           left; repeat split; assumption
       end.
Qed.

(** Every token of [tokenize_loop_expression] is a keyword that
    carries its own text, or comes from a rule of the table under the
    rule's name, an identifier token never being a keyword. *)
Lemma loop_expression_token_kinds (operators : string -> option string)
    (source : string) (t : Token) :
  In t (tokens (tokenize_loop_expression operators source)) ->
  (In (kind t) loop_expression_keywords /\ value t = kind t)
  \/ (~ In (kind t) loop_expression_keywords
      /\ (kind t = TOKEN_IDENTIFIER ->
          ~ In (value t) loop_expression_keywords)).
Proof.
  intros H. unfold tokenize_loop_expression, _tokenize in H.
  apply for_each_token in H. destruct H as (ln & m & I & B).
  apply finditer_lastgroup in I; [|discriminate].
  destruct I as (name & Hn & L).
  unfold _tokenize_body in B. rewrite L in B. clear L.
  simpl in Hn.
  destruct (mem (m_text m) loop_expression_keywords) eqn:M;
    repeat (destruct Hn as [<-|Hn];
            [cbn in B; try contradiction; destruct B as [<-|[]]; cbn;
             first [ left; split; [exact (mem_true_In _ _ M) | reflexivity]
                   | right; split;
                     [ vm_compute; intuition discriminate
                     | first [ intros _; exact (mem_false_not_In _ _ M)
                             | intros; discriminate ] ] ]
            |]);
    contradiction.
Qed.

(** A source that begins with a tilde is rejected at once. *)
Lemma tilde_first (operators : string -> option string) (more : string) :
  tokenize_boolean_expression operators (String "~" more)
  = MkOutput [] (Some (LiquidSyntaxError (unexpected "~") 1)).
Proof.
  unfold tokenize_boolean_expression, _tokenize.
  destruct (finditer_first (_compile_rules boolean_expression_rules)
              (String "~" more)
              (MState (Some "~"%char) more
                 [(TOKEN_ILLEGAL,
                   take (String.length (String "~" more) - String.length more)
                     (String "~" more))]
                 (Some TOKEN_ILLEGAL))) as [ms ->].
  - reflexivity.
  - cbn [for_each]. rewrite illegal_pass by reflexivity.
    unfold mk_match. cbn [m_text rest tokens raised].
    replace (String.length (String "~" more) - String.length more) with 1
      by (cbn [String.length]; lia).
    reflexivity.
Qed.

End ExprFacts.

(* ================================================================== *)
(** ** Scans that cover the source *)

Module CoverFacts.

Import Str Re Tok Lex Sem StrFacts ReFacts ScanFacts RuleFacts.

Lemma search_here (re : regex) (p : option ascii) (s : string) (pos : nat)
    (m : Match) (st1 : mstate) :
  match_at re p s false <> None ->
  search re p s false pos = Some (m, st1) ->
  m_start m = pos
  /\ s = (m_text m ++ rest st1)%string
  /\ m_end m = pos + String.length (m_text m).
Proof.
  intros N H.
  assert (E : match_at re p s false = Some st1 /\ m = mk_match pos s st1).
  { destruct s as [|a s]; simpl in H;
      destruct (match_at re p _ false) as [st|] eqn:E;
      try (now elim N); now inversion H. }
  destruct E as [E ->]. apply match_at_sound in E. destruct E as [M _].
  apply matches_suffix in M. destruct M as [w Hw]. simpl in Hw.
  subst s. unfold mk_match; simpl. rewrite take_app_length.
  repeat split. rewrite length_app. lia.
Qed.

(** When the pattern cannot match the empty text and matches at every
    position before the end, the matches of a scan tile the text. *)
Lemma Scan_contiguous (re : regex) :
  nonempty re = true ->
  (forall p a s, match_at re p (String a s) false <> None) ->
  forall p s must pos ms,
    Scan re p s must pos ms -> must = false ->
    contiguous pos (pos + String.length s) ms /\ s = join_texts ms.
Proof.
  intros N C p s must pos ms S.
  induction S as [p s must pos E|p s must pos m st1 ms E S IH];
    intros ->; simpl.
  - destruct s as [|a s]; [simpl; split; [lia | reflexivity]|].
    exfalso. simpl in E.
    pose proof (C p a s) as Ca.
    destruct (match_at re p (String a s) false); [discriminate | now elim Ca].
  - pose proof (search_span _ _ _ _ _ _ _ E) as (S1 & S2 & S3 & _ & S5).
    specialize (S5 N).
    destruct s as [|a s]; [simpl in S3; lia|].
    destruct (@search_here re p (String a s) pos m st1 (C p a s) E)
      as (H1 & H2 & H3).
    assert (Z : (m_end m =? m_start m) = false) by (apply Nat.eqb_neq; lia).
    destruct (IH Z) as [IH1 IH2].
    rewrite S3 in IH1. repeat split; try assumption; try lia.
    rewrite H2 at 1. now rewrite <- IH2.
Qed.

Lemma finditer_contiguous (re : regex) (source : string) :
  nonempty re = true ->
  (forall p a s, match_at re p (String a s) false <> None) ->
  contiguous 0 (String.length source) (finditer re source)
  /\ source = join_texts (finditer re source).
Proof.
  intros N C.
  replace (String.length source) with (0 + String.length source) by lia.
  exact (@Scan_contiguous re N C _ _ _ _ _ (finditer_Scan re source) eq_refl).
Qed.

Lemma contiguous_advancing (ms : list Match) :
  forall from upto, contiguous from upto ms ->
                    advancing ms /\ from + List.length ms <= upto.
Proof.
  induction ms as [|m ms IH]; intros from upto C; simpl in C.
  - subst. split; [constructor | simpl; lia].
  - destruct C as (C1 & C2 & C3). destruct (IH _ _ C3) as [A L].
    split; [now constructor | simpl; lia].
Qed.

Lemma expression_grammar_tiles (re : regex) (source : string) :
  In re expression_grammars ->
  contiguous 0 (String.length source) (finditer re source)
  /\ source = join_texts (finditer re source).
Proof.
  intros I. apply finditer_contiguous.
  - simpl in I.
    repeat (destruct I as [<-|I]; [reflexivity|]). contradiction.
  - intros p a s. simpl in I.
    repeat (destruct I as [<-|I];
            [match goal with
             | |- match_at ?r _ _ _ <> None =>
                 let r' := eval cbv [_compile_rules LoopLex.OUTPUT_RE
                                     identifier_rules filtered_expression_rules
                                     assignment_expression_rules
                                     boolean_expression_rules
                                     loop_expression_rules
                                     include_expression_rules
                                     LoopLex.token_rules map fst snd] in r in
                 change r with r'
             end;
             match goal with
             | |- match_at (alternation ?l) _ _ _ <> None =>
                 let n := eval cbv in (List.length l - 1) in
                 change l with (firstn n l ++ [Named TOKEN_ILLEGAL (Chr CAny)])
             end;
             apply catch_all_matches|]).
    contradiction.
Qed.

(** *** The literal rule as the catch-all of the template lexer *)

Lemma rep_lazy_any (A : Type) (k : option ascii -> string -> option A) :
  (forall p, k p EmptyString <> None) ->
  forall s lo p, lo <= String.length s ->
                 rep_lazy CAny lo None p s k <> None.
Proof.
  intros K s. induction s as [|a s IH]; intros lo p L; simpl in *.
  - assert (lo = 0) as -> by lia. simpl.
    specialize (K p). now destruct (k p EmptyString).
  - destruct (if lo =? 0 then k p (String a s) else None); [discriminate|].
    apply IH. lia.
Qed.

Lemma literal_matches (tag_s stmt_s : string) (p : option ascii)
    (a : ascii) (s : string) :
  exec (Named TOKEN_LITERAL
          (plus_lazy dot
           <+> Ahead (Group (Group (Lit tag_s <|> Lit stmt_s)
                             <+> Named "rstrip" (opt (CChar "-")))
                      <|> Eos))%re)
    (MState p (String a s) [] None) (fun st1 => Some st1) <> None.
Proof.
  cbn [exec plus_lazy dot prev rest].
  apply rep_lazy_any; [|simpl; lia].
  intros p'. cbn [moved rest prev marks last at_eos].
  match goal with
  | |- match match ?g with _ => _ end with _ => _ end <> None => destruct g
  end; discriminate.
Qed.

Lemma exec_alt_right (A : Type) (a b : regex) (st : mstate)
    (k : mstate -> option A) :
  exec b st k <> None -> exec (a <|> b)%re st k <> None.
Proof.
  intros H. simpl. now destruct (exec a st k).
Qed.

Lemma template_rules_match (ts te ss se : string) (p : option ascii)
    (a : ascii) (s : string) :
  match_at (compile_liquid_rules ts te ss se) p (String a s) false <> None.
Proof.
  unfold match_at. cbn [andb].
  unfold compile_liquid_rules, _compile_rules.
  cbn [map fst snd alternation].
  do 3 apply exec_alt_right.
  apply literal_matches.
Qed.

Lemma template_rules_nonempty (ts te ss se : string) :
  ts <> EmptyString -> ss <> EmptyString ->
  nonempty (compile_liquid_rules ts te ss se) = true.
Proof.
  intros Ht Hs. destruct ts as [|a ts]; [congruence|].
  destruct ss as [|b ss]; [congruence|]. reflexivity.
Qed.

Lemma template_tiles (ts te ss se source : string) :
  ts <> EmptyString -> ss <> EmptyString ->
  contiguous 0 (String.length source)
    (finditer (compile_liquid_rules ts te ss se) source)
  /\ source = join_texts (finditer (compile_liquid_rules ts te ss se) source).
Proof.
  intros Ht Hs. apply finditer_contiguous.
  - now apply template_rules_nonempty.
  - apply template_rules_match.
Qed.

Lemma liquid_line_advances (source : string) :
  ordered 0 (String.length source) (finditer LIQUID_EXPRESSION_RE source)
  /\ advancing (finditer LIQUID_EXPRESSION_RE source)
  /\ List.length (finditer LIQUID_EXPRESSION_RE source)
     <= String.length source.
Proof.
  pose proof (finditer_Scan LIQUID_EXPRESSION_RE source) as S.
  pose proof (Scan_ordered _ _ _ _ _ _ S) as O. simpl in O.
  pose proof (@Scan_advancing LIQUID_EXPRESSION_RE _ _ _ _ _ eq_refl S) as A.
  repeat split; try assumption.
  pose proof (@ordered_advancing_count _ _ _ O A) as C. simpl in C. lia.
Qed.

(** The span of a match is as long as its text. *)
Lemma finditer_span_text (re : regex) (source : string) :
  Forall (fun m => m_end m = m_start m + String.length (m_text m))
         (finditer re source).
Proof.
  eapply Scan_Forall; [|apply finditer_Scan].
  intros p s must pos m st1 E. apply search_sound in E.
  destruct E as (skipped & s0 & p0 & must0 & -> & M & -> & _).
  unfold mk_match; simpl. rewrite take_length; lia.
Qed.

Lemma contiguous_prefix (ms : list Match) :
  forall from upto i m,
    contiguous from upto ms ->
    Forall (fun m => m_end m = m_start m + String.length (m_text m)) ms ->
    nth_error ms i = Some m ->
    m_start m = from + String.length (join_texts (firstn i ms)).
Proof.
  induction ms as [|m0 ms IH]; intros from upto i m C F N.
  - now destruct i.
  - simpl in C. destruct C as (C1 & C2 & C3).
    inversion F as [|? ? F1 F2]; subst.
    destruct i as [|i]; simpl in N |- *.
    + inversion N; subst. lia.
    + rewrite (IH _ _ _ _ C3 F2 N), length_app. lia.
Qed.

Lemma join_firstn_skipn (ms : list Match) (i : nat) :
  join_texts ms = (join_texts (firstn i ms) ++ join_texts (skipn i ms))%string.
Proof.
  revert i; induction ms as [|m ms IH]; intros [|i]; simpl; try reflexivity.
  now rewrite app_assoc, <- IH.
Qed.

Lemma count_nl_join_firstn (ms : list Match) (i : nat) :
  count_nl (join_texts (firstn i ms)) = newlines_before ms i.
Proof.
  unfold newlines_before.
  revert i; induction ms as [|m ms IH]; intros [|i]; simpl; try reflexivity.
  now rewrite count_nl_app, IH.
Qed.

End CoverFacts.

(* ================================================================== *)
(** ** How the generators end *)

Module EndFacts.

Import Str Re Tok Lex Sem StrFacts ReFacts ScanFacts RuleFacts CoverFacts.

Lemma tokenize_ends_well (operators : string -> option string)
    (source : string) (rules : list (string * regex))
    (keywords : list string) :
  rules <> [] ->
  ends_well (_tokenize operators source (_compile_rules rules) keywords)
  /\ List.length
       (tokens (_tokenize operators source (_compile_rules rules) keywords))
     <= List.length (finditer (_compile_rules rules) source).
Proof.
  intros N. unfold _tokenize. split.
  - apply for_each_ends_well. intros ln m ts e I B.
    apply finditer_lastgroup in I; [|exact N]. destruct I as (name & _ & L).
    unfold _tokenize_body in B. rewrite L in B.
    repeat match type of B with
           | (if ?c then _ else _) = _ => destruct c
           | (match ?x with _ => _ end) = _ => destruct x
           end;
      inversion B; eauto.
  - eapply Nat.le_trans; [apply (@for_each_count _ _ 1) | lia].
    intros ln m. unfold _tokenize_body.
    destruct (lastgroup m); [|simpl; lia].
    destruct (operators (m_text m));
      repeat match goal with
             | |- context [if ?c then _ else _] => destruct c
             end;
      simpl; lia.
Qed.

Lemma template_ends_well (ts te ss se source : string) :
  ends_well (get_lexer ts te ss se source)
  /\ List.length (tokens (get_lexer ts te ss se source))
     <= 2 * List.length (finditer (compile_liquid_rules ts te ss se) source).
Proof.
  unfold get_lexer, _tokenize_template. split.
  - apply for_each_ends_well. intros st m tks e I B.
    unfold compile_liquid_rules in I.
    apply finditer_lastgroup in I; [|discriminate].
    destruct I as (name & _ & L).
    unfold _tokenize_template_body in B. rewrite L in B.
    repeat match type of B with
           | (if ?c then _ else _) = _ => destruct c
           end;
      inversion B; eauto.
  - apply for_each_count.
    intros st m. unfold _tokenize_template_body.
    destruct (lastgroup m); [|simpl; lia].
    repeat match goal with
           | |- context [if ?c then _ else _] => destruct c
           end;
      simpl; lia.
Qed.

Lemma loop_ends_well (source : string) (line_num : nat) :
  ends_well (LoopLex.tokenize source line_num)
  /\ List.length (tokens (LoopLex.tokenize source line_num))
     <= List.length (finditer LoopLex.OUTPUT_RE source).
Proof.
  unfold LoopLex.tokenize. split.
  - apply for_each_ends_well. intros ln m ts e I B.
    change LoopLex.OUTPUT_RE with (_compile_rules LoopLex.token_rules) in I.
    apply finditer_lastgroup in I; [|discriminate].
    destruct I as (name & _ & L).
    unfold LoopLex.tokenize_body in B. rewrite L in B.
    repeat match type of B with
           | (if ?c then _ else _) = _ => destruct c
           end;
      inversion B; eauto.
  - eapply Nat.le_trans; [apply (@for_each_count _ _ 1) | lia].
    intros ln m. unfold LoopLex.tokenize_body.
    destruct (lastgroup m); [|simpl; lia].
    repeat match goal with
           | |- context [if ?c then _ else _] => destruct c
           end;
      simpl; lia.
Qed.

Lemma liquid_line_ends_well (source : string) :
  raised (tokenize_liquid_expression source) = None
  /\ List.length (tokens (tokenize_liquid_expression source))
     <= 2 * List.length (finditer LIQUID_EXPRESSION_RE source).
Proof.
  unfold tokenize_liquid_expression. split.
  - destruct (raised (for_each liquid_expression_body 1
                        (finditer LIQUID_EXPRESSION_RE source))) eqn:R;
      [|reflexivity].
    apply for_each_raised in R. destruct R as (st & m & ts & _ & B).
    unfold liquid_expression_body in B.
    destruct (truthy_opt (group m "expr")); discriminate.
  - apply for_each_count. intros st m. unfold liquid_expression_body.
    destruct (truthy_opt (group m "expr")); simpl; lia.
Qed.

Lemma expression_tokenizers_end_well (operators : string -> option string)
    (source : string) (tokenizer : string -> output) :
  In tokenizer (expression_tokenizers operators) ->
  ends_well (tokenizer source)
  /\ List.length (tokens (tokenizer source)) <= String.length source.
Proof.
  intros I. simpl in I.
  repeat (destruct I as [<-|I];
          [match goal with
           | |- ends_well (?f _ _) /\ _ => unfold f
           end;
           match goal with
           | |- ends_well (_tokenize _ _ (_compile_rules ?rs) ?kw) /\ _ =>
               destruct (tokenize_ends_well operators source rs kw
                           ltac:(discriminate)) as [E L];
               split; [exact E|];
               assert (G : In (_compile_rules rs) expression_grammars)
                 by (simpl; tauto);
               destruct (expression_grammar_tiles _ source G) as [C _];
               destruct (contiguous_advancing _ _ _ C) as [_ L'];
               simpl in L'; lia
           end|]).
  contradiction.
Qed.

End EndFacts.

(* ================================================================== *)
(** ** Token streams *)

Module StreamFacts.

Import Str Re Tok Lex Sem StrFacts ReFacts ScanFacts RuleFacts.

Section Streams.

Variable S : Type.
Variable body : S -> Match -> pass S.

(** Two loops whose bodies agree on the matches give the same output. *)
Lemma for_each_ext (body' : S -> Match -> pass S) (ms : list Match) :
  (forall st m, In m ms -> body st m = body' st m) ->
  forall st, for_each body st ms = for_each body' st ms.
Proof.
  induction ms as [|m ms IH]; intros H st; simpl; [reflexivity|].
  rewrite <- (H st m (or_introl eq_refl)).
  destruct (body st m) as [ts st'|ts e]; [|reflexivity].
  rewrite IH; [reflexivity|]. intros st0 m0 I. apply H. now right.
Qed.

(** A body that yields the tokens of [body] through [f] gives the
    output of [body] through [f]. *)
Lemma for_each_map (body' : S -> Match -> pass S) (f : Token -> Token)
    (ms : list Match) :
  (forall st m, In m ms ->
                body' st m
                = match body st m with
                  | Next ts st' => Next (map f ts) st'
                  | Raise ts e => Raise (map f ts) e
                  end) ->
  forall st,
    for_each body' st ms
    = MkOutput (map f (tokens (for_each body st ms)))
               (raised (for_each body st ms)).
Proof.
  induction ms as [|m ms IH]; intros H st; simpl; [reflexivity|].
  rewrite (H st m (or_introl eq_refl)).
  destruct (body st m) as [ts st'|ts e]; [|reflexivity].
  rewrite IH; [|intros st0 m0 I; apply H; now right].
  simpl. now rewrite map_app.
Qed.

(** A property of the tokens of every pass is a property of all the
    tokens. *)
Lemma for_each_Forall (P : Token -> Prop) (ms : list Match) :
  (forall st m, In m ms ->
                match body st m with
                | Next ts _ | Raise ts _ => Forall P ts
                end) ->
  forall st, Forall P (tokens (for_each body st ms)).
Proof.
  induction ms as [|m ms IH]; intros H st; simpl; [constructor|].
  pose proof (H st m (or_introl eq_refl)) as Hm.
  destruct (body st m) as [ts st'|ts e]; simpl; [|exact Hm].
  apply Forall_app. split; [exact Hm|].
  apply IH. intros st0 m0 I. apply H. now right.
Qed.

End Streams.

Lemma closed_nil : closed [].
Proof. intros b us H. apply H. Qed.

Lemma closed_one (t : Token) :
  kind t <> TOKEN_EXPRESSION -> closed [t].
Proof.
  intros N b us H. simpl. split; [intros E; now elim N | apply H].
Qed.

Lemma closed_tag_expression (ln : nat) (name expr : string) :
  closed [MkToken ln TOKEN_TAG name; MkToken ln TOKEN_EXPRESSION expr].
Proof.
  intros b us H. simpl. split; [discriminate|].
  split; [|apply H].
  intros _. eexists. repeat split.
Qed.

Lemma for_each_paired (S : Type) (body : S -> Match -> pass S)
    (ms : list Match) :
  (forall st m, In m ms ->
                match body st m with
                | Next ts _ | Raise ts _ => closed ts
                end) ->
  forall st b, paired b (tokens (for_each body st ms)).
Proof.
  induction ms as [|m ms IH]; intros H st b; simpl; [exact I|].
  pose proof (H st m (or_introl eq_refl)) as Hm.
  destruct (body st m) as [ts st'|ts e]; simpl.
  - apply Hm. intros b'. apply IH. intros st0 m0 I0. apply H. now right.
  - rewrite <- (app_nil_r ts). apply Hm. intros b'. exact I.
Qed.

Lemma nondecreasing_app (ts us : list Token) :
  forall lo hi,
    nondecreasing lo ts -> Forall (fun t => linenum t <= hi) ts ->
    lo <= hi -> nondecreasing hi us ->
    nondecreasing lo (ts ++ us).
Proof.
  induction ts as [|t ts IH]; intros lo hi N F L U; simpl in *.
  - destruct us as [|u us]; [exact I|]. simpl in *. destruct U. split; [lia|assumption].
  - destruct N as [N1 N2]. inversion F as [|? ? F1 F2]; subst.
    split; [exact N1|]. now apply (IH _ hi).
Qed.

Lemma nondecreasing_lower (ts : list Token) :
  forall lo lo', lo' <= lo -> nondecreasing lo ts -> nondecreasing lo' ts.
Proof.
  destruct ts as [|t ts]; intros lo lo' L N; simpl in *; [exact I|].
  destruct N. split; [lia | assumption].
Qed.

Lemma nondecreasing_same (ln : nat) (ts : list Token) :
  Forall (fun t => linenum t = ln) ts -> nondecreasing ln ts.
Proof.
  induction ts as [|t ts IH]; intros F; simpl; [exact I|].
  inversion F as [|? ? F1 F2]; subst. split; [lia|].
  now apply IH.
Qed.

(** A loop whose passes each yield tokens of one line, between the
    line the pass starts with and the line it ends with, yields lines
    that never go down; and it raises at a line that no token exceeds. *)
Lemma for_each_lines (S : Type) (body : S -> Match -> pass S)
    (line : S -> nat) (ms : list Match) :
  (forall st m,
      match body st m with
      | Next ts st' =>
          line st <= line st'
          /\ exists ln, line st <= ln <= line st'
                        /\ Forall (fun t => linenum t = ln) ts
      | Raise ts e =>
          ts = []
          /\ forall msg ln, e = LiquidSyntaxError msg ln -> line st <= ln
      end) ->
  forall st,
    nondecreasing (line st) (tokens (for_each body st ms))
    /\ forall msg ln,
         raised (for_each body st ms) = Some (LiquidSyntaxError msg ln) ->
         line st <= ln
         /\ Forall (fun t => linenum t <= ln) (tokens (for_each body st ms)).
Proof.
  intros H. induction ms as [|m ms IH]; intros st; simpl.
  - split; [exact I | discriminate].
  - specialize (H st m).
    destruct (body st m) as [ts st'|ts e]; simpl.
    + destruct H as (L & ln & B & F).
      destruct (IH st') as [N R].
      split.
      * apply (nondecreasing_app ts _ (line st) (line st')).
        -- apply (nondecreasing_lower ts ln); [lia|].
           now apply nondecreasing_same.
        -- eapply Forall_impl; [|exact F]. simpl. intros t E. lia.
        -- exact L.
        -- exact N.
      * intros msg ln' E. destruct (R msg ln' E) as [R1 R2].
        split; [lia|]. apply Forall_app. split; [|exact R2].
        eapply Forall_impl; [|exact F]. simpl. intros t Et. lia.
    + destruct H as [-> H]. split; [exact I|].
      intros msg ln E. inversion E; subst.
      split; [now apply (H msg)|constructor].
Qed.

(** Where every pass adds the newlines of its match to the line it
    keeps, and yields its tokens at that line plus [off] of the match,
    the tokens of pass [i] carry the start line plus the newlines of
    the matches before, plus [off]. *)
Lemma yields_lines (S : Type) (body : S -> Match -> pass S)
    (line : S -> nat) (off : Match -> nat) (ms : list Match) :
  (forall st m, In m ms ->
      match body st m with
      | Next ts st' =>
          Forall (fun t => linenum t = line st + off m) ts
          /\ line st' = line st + count_nl (m_text m)
      | Raise ts _ => ts = []
      end) ->
  forall st i chunk t,
    nth_error (yields body st ms) i = Some chunk ->
    In t chunk ->
    exists m, nth_error ms i = Some m
              /\ linenum t = line st + newlines_before ms i + off m.
Proof.
  induction ms as [|m ms IH]; intros H st i chunk t N I; simpl in N.
  - now destruct i.
  - pose proof (H st m (or_introl eq_refl)) as P.
    assert (H' : forall st0 m0, In m0 ms ->
                   match body st0 m0 with
                   | Next ts st' =>
                       Forall (fun t => linenum t = line st0 + off m0) ts
                       /\ line st' = line st0 + count_nl (m_text m0)
                   | Raise ts _ => ts = []
                   end).
    { intros st0 m0 I0. apply H. now right. }
    destruct (body st m) as [ts st'|ts e].
    + destruct P as [F L]. destruct i as [|i]; simpl in N.
      * inversion N; subst chunk. rewrite Forall_forall in F.
        exists m. split; [reflexivity|].
        rewrite (F _ I). unfold newlines_before. simpl. lia.
      * destruct (IH H' _ _ _ _ N I) as (m0 & N0 & E0).
        exists m0. split; [exact N0|].
        rewrite E0, L. unfold newlines_before. simpl. lia.
    + subst ts. destruct i as [|[|i]]; simpl in N; try discriminate.
      inversion N; subst chunk. contradiction.
Qed.

End StreamFacts.

(* ================================================================== *)
(** ** Text of the groups *)

Module TextFacts.

Import Str Re Tok Lex Sem StrFacts ReFacts ScanFacts RuleFacts.

(** Open the hypotheses that a sequence of patterns matched, keeping
    for every piece of text read the fact that it is the text between
    the two states. *)
Ltac open_text :=
  repeat match goal with
         | H : exists _, _ |- _ => destruct H
         | H : _ /\ _ |- _ => destruct H
         | H : _ \/ _ |- _ => destruct H
         | H : consumed ?w ?a ?b |- _ =>
             pose proof (consumed_captured w a b H);
             destruct H as (? & ? & ?)
         end;
  subst.

(** What the groups of a match of the liquid-line pattern hold: a name
    of one or more word characters, and an expression without a
    newline. *)
Lemma liquid_line_groups (source : string) (m : Match) :
  In m (finditer LIQUID_EXPRESSION_RE source) ->
  exists name expr,
    group m "name" = Some name /\ group m "expr" = Some expr
    /\ name <> EmptyString
    /\ all_chars is_word name = true
    /\ all_chars (fun a => negb (Ascii.eqb a nl)) expr = true.
Proof.
  intros I.
  assert (F : Forall (fun m =>
                exists name expr,
                  group m "name" = Some name /\ group m "expr" = Some expr
                  /\ name <> EmptyString
                  /\ all_chars is_word name = true
                  /\ all_chars (fun a => negb (Ascii.eqb a nl)) expr = true)
                (finditer LIQUID_EXPRESSION_RE source)).
  { eapply Scan_Forall; [|apply finditer_Scan].
    intros p s must pos m' st1 E. apply search_sound in E.
    destruct E as (skipped & s0 & p0 & must0 & -> & M & -> & _).
    apply match_at_sound in M. destruct M as [M _].
    simpl in M. open_text; unfold group; cbn -[captured] in *;
      (eexists; eexists; split; [reflexivity|]; split; [reflexivity|]);
      repeat match goal with
             | H : captured _ _ = _ |- _ => rewrite H; clear H
             end.
    all: repeat split; try assumption.
    all: match goal with
         | H : 1 <= String.length ?w |- ?w <> EmptyString =>
             intros ->; simpl in H; lia
         end. }
  rewrite Forall_forall in F. now apply F.
Qed.

Lemma all_chars_app (f : ascii -> bool) (u v : string) :
  all_chars f (u ++ v) = all_chars f u && all_chars f v.
Proof.
  induction u as [|a u IH]; simpl; [reflexivity|].
  now rewrite IH, Bool.andb_assoc.
Qed.

Lemma class_within_spec (c : charset) (f : ascii -> bool) (a : ascii) :
  class_within c f = true -> in_class c a = true -> f a = true.
Proof.
  unfold class_within. intros W I.
  rewrite forallb_forall in W.
  specialize (W (nat_of_ascii a)).
  rewrite ascii_nat_embedding, I in W. apply W.
  apply in_seq. pose proof (nat_ascii_bounded a). lia.
Qed.

Lemma captured_suffix (w : string) (st st' : mstate) :
  rest st = (w ++ rest st')%string -> captured st st' = w.
Proof.
  intros E. unfold captured. rewrite E. apply take_app_length.
Qed.

(** The text between the two states of a match of a pattern that reads
    only characters satisfying [f] is made of such characters. *)
Lemma matches_reads_only (f : ascii -> bool) (r : regex) :
  forall st st', matches r st st' ->
    exists w, rest st = (w ++ rest st')%string
              /\ (reads_only f r = true -> all_chars f w = true).
Proof.
  assert (C : forall w st st', consumed w st st' ->
                rest st = (w ++ rest st')%string).
  { intros w st st' (s' & E & ->). exact E. }
  induction r as [ | s | c | c lo hi g | a IHa b IHb | a IHa b IHb
                 | n r IH | r IH | n | r IH | r IH | | ];
    intros st st' M; simpl in M.
  - subst. exists EmptyString. split; reflexivity.
  - exists s. split; [now apply C | intros R; exact R].
  - destruct M as (a & I & M). exists (String a EmptyString).
    split; [now apply C|]. simpl. intros R.
    now rewrite (class_within_spec c f a R I).
  - destruct M as (w & A & _ & _ & M). exists w.
    split; [now apply C|]. simpl. intros R.
    clear M. induction w as [|a w IHw]; [reflexivity|].
    simpl in A |- *. apply andb_prop in A. destruct A as [A1 A2].
    now rewrite (class_within_spec c f a R A1), IHw.
  - destruct M as (st1 & Ma & Mb).
    destruct (IHa _ _ Ma) as (u & Eu & Fu).
    destruct (IHb _ _ Mb) as (v & Ev & Fv).
    exists (u ++ v)%string. split; [now rewrite Eu, Ev, app_assoc|].
    simpl. intros R. apply andb_prop in R. destruct R as [Ra Rb].
    now rewrite all_chars_app, Fu, Fv.
  - destruct M as [M|M].
    + destruct (IHa _ _ M) as (u & Eu & Fu). exists u. split; [exact Eu|].
      simpl. intros R. apply andb_prop in R. now apply Fu.
    + destruct (IHb _ _ M) as (u & Eu & Fu). exists u. split; [exact Eu|].
      simpl. intros R. apply andb_prop in R. now apply Fu.
  - destruct M as (st1 & M & ->). unfold close_named; simpl. now apply IH.
  - destruct M as (st1 & M & ->). unfold close_group; simpl. now apply IH.
  - destruct M as (w & _ & M). exists w.
    split; [now apply C | discriminate].
  - destruct M as (st1 & M & ->). exists EmptyString. split; reflexivity.
  - destruct M as [-> _]. exists EmptyString. split; reflexivity.
  - destruct M as [-> _]. exists EmptyString. split; reflexivity.
  - destruct M as [-> _]. exists EmptyString. split; reflexivity.
Qed.

Lemma captured_reads_only (f : ascii -> bool) (r : regex) (st st' : mstate) :
  reads_only f r = true -> matches r st st' ->
  all_chars f (captured st st') = true.
Proof.
  intros R M. destruct (matches_reads_only f r st st' M) as (w & E & F).
  rewrite (captured_suffix w st st' E). now apply F.
Qed.

Lemma count_nl_none (s : string) :
  all_chars (fun a => negb (Ascii.eqb a nl)) s = true -> count_nl s = 0.
Proof.
  induction s as [|a s IH]; simpl; [reflexivity|].
  intros H. apply andb_prop in H. destruct H as [Ha Hs].
  apply negb_true_iff in Ha. rewrite Ha. now rewrite IH.
Qed.

End TextFacts.

(* ================================================================== *)
(** ** Lines of the loop tokenizers *)

Module LineFacts.

Import Str Re Tok Lex Sem StrFacts ReFacts ScanFacts RuleFacts.
Import CoverFacts StreamFacts TextFacts.

(** The text of a match of a rule that reads no newline has none. *)
Lemma rule_no_newline (pattern : regex) (st0 st_in : mstate) (m : Match) :
  reads_only not_newline pattern = true ->
  matches pattern st0 st_in ->
  m_text m = captured st0 st_in ->
  count_nl (m_text m) = 0.
Proof.
  intros R M T. rewrite T. apply count_nl_none.
  exact (captured_reads_only not_newline pattern st0 st_in R M).
Qed.

(** A pass of the loop sub-lexer adds the newlines of its match to the
    line number, and yields its token at the line number so reached. *)
Lemma loop_pass_lines (source : string) (m : Match) :
  In m (finditer LoopLex.OUTPUT_RE source) ->
  forall ln,
    match LoopLex.tokenize_body ln m with
    | Next ts ln' =>
        Forall (fun t => linenum t = ln + count_nl (m_text m)) ts
        /\ ln' = ln + count_nl (m_text m)
    | Raise ts _ => ts = []
    end.
Proof.
  intros I ln.
  change LoopLex.OUTPUT_RE with (_compile_rules LoopLex.token_rules) in I.
  pose proof (finditer_rule LoopLex.token_rules source ltac:(discriminate))
    as F.
  rewrite Forall_forall in F.
  destruct (F _ I) as (name & pattern & st0 & st_in & Hin & _ & M & L & T & _).
  clear F I. unfold LoopLex.tokenize_body. rewrite L.
  simpl in Hin.
  repeat (destruct Hin as [Hin|Hin];
          [inversion Hin; subst name pattern; clear Hin|]);
    try contradiction;
    try (cbn -[count_nl mem];
         repeat match goal with
                | |- context [if ?c then _ else _] => destruct c
                end;
         first [ reflexivity
               | split; [repeat constructor | reflexivity] ]).
  - (* a newline *)
    cbn -[count_nl mem]. split; [constructor|].
    simpl in M. open_text.
    match goal with H : captured _ _ = _ |- _ => rewrite T, H end.
    match goal with H : (_ =? _)%char = true |- _ =>
      apply Ascii.eqb_eq in H; subst end.
    reflexivity.
  - (* blanks *)
    cbn -[count_nl mem]. split; [constructor|].
    rewrite (fun R => rule_no_newline _ st0 st_in m R M T) by reflexivity.
    lia.
Qed.

(** A pass of [_tokenize] over the table of loop expressions adds the
    newlines of its match to the line number, after yielding its token
    at the line number it started with. *)
Lemma loop_expression_pass_lines (operators : string -> option string)
    (source : string) (m : Match) :
  In m (finditer (_compile_rules loop_expression_rules) source) ->
  forall ln,
    match _tokenize_body operators loop_expression_keywords ln m with
    | Next ts ln' =>
        Forall (fun t => linenum t = ln + 0) ts
        /\ ln' = ln + count_nl (m_text m)
    | Raise ts _ => ts = []
    end.
Proof.
  intros I ln.
  pose proof (finditer_rule loop_expression_rules source ltac:(discriminate))
    as F.
  rewrite Forall_forall in F.
  destruct (F _ I) as (name & pattern & st0 & st_in & Hin & _ & M & L & T & _).
  clear F I. unfold _tokenize_body. rewrite L.
  simpl in Hin.
  repeat (destruct Hin as [Hin|Hin];
          [inversion Hin; subst name pattern; clear Hin|]);
    try contradiction;
    try (rewrite (fun R => rule_no_newline _ st0 st_in m R M T)
           by reflexivity;
         cbn -[mem];
         repeat match goal with
                | |- context [if ?c then _ else _] => destruct c
                end;
         first [ split; [constructor; [simpl; lia | constructor] | lia]
               | split; [constructor | lia] ]).
  - (* a newline *)
    cbn -[count_nl mem]. split; [constructor|].
    simpl in M. open_text.
    match goal with H : captured _ _ = _ |- _ => rewrite T, H end.
    match goal with H : (_ =? _)%char = true |- _ =>
      apply Ascii.eqb_eq in H; subst end.
    reflexivity.
  - (* the catch-all *)
    reflexivity.
Qed.

Lemma app_empty_r (s : string) : (s ++ EmptyString)%string = s.
Proof. induction s as [|a s IH]; simpl; [reflexivity | now rewrite IH]. Qed.

Lemma join_firstn_succ (ms : list Match) :
  forall i m, nth_error ms i = Some m ->
    join_texts (firstn (S i) ms)
    = (join_texts (firstn i ms) ++ m_text m)%string.
Proof.
  induction ms as [|m0 ms IH]; intros [|i] m N; simpl in N; try discriminate.
  - inversion N; subst. simpl. apply app_empty_r.
  - change (firstn (S (S i)) (m0 :: ms)) with (m0 :: firstn (S i) ms).
    change (firstn (S i) (m0 :: ms)) with (m0 :: firstn i ms).
    cbn [join_texts]. rewrite (IH _ _ N). now rewrite app_assoc.
Qed.

Lemma remove_blank_app (u v : string) :
  remove_blank (u ++ v) = (remove_blank u ++ remove_blank v)%string.
Proof.
  induction u as [|a u IH]; simpl; [reflexivity|].
  destruct (is_blank a); simpl; now rewrite IH.
Qed.

Lemma remove_blank_none (s : string) :
  all_chars not_blank s = true -> remove_blank s = s.
Proof.
  induction s as [|a s IH]; simpl; [reflexivity|].
  intros H. apply andb_prop in H. destruct H as [Ha Hs].
  unfold not_blank in Ha. apply negb_true_iff in Ha.
  now rewrite Ha, IH.
Qed.

Lemma remove_blank_all (s : string) :
  all_chars is_blank s = true -> remove_blank s = EmptyString.
Proof.
  induction s as [|a s IH]; simpl; [reflexivity|].
  intros H. apply andb_prop in H. destruct H as [Ha Hs].
  now rewrite Ha, IH.
Qed.

Lemma join_values_app (ts us : list Token) :
  join_values (ts ++ us) = (join_values ts ++ join_values us)%string.
Proof.
  induction ts as [|t ts IH]; simpl; [reflexivity|].
  now rewrite IH, app_assoc.
Qed.

(** What a pass of [_tokenize] over the table of loop expressions
    does with its match: it yields the text of the match but for the
    blanks, or it raises for the one character of the match. *)
Lemma loop_expression_pass (operators : string -> option string)
    (source : string) (m : Match) :
  In m (finditer (_compile_rules loop_expression_rules) source) ->
  forall ln,
    match _tokenize_body operators loop_expression_keywords ln m with
    | Next ts ln' =>
        ln' = ln + count_nl (m_text m)
        /\ join_values ts = remove_blank (m_text m)
    | Raise ts e =>
        ts = []
        /\ exists a, m_text m = String a EmptyString
                     /\ e = LiquidSyntaxError (unexpected (m_text m)) ln
    end.
Proof.
  intros I ln.
  pose proof (loop_expression_pass_lines operators source m I ln) as P.
  pose proof (finditer_rule loop_expression_rules source ltac:(discriminate))
    as F.
  rewrite Forall_forall in F.
  destruct (F _ I) as (name & pattern & st0 & st_in & Hin & _ & M & L & T & _).
  clear F I. revert P. unfold _tokenize_body. rewrite L.
  simpl in Hin.
  repeat (destruct Hin as [Hin|Hin];
          [inversion Hin; subst name pattern; clear Hin|]);
    try contradiction;
    try (assert (B : remove_blank (m_text m) = m_text m)
           by (rewrite T; apply remove_blank_none;
               eapply (captured_reads_only not_blank);
               [|exact M]; reflexivity);
         cbn -[mem count_nl remove_blank];
         repeat match goal with
                | |- context [if ?c then _ else _] => destruct c
                end;
         intros [_ P]; (split; [exact P|]);
         cbn [join_values value]; rewrite app_empty_r; now rewrite B);
    try (assert (B : remove_blank (m_text m) = EmptyString)
           by (rewrite T; apply remove_blank_all;
               eapply (captured_reads_only is_blank);
               [|exact M]; reflexivity);
         cbn -[mem count_nl remove_blank];
         intros [_ P]; (split; [exact P|]); now rewrite B).
  (* the catch-all *)
  cbn -[mem]. intros _. split; [reflexivity|].
  simpl in M. open_text.
  match goal with H : captured _ _ = _ |- _ => rewrite T, H end.
  eexists. split; reflexivity.
Qed.

Lemma join_texts_app (ms1 ms2 : list Match) :
  join_texts (ms1 ++ ms2) = (join_texts ms1 ++ join_texts ms2)%string.
Proof.
  induction ms1 as [|m ms1 IH]; simpl; [reflexivity|].
  now rewrite IH, app_assoc.
Qed.

(** The run of [_tokenize] over matches of the table of loop
    expressions: it reads a prefix of the matches, yielding their texts
    but for the blanks, and stops at the end or at the first match of
    the catch-all, for whose character it raises. *)
Lemma loop_expression_run (operators : string -> option string)
    (source : string) (ms : list Match) :
  (forall m, In m ms ->
             In m (finditer (_compile_rules loop_expression_rules) source)) ->
  forall ln,
    let o := for_each (_tokenize_body operators loop_expression_keywords)
               ln ms in
    exists ms1 ms2,
      ms = ms1 ++ ms2
      /\ join_values (tokens o) = remove_blank (join_texts ms1)
      /\ match raised o with
         | None => ms2 = []
         | Some e =>
             exists m ms3 a,
               ms2 = m :: ms3 /\ m_text m = String a EmptyString
               /\ e = LiquidSyntaxError (unexpected (String a EmptyString))
                        (ln + count_nl (join_texts ms1))
         end.
Proof.
  induction ms as [|m ms IH]; intros H ln; simpl.
  - exists [], []. repeat split.
  - pose proof (loop_expression_pass operators source m
                  (H m (or_introl eq_refl)) ln) as P.
    destruct (_tokenize_body operators loop_expression_keywords ln m)
      as [ts ln'|ts e].
    + destruct P as [P1 P2].
      destruct (IH (fun m0 I0 => H m0 (or_intror I0)) ln')
        as (ms1 & ms2 & E & J & R).
      exists (m :: ms1), ms2. split; [simpl; now rewrite E|].
      split.
      * cbn [tokens join_texts].
        now rewrite join_values_app, remove_blank_app, P2, J.
      * cbn [raised join_texts].
        destruct (raised (for_each _ ln' ms)) as [e|]; [|exact R].
        destruct R as (m0 & ms3 & a & R1 & R2 & R3).
        exists m0, ms3, a. repeat split; try assumption.
        rewrite R3, P1, count_nl_app. f_equal. lia.
    + destruct P as (-> & a & Ta & ->).
      exists [], (m :: ms). repeat split.
      exists m, ms, a. rewrite Ta. repeat split.
      simpl. now rewrite Nat.add_0_r.
Qed.

End LineFacts.

(* ================================================================== *)
(** ** Plain text in the template lexer *)

Module PlainFacts.

Import Str Re Tok Lex Sem StrFacts ReFacts ScanFacts RuleFacts.
Import CoverFacts StreamFacts TextFacts LineFacts.

(** A property of the matches found in texts made of characters that
    satisfy [f] holds of every match of a scan of such a text. *)
Lemma Scan_Forall_chars (re : regex) (f : ascii -> bool)
    (P : Match -> Prop) :
  (forall p s must pos m st1,
      all_chars f s = true ->
      search re p s must pos = Some (m, st1) -> P m) ->
  forall p s must pos ms,
    Scan re p s must pos ms -> all_chars f s = true -> Forall P ms.
Proof.
  intros HP p s must pos ms S.
  induction S as [|p s must pos m st1 ms E S IH]; intros A; constructor.
  - eapply HP; eassumption.
  - apply IH. apply search_sound in E.
    destruct E as (skipped & s0 & p0 & must0 & -> & M & _).
    apply match_at_sound in M. destruct M as [M _].
    apply matches_suffix in M. destruct M as [w E]. simpl in E.
    rewrite E, !all_chars_app in A.
    apply andb_prop in A. destruct A as [_ A].
    apply andb_prop in A. now destruct A.
Qed.

(** [search_rule], with the place of the match in the text. *)
Lemma search_rule_within (rules : list (string * regex)) p s must pos m st1 :
  rules <> [] ->
  search (_compile_rules rules) p s must pos = Some (m, st1) ->
  exists name pattern st0 st_in skipped,
    In (name, pattern) rules /\ marks st0 = [] /\ matches pattern st0 st_in
    /\ lastgroup m = Some name
    /\ m_text m = captured st0 st_in
    /\ m_groups m = (name, captured st0 st_in) :: marks st_in
    /\ s = (skipped ++ rest st0)%string.
Proof.
  intros N H. apply search_sound in H.
  destruct H as (skipped & s0 & p0 & must0 & -> & M & -> & _).
  apply match_at_sound in M. destruct M as [M _].
  apply compile_rules_inv in M; [|assumption].
  destruct M as (name & pattern & st_in & I & M & ->).
  exists name, pattern, (MState p0 s0 [] None), st_in, skipped.
  repeat split; try assumption; reflexivity.
Qed.

Lemma plain_not_opening (ts ss : string) (w s : string) :
  all_chars (plain ts ss) s = true ->
  (s = (ts ++ w)%string \/ s = (ss ++ w)%string) ->
  ts <> EmptyString -> ss <> EmptyString -> False.
Proof.
  intros A [E|E] Ht Hs; subst s.
  - destruct ts as [|b ts]; [congruence|]. simpl in A.
    unfold plain in A at 1. simpl in A. rewrite Ascii.eqb_refl in A.
    discriminate.
  - destruct ss as [|b ss]; [congruence|]. simpl in A.
    unfold plain in A at 1. simpl in A. rewrite Ascii.eqb_refl in A.
    rewrite Bool.orb_true_r in A. discriminate.
Qed.

(** In plain text the template rules only find literals, none of which
    stands before an opening delimiter. *)
Lemma plain_match (ts te ss se : string) p s must pos m st1 :
  ts <> EmptyString -> ss <> EmptyString ->
  all_chars (plain ts ss) s = true ->
  search (compile_liquid_rules ts te ss se) p s must pos = Some (m, st1) ->
  lastgroup m = Some TOKEN_LITERAL
  /\ group m "rstrip" = None
  /\ all_chars (plain ts ss) (m_text m) = true.
Proof.
  intros Ht Hs A H. unfold compile_liquid_rules in H.
  apply search_rule_within in H; [|discriminate].
  destruct H as (name & pattern & st0 & st_in & skipped & Hin & K & M & L
                 & T & G & ->).
  rewrite all_chars_app in A. apply andb_prop in A. destruct A as [_ A].
  unfold group. rewrite L, T, G. clear L T G.
  simpl in Hin.
  destruct Hin as [Hin|[Hin|[Hin|[Hin|[]]]]]; inversion Hin; subst name pattern;
    clear Hin; simpl in M.
  - exfalso. destruct M as (x1 & (w & E & _) & _).
    exact (plain_not_opening ts ss w _ A (or_introl E) Ht Hs).
  - exfalso. destruct M as (x1 & (w & E & _) & _).
    exact (plain_not_opening ts ss w _ A (or_intror E) Ht Hs).
  - exfalso. destruct M as (x1 & (w & E & _) & _).
    exact (plain_not_opening ts ss w _ A (or_introl E) Ht Hs).
  - destruct M as (x1 & (w & _ & _ & _ & C) & x2 & Ha & ->).
    destruct C as (s' & E & ->). simpl in Ha.
    rewrite E, all_chars_app in A. apply andb_prop in A.
    destruct A as [Aw As'].
    destruct Ha as [(x3 & (x4 & (x5 & C & _) & _) & _)|[-> _]].
    + exfalso. destruct C as [(v & Ev & _)|(v & Ev & _)]; simpl in Ev.
      * exact (plain_not_opening ts ss v _ As' (or_introl Ev) Ht Hs).
      * exact (plain_not_opening ts ss v _ As' (or_intror Ev) Ht Hs).
    + simpl. rewrite K. split; [reflexivity|]. split; [reflexivity|].
      unfold captured. simpl. rewrite E, take_app_length. exact Aw.
Qed.

(** A literal of plain text is yielded as it stands when no trim is
    pending. *)
Lemma plain_pass (ts ss : string) (st : tstate) (m : Match) :
  lastgroup m = Some TOKEN_LITERAL ->
  group m "rstrip" = None ->
  all_chars (plain ts ss) (m_text m) = true ->
  lstrip st = false ->
  exists tk st',
    _tokenize_template_body st m = Next tk st'
    /\ lstrip st' = false
    /\ Forall (fun t => kind t = TOKEN_LITERAL) tk
    /\ join_values tk = m_text m.
Proof.
  intros L G A F. unfold _tokenize_template_body.
  rewrite L, G, F. cbn -[startswith count_nl].
  destruct (m_text m) as [|a w] eqn:E.
  - cbn. eexists. eexists. repeat split. constructor.
  - cbn [truthy negb].
    assert (B : Ascii.eqb a "{" = false).
    { simpl in A. apply andb_prop in A. destruct A as [A _].
      unfold plain in A. apply negb_true_iff in A.
      apply Bool.orb_false_elim in A. now destruct A. }
    assert (S1 : startswith "{{" (String a w) = false).
    { unfold startswith. cbn [strip_prefix].
      rewrite Ascii.eqb_sym, B. reflexivity. }
    assert (S2 : startswith "{%" (String a w) = false).
    { unfold startswith. cbn [strip_prefix].
      rewrite Ascii.eqb_sym, B. reflexivity. }
    rewrite S1, S2. eexists. eexists. split; [reflexivity|].
    split; [reflexivity|]. split; [repeat constructor|].
    simpl. now rewrite app_empty_r.
Qed.

Lemma plain_run (ts ss : string) (ms : list Match) :
  Forall (fun m => lastgroup m = Some TOKEN_LITERAL
                   /\ group m "rstrip" = None
                   /\ all_chars (plain ts ss) (m_text m) = true) ms ->
  forall st, lstrip st = false ->
    let o := for_each _tokenize_template_body st ms in
    raised o = None
    /\ Forall (fun t => kind t = TOKEN_LITERAL) (tokens o)
    /\ join_values (tokens o) = join_texts ms.
Proof.
  induction ms as [|m ms IH]; intros H st F; simpl.
  - repeat split. constructor.
  - inversion H as [|? ? (L & G & A) H']; subst.
    destruct (plain_pass ts ss st m L G A F) as (tk & st' & -> & F' & K & J).
    destruct (IH H' st' F') as (R & K' & J').
    cbn [tokens raised]. split; [exact R|]. split.
    + apply Forall_app. now split.
    + now rewrite join_values_app, J, J'.
Qed.

End PlainFacts.

(* ================================================================== *)
(** ** The order in which the matcher tries *)

Module EngineFacts.

Import Str Re Tok Lex Sem StrFacts ReFacts ScanFacts RuleFacts.
Import CoverFacts StreamFacts TextFacts LineFacts PlainFacts.

(** *** Patterns that agree on a kind of text *)

Section Agree.

Variable f : ascii -> bool.
Variables re1 re2 : regex.
Hypothesis agree :
  forall p s must, all_chars f s = true ->
                   match_at re1 p s must = match_at re2 p s must.

Lemma search_agree (s : string) :
  forall p must pos, all_chars f s = true ->
                     search re1 p s must pos = search re2 p s must pos.
Proof.
  induction s as [|a s IH]; intros p must pos A; simpl.
  - now rewrite agree.
  - rewrite agree by exact A.
    destruct (match_at re2 p (String a s) must); [reflexivity|].
    apply IH. simpl in A. apply andb_prop in A. now destruct A.
Qed.

Lemma search_rest_chars (re : regex) (s : string) p must pos m st1 :
  all_chars f s = true ->
  search re p s must pos = Some (m, st1) ->
  all_chars f (rest st1) = true.
Proof.
  intros A E. apply search_sound in E.
  destruct E as (skipped & s0 & p0 & must0 & -> & M & _).
  apply match_at_sound in M. destruct M as [M _].
  apply matches_suffix in M. destruct M as [w E]. simpl in E.
  rewrite E, !all_chars_app in A.
  apply andb_prop in A. destruct A as [_ A].
  apply andb_prop in A. now destruct A.
Qed.

Lemma scan_agree (fuel : nat) :
  forall p s must pos, all_chars f s = true ->
                       scan fuel re1 p s must pos = scan fuel re2 p s must pos.
Proof.
  induction fuel as [|fuel IH]; intros p s must pos A; simpl; [reflexivity|].
  rewrite search_agree by exact A.
  destruct (search re2 p s must pos) as [[m st1]|] eqn:E; [|reflexivity].
  rewrite IH; [reflexivity|].
  exact (search_rest_chars re2 s p must pos m st1 A E).
Qed.

Lemma finditer_agree (source : string) :
  all_chars f source = true -> finditer re1 source = finditer re2 source.
Proof.
  intros A. unfold finditer, finditer_opt. now rewrite scan_agree.
Qed.

End Agree.

(** A first rule that reads a character the text does not have never
    matches, so the table does without it. *)
Lemma first_rule_unused (name : string) (a : ascii)
    (rules : list (string * regex)) (source : string) :
  rules <> [] ->
  all_chars (fun b => negb (Ascii.eqb b a)) source = true ->
  finditer (_compile_rules ((name, Lit (String a EmptyString)) :: rules))
    source
  = finditer (_compile_rules rules) source.
Proof.
  intros N A.
  apply (finditer_agree (fun b => negb (Ascii.eqb b a))); [|exact A].
  intros p s must As. unfold match_at, _compile_rules.
  destruct rules as [|r rules]; [congruence|].
  cbn [map alternation]. cbn [exec fst snd].
  destruct s as [|b s]; [reflexivity|].
  cbn [rest strip_prefix]. simpl in As.
  apply andb_prop in As. destruct As as [As _].
  apply negb_true_iff in As. rewrite Ascii.eqb_sym, As. reflexivity.
Qed.

(** *** What the repetitions try first *)

(** A lazy repetition returns what the continuation gives after the
    shortest run that it accepts. *)
Lemma rep_lazy_first (A : Type) (c : charset) (s : string) :
  forall lo hi p (k : option ascii -> string -> option A) x,
    rep_lazy c lo hi p s k = Some x ->
    exists w s', s = (w ++ s')%string
                 /\ all_chars (in_class c) w = true
                 /\ lo <= String.length w /\ within hi (String.length w)
                 /\ k (last_char w p) s' = Some x
                 /\ forall w1 w2,
                      w = (w1 ++ w2)%string -> w2 <> EmptyString ->
                      lo <= String.length w1 ->
                      k (last_char w1 p) (w2 ++ s')%string = None.
Proof.
  induction s as [|a s IH]; intros lo hi p k x H; simpl in H.
  - destruct (lo =? 0) eqn:E; [|discriminate].
    apply Nat.eqb_eq in E. exists EmptyString, EmptyString.
    destruct (k p EmptyString) eqn:K; [|discriminate].
    simpl. repeat split; try lia; [destruct hi; simpl; lia | congruence |].
    intros [|b w1] w2 E1 N _; simpl in E1; [congruence | discriminate].
  - destruct (if lo =? 0 then k p (String a s) else None) eqn:S.
    + destruct (lo =? 0) eqn:E; [|discriminate].
      apply Nat.eqb_eq in E. exists EmptyString, (String a s).
      simpl. repeat split; try lia; [destruct hi; simpl; lia | congruence |].
      intros [|b w1] w2 E1 N _; simpl in E1; [congruence | discriminate].
    + destruct (in_class c a && can_more hi) eqn:T; [|discriminate].
      apply andb_prop in T. destruct T as [Tc Tm].
      destruct (IH _ _ _ _ _ H)
        as (w & s' & -> & Hall & Hlo & Hhi & Hk & Hmin).
      exists (String a w), s'. simpl. rewrite Tc, Hall.
      repeat split; try lia; [| assumption |].
      * destruct hi as [[|h]|]; simpl in *; try discriminate; lia.
      * intros [|b w1] w2 E1 N L; simpl in E1.
        -- subst w2. simpl in L.
           assert (lo = 0) as -> by lia. simpl in S. exact S.
        -- inversion E1; subst b w. simpl.
           apply Hmin; [reflexivity | assumption | simpl in L; lia].
Qed.

(** A repetition that fails has no run that the continuation accepts. *)
Lemma rep_lazy_none (A : Type) (c : charset) (s : string) :
  forall lo hi p (k : option ascii -> string -> option A),
    rep_lazy c lo hi p s k = None ->
    forall w s', s = (w ++ s')%string ->
                 all_chars (in_class c) w = true ->
                 lo <= String.length w -> within hi (String.length w) ->
                 k (last_char w p) s' = None.
Proof.
  induction s as [|a s IH]; intros lo hi p k H w s' E Hall Hlo Hhi;
    simpl in H.
  - destruct w; [|discriminate]. simpl in E, Hlo |- *. subst s'.
    assert (lo = 0) as -> by lia. simpl in H.
    destruct (k p EmptyString); [discriminate | reflexivity].
  - destruct (if lo =? 0 then k p (String a s) else None) eqn:S;
      [discriminate|].
    destruct w as [|b w]; simpl in E, Hlo, Hall |- *.
    + subst s'. assert (lo = 0) as -> by lia. exact S.
    + inversion E; subst b s.
      apply andb_prop in Hall. destruct Hall as [Hc Hall].
      assert (Tm : can_more hi = true).
      { destruct hi as [[|h]|]; simpl in *; try reflexivity; lia. }
      rewrite Hc, Tm in H. simpl in H.
      apply (IH _ _ _ _ H w s' eq_refl Hall); [lia|].
      destruct hi as [[|h]|]; simpl in *; try lia.
Qed.

Lemma rep_greedy_none (A : Type) (c : charset) (s : string) :
  forall lo hi p (k : option ascii -> string -> option A),
    rep_greedy c lo hi p s k = None ->
    forall w s', s = (w ++ s')%string ->
                 all_chars (in_class c) w = true ->
                 lo <= String.length w -> within hi (String.length w) ->
                 k (last_char w p) s' = None.
Proof.
  induction s as [|a s IH]; intros lo hi p k H w s' E Hall Hlo Hhi;
    simpl in H.
  - destruct w; [|discriminate]. simpl in E, Hlo |- *. subst s'.
    assert (lo = 0) as -> by lia. exact H.
  - destruct w as [|b w]; simpl in E, Hlo, Hall |- *.
    + subst s'. assert (lo = 0) as -> by lia. simpl in H.
      destruct (in_class c a && can_more hi); [|exact H].
      destruct (rep_greedy c 0 (dec hi) (Some a) s k); [discriminate|exact H].
    + inversion E; subst b s.
      apply andb_prop in Hall. destruct Hall as [Hc Hall].
      assert (Tm : can_more hi = true).
      { destruct hi as [[|h]|]; simpl in *; try reflexivity; lia. }
      rewrite Hc, Tm in H. simpl in H.
      destruct (rep_greedy c (Nat.pred lo) (dec hi) (Some a) (w ++ s') k)
        eqn:R; [discriminate|].
      apply (IH _ _ _ _ R w s' eq_refl Hall); [lia|].
      destruct hi as [[|h]|]; simpl in *; try lia.
Qed.

(** A greedy repetition returns what the continuation gives after the
    longest run that it accepts. *)
Lemma rep_greedy_first (A : Type) (c : charset) (s : string) :
  forall lo hi p (k : option ascii -> string -> option A) x,
    rep_greedy c lo hi p s k = Some x ->
    exists w s', s = (w ++ s')%string
                 /\ all_chars (in_class c) w = true
                 /\ lo <= String.length w /\ within hi (String.length w)
                 /\ k (last_char w p) s' = Some x
                 /\ forall w' s'',
                      s = (w' ++ s'')%string ->
                      all_chars (in_class c) w' = true ->
                      within hi (String.length w') ->
                      String.length w < String.length w' ->
                      k (last_char w' p) s'' = None.
Proof.
  induction s as [|a s IH]; intros lo hi p k x H; simpl in H.
  - destruct (lo =? 0) eqn:E; [|discriminate].
    apply Nat.eqb_eq in E. exists EmptyString, EmptyString.
    simpl. repeat split; try lia; [destruct hi; simpl; lia | assumption |].
    intros [|b w'] s'' E1 _ _ L; simpl in *; [lia | discriminate].
  - destruct (in_class c a && can_more hi) eqn:T.
    + apply andb_prop in T. destruct T as [Tc Tm].
      destruct (rep_greedy c (Nat.pred lo) (dec hi) (Some a) s k) eqn:R.
      * inversion H; subst a0.
        destruct (IH _ _ _ _ _ R)
          as (w & s' & -> & Hall & Hlo & Hhi & Hk & Hmax).
        exists (String a w), s'. simpl. rewrite Tc, Hall.
        repeat split; try lia; [| assumption |].
        -- destruct hi as [[|h]|]; simpl in *; try discriminate; lia.
        -- intros [|b w'] s'' E1 A1 W1 L; simpl in *; [lia|].
           inversion E1; subst b.
           apply andb_prop in A1. destruct A1 as [_ A1].
           apply Hmax; try assumption; [|lia].
           destruct hi as [[|h]|]; simpl in *; try lia.
      * destruct (lo =? 0) eqn:E; [|discriminate].
        apply Nat.eqb_eq in E. subst lo.
        exists EmptyString, (String a s).
        simpl. repeat split; try lia; [destruct hi; simpl; lia | assumption |].
        intros [|b w'] s'' E1 A1 W1 L; simpl in *; [lia|].
        inversion E1; subst b s.
        apply andb_prop in A1. destruct A1 as [_ A1].
        apply (rep_greedy_none _ _ _ _ _ _ _ R w' s'' eq_refl A1); [lia|].
        destruct hi as [[|h]|]; simpl in *; try lia.
    + destruct (lo =? 0) eqn:E; [|discriminate].
      apply Nat.eqb_eq in E. subst lo.
      exists EmptyString, (String a s).
      simpl. repeat split; try lia; [destruct hi; simpl; lia | assumption |].
      intros [|b w'] s'' E1 A1 W1 L; simpl in *; [lia|].
      inversion E1; subst b s.
      apply andb_prop in A1. destruct A1 as [Ac _].
      assert (Tm : can_more hi = true).
      { destruct hi as [[|h]|]; simpl in *; try reflexivity; lia. }
      rewrite Ac, Tm in T. discriminate.
Qed.

(** *** Completeness of the matcher *)

(** Without a lookahead, the matcher fails only if the continuation
    refuses every state the pattern leads to. *)
Theorem exec_none (r : regex) :
  ahead_free r = true ->
  forall (A : Type) (st : mstate) (k : mstate -> option A),
    exec r st k = None ->
    forall st', matches r st st' -> k st' = None.
Proof.
  assert (C : forall w st st', consumed w st st' ->
                rest st = (w ++ rest st')%string
                /\ st' = moved (last_char w (prev st)) (rest st') st).
  { intros w st st' (s' & E & ->). simpl. now split. }
  induction r as [ | s | c | c lo hi g | a IHa b IHb | a IHa b IHb
                 | n r IH | r IH | n | r IH | r IH | | ];
    intros F A st k H st' M; simpl in H, M, F; try discriminate.
  - now subst.
  - apply C in M. destruct M as [E ->].
    rewrite E, strip_prefix_complete in H. exact H.
  - destruct M as (a & I & M). apply C in M. destruct M as [E ->].
    simpl in E. rewrite E, I in H. exact H.
  - destruct M as (w & Hall & Hlo & Hhi & M).
    apply C in M. destruct M as [E ->].
    destruct g.
    + exact (rep_greedy_none _ _ _ _ _ _ _ H w (rest st') E Hall Hlo Hhi).
    + exact (rep_lazy_none _ _ _ _ _ _ _ H w (rest st') E Hall Hlo Hhi).
  - apply andb_prop in F. destruct F as [Fa Fb].
    destruct M as (st1 & Ma & Mb).
    apply (IHb Fb _ st1 k); [|exact Mb].
    exact (IHa Fa _ st _ H st1 Ma).
  - apply andb_prop in F. destruct F as [Fa Fb].
    destruct (exec a st k) eqn:Ea; [discriminate|].
    destruct M as [M|M].
    + exact (IHa Fa _ st k Ea st' M).
    + exact (IHb Fb _ st k H st' M).
  - destruct M as (st1 & M & ->).
    exact (IH F _ st _ H st1 M).
  - destruct M as (st1 & M & ->).
    exact (IH F _ st _ H st1 M).
  - destruct M as (w & L & M). apply C in M. destruct M as [E ->].
    rewrite L, E, strip_prefix_complete in H. exact H.
  - destruct M as [-> N]. rewrite N in H. exact H.
  - destruct M as [-> E]. rewrite E in H. exact H.
  - destruct M as [-> E]. rewrite E in H. exact H.
Qed.

End EngineFacts.

(* ================================================================== *)
(** ** Where the lazy groups end *)

Module LazyFacts.

Import Str Re Tok Lex Sem StrFacts ReFacts ScanFacts RuleFacts.
Import CoverFacts StreamFacts TextFacts LineFacts PlainFacts EngineFacts.

Lemma accept_shorter (must : bool) (s : string) (st1 : mstate) :
  String.length (rest st1) < String.length s ->
  accept must s st1 = Some st1.
Proof.
  intros L. unfold accept.
  replace (String.length (rest st1) =? String.length s) with false.
  - now rewrite Bool.andb_false_r.
  - symmetry. apply Nat.eqb_neq. lia.
Qed.

Lemma exec_alternation_inv (A : Type) (rs : list regex) (st : mstate)
    (k : mstate -> option A) (x : A) :
  rs <> [] -> exec (alternation rs) st k = Some x ->
  exists r, In r rs /\ exec r st k = Some x.
Proof.
  induction rs as [|r rs IH]; intros N H; [congruence|].
  destruct rs as [|r' rs].
  - exists r. split; [now left | exact H].
  - change (exec (r <|> alternation (r' :: rs))%re st k = Some x) in H.
    cbn [exec] in H. destruct (exec r st k) eqn:E.
    + exists r. split; [now left | congruence].
    + destruct (IH ltac:(discriminate) H) as (r0 & I & E0).
      exists r0. split; [now right | exact E0].
Qed.

(** The attempt behind a match of a compiled table: the rule whose
    group closes last is one that the matcher ran to the end. *)
Lemma search_exec (rules : list (string * regex)) p s must pos m st1 :
  rules <> [] ->
  search (_compile_rules rules) p s must pos = Some (m, st1) ->
  exists name pattern skipped s0 p0 must0,
    In (name, pattern) rules
    /\ s = (skipped ++ s0)%string
    /\ m = mk_match (pos + String.length skipped) s0 st1
    /\ exec (Named name pattern) (MState p0 s0 [] None) (accept must0 s0)
       = Some st1
    /\ lastgroup m = Some name.
Proof.
  intros N H. apply search_sound in H.
  destruct H as (skipped & s0 & p0 & must0 & -> & M & -> & _).
  unfold match_at in M. fold (accept must0 s0) in M.
  unfold _compile_rules in M.
  apply exec_alternation_inv in M; [|now destruct rules].
  destruct M as (r & I & E). apply in_map_iff in I.
  destruct I as ([name pattern] & <- & I). cbn [fst snd] in E.
  exists name, pattern, skipped, s0, p0, must0.
  repeat split; try assumption.
  apply exec_sound in E. destruct E as (st' & (st2 & _ & ->) & K).
  unfold accept in K.
  destruct (must0 && _); [discriminate|]. inversion K; subst st1.
  reflexivity.
Qed.

Lemma captured_one (a : ascii) (s' : string) (st : mstate) :
  rest st = String a s' -> captured st (moved (Some a) s' st) = String a "".
Proof.
  intros E. apply captured_suffix. now rewrite E.
Qed.

(** A text none of whose suffixes starts with [q] has no [q]. *)
Lemma no_char_by_splits (q : ascii) (w : string) :
  (forall w1 w2 t, w = (w1 ++ w2)%string -> w2 = String q t -> False) ->
  all_chars (fun a => negb (Ascii.eqb a q)) w = true.
Proof.
  induction w as [|b w IH]; intros H; simpl; [reflexivity|].
  rewrite IH.
  - destruct (Ascii.eqb b q) eqn:E; [|reflexivity].
    apply Ascii.eqb_eq in E. subst b.
    elim (H EmptyString (String q w) w eq_refl eq_refl).
  - intros w1 w2 t E1 E2. exact (H (String b w1) w2 t (f_equal _ E1) E2).
Qed.

(** The matcher on the pattern of strings: the quoted text ends at the
    first quote like the opening one. *)
Lemma string_exec (p0 : option ascii) (s0 : string) (must : bool)
    (st1 : mstate) :
  exec (Named TOKEN_STRING STRING_PATTERN) (MState p0 s0 [] None)
    (accept must s0) = Some st1 ->
  exists q v s',
    (q = dquote \/ q = "'"%char)
    /\ s0 = String q (v ++ String q s')
    /\ all_chars (fun a => negb (Ascii.eqb a q)) v = true
    /\ rest st1 = s'
    /\ last st1 = Some TOKEN_STRING
    /\ marks st1 = [ (TOKEN_STRING, String q (v ++ String q EmptyString));
                     ("quoted", v); ("quote", String q EmptyString) ].
Proof.
  intros H. unfold STRING_PATTERN in H. cbn [exec] in H.
  destruct s0 as [|a s']; [discriminate|]. cbn [rest] in H.
  destruct (in_class _ a) eqn:Q; [|discriminate].
  set (st0 := MState p0 (String a s') [] None) in *.
  assert (Eq : close_named "quote" st0 (moved (Some a) s' st0)
               = MState (Some a) s' [("quote", String a "")] (Some "quote")).
  { unfold close_named. now rewrite captured_one. }
  rewrite Eq in H. clear Eq.
  set (sq := MState (Some a) s' [("quote", String a "")] (Some "quote")) in *.
  unfold star_lazy in H. cbn [exec] in H.
  apply rep_lazy_first in H.
  destruct H as (w & s'' & E & _ & _ & _ & K & Min).
  cbn [rest sq] in E.
  assert (M : forall w1 w2,
            marks (close_named "quoted" sq
                     (moved (last_char w1 (prev sq)) w2 sq))
            = [("quoted", captured sq (moved (last_char w1 (prev sq)) w2 sq));
               ("quote", String a "")]) by reflexivity.
  assert (Lk : forall x, lookup "quote" [("quoted", x); ("quote", String a "")]
                         = Some (String a "")) by reflexivity.
  assert (C : forall w1 w2, s' = (w1 ++ w2)%string ->
                captured sq (moved (last_char w1 (prev sq)) w2 sq) = w1).
  { intros w1 w2 E1. apply captured_suffix. exact E1. }
  rewrite M, Lk in K. cbn [close_named rest moved] in K.
  destruct s'' as [|b t]; cbn [strip_prefix] in K; [discriminate|].
  destruct (Ascii.eqb a b) eqn:Eab; [|discriminate].
  apply Ascii.eqb_eq in Eab. subst b.
  unfold accept in K.
  destruct (must && _); [discriminate|]. inversion K as [K']. clear K.
  exists a, w, t. split; [|split; [|split; [|split; [|split]]]].
  - cbn in Q. apply orb_prop in Q. destruct Q as [Q|Q].
    + left. now apply Ascii.eqb_eq.
    + right. rewrite Bool.orb_false_r in Q. now apply Ascii.eqb_eq.
  - now rewrite E.
  - apply no_char_by_splits. intros w1 w2 t2 E1 E2.
    assert (N : w2 <> EmptyString) by (rewrite E2; discriminate).
    specialize (Min w1 w2 E1 N (Nat.le_0_l _)).
    rewrite M, Lk in Min. cbn [close_named rest moved] in Min.
    rewrite E2 in Min. cbn [append strip_prefix] in Min.
    rewrite Ascii.eqb_refl in Min.
    rewrite accept_shorter in Min; [discriminate|].
    cbn [rest close_named moved].
    rewrite E, E1, E2, !length_app. simpl. rewrite !length_app. simpl. lia.
  - reflexivity.
  - reflexivity.
  - cbn [marks close_named moved].
    change (last_char w (Some a)) with (last_char w (prev sq)).
    rewrite (C w (String a t) E).
    replace (captured st0 _) with (String a (w ++ String a "")).
    + reflexivity.
    + symmetry. apply captured_suffix. cbn [rest st0].
      rewrite E. simpl. now rewrite app_assoc.
Qed.

Lemma string_rule (rules : list (string * regex)) (pattern : regex) :
  In rules expression_tables -> In (TOKEN_STRING, pattern) rules ->
  pattern = STRING_PATTERN.
Proof.
  intros T Hin. simpl in T.
  repeat (destruct T as [<-|T];
          [simpl in Hin;
           repeat (destruct Hin as [Hin|Hin];
                   [try discriminate Hin; inversion Hin; reflexivity|]);
           contradiction|]).
  contradiction.
Qed.

Lemma mk_match_text (pos : nat) (w s' : string) (st1 : mstate) :
  rest st1 = s' -> m_text (mk_match pos (w ++ s') st1) = w.
Proof.
  intros E. unfold mk_match. cbn [m_text]. rewrite E. apply take_app_length.
Qed.

(** *** Lazy and greedy groups inside a rule *)

Lemma exec_seq_sound (A : Type) (a b : regex) (st : mstate)
    (k : mstate -> option A) (x : A) :
  exec (a <+> b) st k = Some x ->
  exists st1, matches a st st1 /\ exec b st1 k = Some x.
Proof.
  intros H. cbn [exec] in H. now apply exec_sound in H.
Qed.

Lemma exec_greedy_seq (A : Type) (c : charset) (lo : nat) (hi : option nat)
    (b : regex) (st : mstate) (k : mstate -> option A) (x : A) :
  exec (Rep c lo hi true <+> b) st k = Some x ->
  exists w s',
    rest st = (w ++ s')%string
    /\ all_chars (in_class c) w = true
    /\ within hi (String.length w)
    /\ exec b (moved (last_char w (prev st)) s' st) k = Some x
    /\ forall w' s'',
         rest st = (w' ++ s'')%string ->
         all_chars (in_class c) w' = true ->
         within hi (String.length w') ->
         String.length w < String.length w' ->
         exec b (moved (last_char w' (prev st)) s'' st) k = None.
Proof.
  intros H. cbn [exec] in H. apply rep_greedy_first in H.
  destruct H as (w & s' & E & Hall & _ & Hhi & K & Max).
  exists w, s'. repeat split; assumption.
Qed.

Lemma exec_greedy_group_seq (A : Type) (n : string) (c : charset) (lo : nat)
    (hi : option nat) (b : regex) (st : mstate) (k : mstate -> option A)
    (x : A) :
  exec (Named n (Rep c lo hi true) <+> b) st k = Some x ->
  exists w s',
    rest st = (w ++ s')%string
    /\ all_chars (in_class c) w = true
    /\ within hi (String.length w)
    /\ exec b (close_named n st (moved (last_char w (prev st)) s' st)) k
       = Some x
    /\ forall w' s'',
         rest st = (w' ++ s'')%string ->
         all_chars (in_class c) w' = true ->
         within hi (String.length w') ->
         String.length w < String.length w' ->
         exec b (close_named n st (moved (last_char w' (prev st)) s'' st)) k
         = None.
Proof.
  intros H. cbn [exec] in H. apply rep_greedy_first in H.
  destruct H as (w & s' & E & Hall & _ & Hhi & K & Max).
  exists w, s'. repeat split; assumption.
Qed.

Lemma exec_lazy_group_seq (A : Type) (n : string) (c : charset) (lo : nat)
    (hi : option nat) (b : regex) (st : mstate) (k : mstate -> option A)
    (x : A) :
  exec (Named n (Rep c lo hi false) <+> b) st k = Some x ->
  exists w s',
    rest st = (w ++ s')%string
    /\ all_chars (in_class c) w = true
    /\ exec b (close_named n st (moved (last_char w (prev st)) s' st)) k
       = Some x
    /\ forall w1 w2,
         w = (w1 ++ w2)%string -> w2 <> EmptyString ->
         lo <= String.length w1 ->
         exec b (close_named n st
                   (moved (last_char w1 (prev st)) (w2 ++ s') st)) k
         = None.
Proof.
  intros H. cbn [exec] in H. apply rep_lazy_first in H.
  destruct H as (w & s' & E & Hall & _ & _ & K & Min).
  exists w, s'. repeat split; assumption.
Qed.

(** A pattern that depends on the text ahead only matches from every
    state with the same text ahead. *)
Lemma matches_transport (r : regex) :
  text_only r = true ->
  forall st st', matches r st st' ->
  forall st2, rest st2 = rest st ->
  exists st2', matches r st2 st2' /\ rest st2' = rest st'.
Proof.
  assert (C : forall w st st' st2, consumed w st st' -> rest st2 = rest st ->
                consumed w st2 (moved (last_char w (prev st2)) (rest st') st2)
                /\ rest (moved (last_char w (prev st2)) (rest st') st2)
                   = rest st').
  { intros w st st' st2 (s' & E & ->) R. split; [|reflexivity].
    exists s'. split; [now rewrite R | reflexivity]. }
  induction r as [ | s | c | c lo hi g | a IHa b IHb | a IHa b IHb
                 | n r IH | r IH | n | r IH | r IH | | ];
    intros F st st' M st2 R; simpl in M, F; try discriminate.
  - subst. exists st2. split; [reflexivity | exact R].
  - destruct (C _ _ _ _ M R) as [C1 C2]. eexists. split; [exact C1 | exact C2].
  - destruct M as (a & I & M). destruct (C _ _ _ _ M R) as [C1 C2].
    eexists. split; [exists a; split; [exact I | exact C1] | exact C2].
  - destruct M as (w & Hall & Hlo & Hhi & M).
    destruct (C _ _ _ _ M R) as [C1 C2].
    eexists. split; [exists w; repeat split; eassumption | exact C2].
  - apply andb_prop in F. destruct F as [Fa Fb].
    destruct M as (st1 & Ma & Mb).
    destruct (IHa Fa _ _ Ma st2 R) as (st2a & Ma' & Ra).
    destruct (IHb Fb _ _ Mb st2a Ra) as (st2b & Mb' & Rb).
    exists st2b. split; [exists st2a; now split | exact Rb].
  - apply andb_prop in F. destruct F as [Fa Fb].
    destruct M as [M|M].
    + destruct (IHa Fa _ _ M st2 R) as (st2a & Ma' & Ra).
      exists st2a. split; [now left | exact Ra].
    + destruct (IHb Fb _ _ M st2 R) as (st2b & Mb' & Rb).
      exists st2b. split; [now right | exact Rb].
  - destruct M as (st1 & M & ->).
    destruct (IH F _ _ M st2 R) as (st2a & Ma' & Ra).
    exists (close_named n st2 st2a). split; [now exists st2a | exact Ra].
  - destruct M as (st1 & M & ->).
    destruct (IH F _ _ M st2 R) as (st2a & Ma' & Ra).
    exists (close_group st2a). split; [now exists st2a | exact Ra].
  - destruct M as [-> E]. exists st2. split; [|exact R].
    split; [reflexivity | now rewrite R].
Qed.

(** What follows a lazy group fails after every shorter run of the
    group, from whatever state with that text ahead. *)
Lemma lazy_group_shortest (A : Type) (n : string) (c : charset) (b : regex)
    (st : mstate) (k : mstate -> option A) (x : A) :
  text_only b = true -> ahead_free b = true -> by_rest k ->
  exec (Named n (Rep c 0 None false) <+> b) st k = Some x ->
  exists w s' st',
    rest st = (w ++ s')%string
    /\ all_chars (in_class c) w = true
    /\ matches b (close_named n st (moved (last_char w (prev st)) s' st)) st'
    /\ k st' = Some x
    /\ forall w1 w2 st2 st2',
         w = (w1 ++ w2)%string -> w2 <> EmptyString ->
         rest st2 = (w2 ++ s')%string ->
         matches b st2 st2' -> k st2' = None.
Proof.
  intros T F B H. apply exec_lazy_group_seq in H.
  destruct H as (w & s' & E & Hall & K & Min).
  apply exec_sound in K. destruct K as (st' & M & K).
  exists w, s', st'. repeat split; try assumption.
  intros w1 w2 st2 st2' E1 N R M2.
  specialize (Min w1 w2 E1 N (Nat.le_0_l _)).
  destruct (matches_transport b T _ _ M2
              (close_named n st
                 (moved (last_char w1 (prev st)) (w2 ++ s') st)))
    as (st3 & M3 & R3); [now rewrite R|].
  pose proof (exec_none b F _ _ _ Min st3 M3) as K3.
  exact (B st3 st2' R3 K3).
Qed.

(** What follows a greedy run fails after every longer run, from
    whatever state with that text ahead. *)
Lemma greedy_run_longest (A : Type) (c : charset) (b : regex)
    (st : mstate) (k : mstate -> option A) (x : A) :
  text_only b = true -> ahead_free b = true -> by_rest k ->
  exec (Rep c 0 None true <+> b) st k = Some x ->
  exists w s',
    rest st = (w ++ s')%string
    /\ all_chars (in_class c) w = true
    /\ exec b (moved (last_char w (prev st)) s' st) k = Some x
    /\ forall a s'' st2 st2',
         s' = String a s'' -> in_class c a = true ->
         rest st2 = s'' -> matches b st2 st2' -> k st2' = None.
Proof.
  intros T F B H. apply exec_greedy_seq in H.
  destruct H as (w & s' & E & Hall & _ & K & Max).
  exists w, s'. repeat split; try assumption.
  intros a s'' st2 st2' Es Ia R M2.
  assert (Max' := Max (w ++ String a "")%string s'').
  rewrite E, Es, length_app, all_chars_app, Hall in Max'. simpl in Max'.
  rewrite Ia in Max'.
  specialize (Max' ltac:(now rewrite app_assoc) eq_refl I ltac:(lia)).
  destruct (matches_transport b T _ _ M2
              (moved (last_char (w ++ String a "") (prev st)) s'' st))
    as (st3 & M3 & R3); [now rewrite R|].
  pose proof (exec_none b F _ _ _ Max' st3 M3) as K3.
  exact (B st3 st2' R3 K3).
Qed.

Lemma greedy_group_longest (A : Type) (n : string) (c : charset) (b : regex)
    (st : mstate) (k : mstate -> option A) (x : A) :
  text_only b = true -> ahead_free b = true -> by_rest k ->
  exec (Named n (Rep c 0 None true) <+> b) st k = Some x ->
  exists w s',
    rest st = (w ++ s')%string
    /\ all_chars (in_class c) w = true
    /\ exec b (close_named n st (moved (last_char w (prev st)) s' st)) k
       = Some x
    /\ forall a s'' st2 st2',
         s' = String a s'' -> in_class c a = true ->
         rest st2 = s'' -> matches b st2 st2' -> k st2' = None.
Proof.
  intros T F B H. apply exec_greedy_group_seq in H.
  destruct H as (w & s' & E & Hall & _ & K & Max).
  exists w, s'. repeat split; try assumption.
  intros a s'' st2 st2' Es Ia R M2.
  assert (Max' := Max (w ++ String a "")%string s'').
  rewrite E, Es, length_app, all_chars_app, Hall in Max'. simpl in Max'.
  rewrite Ia in Max'.
  specialize (Max' ltac:(now rewrite app_assoc) eq_refl I ltac:(lia)).
  destruct (matches_transport b T _ _ M2
              (close_named n st
                 (moved (last_char (w ++ String a "") (prev st)) s'' st)))
    as (st3 & M3 & R3); [now rewrite R|].
  pose proof (exec_none b F _ _ _ Max' st3 M3) as K3.
  exact (B st3 st2' R3 K3).
Qed.

(** *** Building matches *)

Lemma consumed_here (w s' : string) (p : option ascii)
    (ms : list (string * string)) (l : option string) :
  consumed w (MState p (w ++ s') ms l) (MState (last_char w p) s' ms l).
Proof. exists s'. split; reflexivity. Qed.

Lemma matches_lit (w s' : string) (p : option ascii)
    (ms : list (string * string)) (l : option string) :
  matches (Lit w) (MState p (w ++ s') ms l) (MState (last_char w p) s' ms l).
Proof. apply consumed_here. Qed.

Lemma matches_rep (c : charset) (hi : option nat) (g : bool) (w s' : string)
    (p : option ascii) (ms : list (string * string)) (l : option string) :
  all_chars (in_class c) w = true -> within hi (String.length w) ->
  matches (Rep c 0 hi g) (MState p (w ++ s') ms l)
    (MState (last_char w p) s' ms l).
Proof.
  intros Hall Hhi. exists w. repeat split; try assumption; try lia.
  apply consumed_here.
Qed.

Lemma matches_named_rep (n : string) (c : charset) (hi : option nat)
    (g : bool) (w s' : string) (p : option ascii)
    (ms : list (string * string)) (l : option string) :
  all_chars (in_class c) w = true -> within hi (String.length w) ->
  matches (Named n (Rep c 0 hi g)) (MState p (w ++ s') ms l)
    (MState (last_char w p) s' ((n, w) :: ms) (Some n)).
Proof.
  intros Hall Hhi. exists (MState (last_char w p) s' ms l).
  split; [now apply matches_rep|].
  unfold close_named. cbn [prev rest marks last]. f_equal. f_equal. f_equal.
  symmetry. now apply captured_suffix.
Qed.

(** The whole text ahead of the attempt is at least what is ahead of
    any state it leads to. *)
Lemma accept_by_rest (must : bool) (s0 : string) (n : string)
    (st0 : mstate) :
  by_rest (fun st => accept must s0 (close_named n st0 st)).
Proof.
  intros st st' R. unfold accept, close_named. cbn [rest]. rewrite R.
  destruct (must && _); [reflexivity | discriminate].
Qed.

Lemma accept_none_rest (must : bool) (s0 : string) (n : string)
    (st0 st st' : mstate) :
  accept must s0 (close_named n st0 st) = None ->
  rest st = rest st' ->
  accept must s0 (close_named n st0 st') = None.
Proof.
  intros K R. exact (accept_by_rest must s0 n st0 st st' R K).
Qed.

Lemma accept_close_shorter (must : bool) (s0 : string) (n : string)
    (st0 st : mstate) :
  String.length (rest st) < String.length s0 ->
  accept must s0 (close_named n st0 st) <> None.
Proof.
  intros L. rewrite accept_shorter; [discriminate | exact L].
Qed.

Lemma accept_inv (must : bool) (s0 : string) (st st1 : mstate) :
  accept must s0 st = Some st1 -> st1 = st.
Proof.
  unfold accept. destruct (must && _); [discriminate|]. now inversion 1.
Qed.

(** *** First and last characters *)

Lemma first_is_inv (f : ascii -> bool) (s : string) :
  first_is f s = true -> exists a s', s = String a s' /\ f a = true.
Proof.
  destruct s as [|a s']; [discriminate|]. intros H. now exists a, s'.
Qed.

Lemma last_char_inv (s : string) :
  forall d a, last_char s d = Some a ->
    (s = EmptyString /\ d = Some a)
    \/ exists u, s = (u ++ String a EmptyString)%string.
Proof.
  induction s as [|b s IH]; intros d a H; simpl in H.
  - now left.
  - right. destruct (IH _ _ H) as [[-> E]|[u ->]].
    + inversion E; subst. now exists EmptyString.
    + now exists (String b u).
Qed.

Lemma last_is_inv (f : ascii -> bool) (s : string) :
  last_is f s = true ->
  exists u a, s = (u ++ String a EmptyString)%string /\ f a = true.
Proof.
  unfold last_is. destruct (last_char s None) as [a|] eqn:E; [|discriminate].
  intros H. destruct (last_char_inv s None a E) as [[_ D]|[u ->]];
    [discriminate|]. now exists u, a.
Qed.

(** *** A lazy group between blanks *)

(** The shape shared by the statement and the tag rules: blanks, a
    lazy group, blanks, an optional dash in a group and a closing
    delimiter.  Whatever the matcher does before, the lazy group does
    not start or end with a blank and does not contain the closing
    delimiter. *)
Lemma trimmed_group_exec (A : Type) (n r e : string) (st : mstate)
    (k : mstate -> option A) (x : A) :
  e <> EmptyString -> by_rest k ->
  (forall st', String.length (rest st') < String.length (rest st) ->
               k st' <> None) ->
  exec (star CSpace <+> Named n (star_lazy dot) <+> star CSpace
        <+> Named r (opt (CChar "-")) <+> Lit e) st k = Some x ->
  exists sp v sp2 d st',
    rest st = (sp ++ v ++ sp2 ++ d ++ e ++ rest st')%string
    /\ all_chars is_space sp = true
    /\ all_chars is_space sp2 = true
    /\ (d = EmptyString \/ d = "-")
    /\ k st' = Some x
    /\ marks st' = (r, d) :: (n, v) :: marks st
    /\ (d = EmptyString -> sp2 = EmptyString -> last_is is_dash v = false)
    /\ ~ contains e v
    /\ first_is is_space v = false
    /\ last_is is_space v = false.
Proof.
  intros Ne B Adv H. unfold star, star_lazy, opt in H.
  apply greedy_run_longest in H; [|reflexivity|reflexivity|exact B].
  destruct H as (sp & s_c & E & Asp & H & Max).
  set (st_c := moved (last_char sp (prev st)) s_c st) in *.
  apply lazy_group_shortest in H; [|reflexivity|reflexivity|exact B].
  destruct H as (v & s_d & st' & Ed & _ & Mpost & Kst' & Min).
  cbn [rest st_c moved] in Ed.
  set (st_d := close_named n st_c (moved (last_char v (prev st_c)) s_d st_c))
    in *.
  assert (Rd : rest st_d = s_d) by reflexivity.
  assert (Md : marks st_d = (n, v) :: marks st).
  { unfold st_d, close_named. cbn [marks moved st_c]. f_equal. f_equal.
    apply captured_suffix. exact Ed. }
  pose proof Mpost as Mfull.
  destruct Mpost as (st1 & Mrep & Mp).
  assert (Hrep : exists w sw,
             all_chars is_space w = true /\ s_d = (w ++ sw)%string
             /\ rest st1 = sw /\ marks st1 = marks st_d).
  { simpl in Mrep. destruct Mrep as (w & Aw & _ & _ & (sw & Ew & ->)).
    exists w, sw. repeat split; assumption. }
  destruct Hrep as (w & sw & Aw & Ew & R1 & M1).
  assert (Hp : exists d, marks st' = (r, d) :: marks st1
                         /\ rest st1 = (d ++ e ++ rest st')%string
                         /\ (d = EmptyString \/ d = "-")).
  { pose proof Mp as Mp'. simpl in Mp'.
    destruct Mp' as (st2 & (st3 & (wd & Awd & _ & Hwd & (sd & Ed' & ->)) & ->)
                     & (se' & Ee & ->)).
    exists wd. cbn [rest marks moved close_named] in Ee |- *.
    split; [|split].
    - f_equal. f_equal. apply captured_suffix. exact Ed'.
    - now rewrite Ed', Ee.
    - destruct wd as [|a [|b wd]]; simpl in Hwd, Awd; [now left | | lia].
      right. rewrite Bool.andb_true_r in Awd.
      apply Ascii.eqb_eq in Awd. now subst a. }
  destruct Hp as (d & Mst' & Rst' & Dd).
  rewrite R1 in Rst'.
  assert (Lst' : String.length (rest st') < String.length s_d).
  { rewrite Ew, Rst', !length_app. destruct e; [congruence | simpl; lia]. }
  exists sp, v, w, d, st'.
  split; [now rewrite E, Ed, Ew, Rst'|]. split; [exact Asp|].
  split; [exact Aw|]. split; [exact Dd|]. split; [exact Kst'|].
  split; [now rewrite Mst', M1, Md|].
  split.
  { intros -> ->. apply Bool.not_true_is_false. intros L.
    apply last_is_inv in L. destruct L as (u & a & -> & Ia).
    unfold is_dash in Ia. apply Ascii.eqb_eq in Ia. subst a.
    simpl in Ew, Rst'. rewrite Rst' in Ew.
    assert (K0 := Min u "-"
                    (MState None ("-" ++ e ++ rest st') [] None)
                    (MState (last_char e (Some "-"%char)) (rest st')
                       [(r, "-")] (Some r)) eq_refl ltac:(discriminate)).
    rewrite (B (MState (last_char e (Some "-"%char)) (rest st')
                  [(r, "-")] (Some r)) st' eq_refl) in Kst'; [discriminate|].
    apply K0.
    - cbn [rest]. now rewrite Ew.
    - exists (MState None ("-" ++ e ++ rest st') [] None).
      split; [exact (matches_rep CSpace None true "" _ None [] None
                       eq_refl I)|].
      exists (MState (Some "-"%char) (e ++ rest st') [(r, "-")] (Some r)).
      split; [exact (matches_named_rep r (CChar "-") (Some 1) true "-" _ None
                       [] None eq_refl (le_n 1))|].
      apply matches_lit. }
  split; [|split].
  - intros (u1 & u2 & Ev).
    assert (K0 := Min u1 (e ++ u2)%string
                    (MState None (e ++ (u2 ++ s_d)) [] None)
                    (MState (last_char e None) (u2 ++ s_d) [(r, "")] (Some r))).
    assert (K1 : k (MState (last_char e None) (u2 ++ s_d) [(r, "")] (Some r))
                 <> None).
    { apply Adv. cbn [rest]. rewrite E, Ed, Ev, !length_app.
      destruct e; [congruence | simpl; lia]. }
    apply K1. apply K0.
    + exact Ev.
    + destruct e; [congruence | discriminate].
    + cbn [rest]. now rewrite app_assoc.
    + exists (MState None (e ++ (u2 ++ s_d)) [] None).
      split; [exact (matches_rep CSpace None true "" _ None [] None
                       eq_refl I)|].
      exists (MState None (e ++ (u2 ++ s_d)) [(r, "")] (Some r)).
      split; [exact (matches_named_rep r (CChar "-") (Some 1) true "" _ None
                       [] None eq_refl (Nat.le_0_l _))|].
      apply matches_lit.
  - apply Bool.not_true_is_false. intros L.
    apply first_is_inv in L. destruct L as (a & v' & -> & Ia).
    destruct (matches_transport
                (Rep CSpace 0 None true
                 <+> Named r (Rep (CChar "-") 0 (Some 1) true) <+> Lit e)
                eq_refl _ _ Mfull
                (MState (last_char v' None) s_d [(n, v')] (Some n)) eq_refl)
      as (st2' & M2 & R2).
    assert (K0 := Max a (v' ++ s_d)%string
                    (MState None (v' ++ s_d) [] None) st2' Ed Ia eq_refl).
    rewrite (B st2' _ R2) in Kst'; [discriminate|].
    apply K0.
    exists (MState (last_char v' None) s_d [(n, v')] (Some n)).
    split; [|exact M2].
    exact (matches_named_rep n dot None false v' s_d None [] None
             ltac:(clear; induction v'; simpl; auto) I).
  - apply Bool.not_true_is_false. intros L.
    apply last_is_inv in L. destruct L as (u & a & -> & Ia).
    destruct (matches_transport
                (Named r (Rep (CChar "-") 0 (Some 1) true) <+> Lit e)
                eq_refl _ _ Mp
                (MState (last_char (String a w) None) sw [] None)
                (eq_sym R1))
      as (st2' & M2 & R2).
    assert (K0 := Min u (String a "")
                    (MState None (String a w ++ sw) [] None) st2' eq_refl
                    ltac:(discriminate)).
    rewrite (B st2' _ R2) in Kst'; [discriminate|].
    apply K0.
    + cbn [rest]. simpl. now rewrite Ew.
    + exists (MState (last_char (String a w) None) sw [] None).
      split; [|exact M2].
      apply (matches_rep CSpace None true (String a w) sw None [] None);
        [|exact I].
      change (is_space a && all_chars (in_class CSpace) w = true).
      rewrite Ia. exact Aw.
Qed.

(** *** The statement and tag rules *)

Lemma accept_advanced (must : bool) (s0 : string) (n : string)
    (st0 st : mstate) :
  String.length (rest st) <= String.length s0 ->
  forall st', String.length (rest st') < String.length (rest st) ->
              accept must s0 (close_named n st0 st') <> None.
Proof.
  intros L st' L'. apply accept_close_shorter. lia.
Qed.

(** What a match of the statement rule holds in its group. *)
Lemma statement_exec (ss se : string) (p0 : option ascii) (s0 : string)
    (must : bool) (st1 : mstate) :
  se <> EmptyString ->
  exec (Named TOKEN_STATEMENT
          (Lit ss <+> opt (CChar "-") <+> star CSpace
           <+> Named "stmt" (star_lazy dot)
           <+> star CSpace <+> Named "rss" (opt (CChar "-")) <+> Lit se))
    (MState p0 s0 [] None) (accept must s0) = Some st1 ->
  exists v,
    lookup "stmt" (marks st1) = Some v
    /\ ~ contains se v
    /\ first_is is_space v = false
    /\ last_is is_space v = false.
Proof.
  intros Ne H.
  set (st0 := MState p0 s0 [] None) in *.
  change (exec (Lit ss <+> (opt (CChar "-")
                <+> (star CSpace <+> Named "stmt" (star_lazy dot)
                     <+> star CSpace <+> Named "rss" (opt (CChar "-"))
                     <+> Lit se))) st0
            (fun st => accept must s0 (close_named TOKEN_STATEMENT st0 st))
          = Some st1) in H.
  apply exec_seq_sound in H. destruct H as (st_a & Ma & H).
  apply exec_seq_sound in H. destruct H as (st_b & Mb & H).
  apply trimmed_group_exec in H;
    [ | exact Ne | apply accept_by_rest | apply accept_advanced ].
  - destruct H as (sp & v & sp2 & d & st' & _ & _ & _ & _ & K & M & _ & C & F
                   & L).
    apply accept_inv in K. subst st1.
    exists v. split; [|now repeat split].
    unfold close_named. cbn [marks]. rewrite M. reflexivity.
  - apply matches_length in Ma. apply matches_length in Mb.
    cbn [rest st0] in Ma. lia.
Qed.

(** What a match of the tag rule holds in its expression group. *)
Lemma tag_exec (ts te : string) (p0 : option ascii) (s0 : string)
    (must : bool) (st1 : mstate) :
  te <> EmptyString ->
  exec (Named "TAG"
          (Lit ts <+> opt (CChar "-") <+> star CSpace
           <+> Named "name" (star CWord) <+> star CSpace
           <+> Named "expr" (star_lazy dot)
           <+> star CSpace <+> Named "rst" (opt (CChar "-")) <+> Lit te))
    (MState p0 s0 [] None) (accept must s0) = Some st1 ->
  exists v,
    lookup "expr" (marks st1) = Some v
    /\ ~ contains te v
    /\ first_is is_space v = false
    /\ last_is is_space v = false.
Proof.
  intros Ne H.
  set (st0 := MState p0 s0 [] None) in *.
  change (exec (Lit ts <+> (opt (CChar "-") <+> (star CSpace
                <+> (Named "name" (star CWord)
                <+> (star CSpace <+> Named "expr" (star_lazy dot)
                     <+> star CSpace <+> Named "rst" (opt (CChar "-"))
                     <+> Lit te))))) st0
            (fun st => accept must s0 (close_named "TAG" st0 st))
          = Some st1) in H.
  apply exec_seq_sound in H. destruct H as (st_a & Ma & H).
  apply exec_seq_sound in H. destruct H as (st_b & Mb & H).
  apply exec_seq_sound in H. destruct H as (st_c & Mc & H).
  apply exec_seq_sound in H. destruct H as (st_n & Mn & H).
  apply trimmed_group_exec in H;
    [ | exact Ne | apply accept_by_rest | apply accept_advanced ].
  - destruct H as (sp & v & sp2 & d & st' & _ & _ & _ & _ & K & M & _ & C & F
                   & L).
    apply accept_inv in K. subst st1.
    exists v. split; [|now repeat split].
    unfold close_named. cbn [marks]. rewrite M. reflexivity.
  - apply matches_length in Ma. apply matches_length in Mb.
    apply matches_length in Mc. apply matches_length in Mn.
    cbn [rest st0] in Ma. lia.
Qed.

(** The same, of the matches of a scan of the template rules. *)
Lemma template_group_values (ts te ss se source : string) :
  Forall (fun m =>
            (se <> EmptyString -> lastgroup m = Some TOKEN_STATEMENT ->
             exists v, group m "stmt" = Some v
                       /\ ~ contains se v
                       /\ first_is is_space v = false
                       /\ last_is is_space v = false)
            /\ (te <> EmptyString -> lastgroup m = Some "TAG" ->
                exists v, group m "expr" = Some v
                          /\ ~ contains te v
                          /\ first_is is_space v = false
                          /\ last_is is_space v = false))
    (finditer (compile_liquid_rules ts te ss se) source).
Proof.
  eapply Scan_Forall; [|apply finditer_Scan].
  intros p s must pos m st1 E. unfold compile_liquid_rules in E.
  apply search_exec in E; [|discriminate].
  destruct E as (name & pattern & skipped & s0 & p0 & must0 & Hin & -> & Em
                 & X & L).
  unfold group. rewrite Em. cbn [m_groups mk_match]. rewrite <- Em.
  simpl in Hin.
  destruct Hin as [Hin|[Hin|[Hin|[Hin|[]]]]]; inversion Hin; subst name pattern;
    clear Hin; (split; intros Ne L'; rewrite L in L'; try discriminate L').
  - exact (statement_exec ss se p0 s0 must0 st1 Ne X).
  - exact (tag_exec ts te p0 s0 must0 st1 Ne X).
Qed.

(** What a match of the raw rule holds in its group: the text up to
    the first tag that closes the block. *)
Lemma raw_exec (ts te : string) (p0 : option ascii) (s0 : string)
    (must : bool) (st1 : mstate) :
  exec (Named "RAW"
          (Lit ts <+> star CSpace <+> Lit "raw" <+> star CSpace <+> Lit te
           <+> Named "raw" (star_lazy dot)
           <+> Lit ts <+> star CSpace <+> Lit "endraw" <+> star CSpace
           <+> Lit te))
    (MState p0 s0 [] None) (accept must s0) = Some st1 ->
  exists sp1 sp2 v closing,
    captured (MState p0 s0 [] None) st1
    = ((ts ++ sp1 ++ "raw" ++ sp2 ++ te) ++ v ++ closing)%string
    /\ all_chars is_space sp1 = true /\ all_chars is_space sp2 = true
    /\ closes_raw ts te closing
    /\ lookup "raw" (marks st1) = Some v
    /\ forall w1 w2 c after,
         v = (w1 ++ w2)%string -> w2 <> EmptyString ->
         closes_raw ts te c -> (w2 ++ closing)%string <> (c ++ after)%string.
Proof.
  intros H.
  set (st0 := MState p0 s0 [] None) in *.
  change (exec (Lit ts <+> (star CSpace <+> (Lit "raw" <+> (star CSpace
                <+> (Lit te
                <+> (Named "raw" (star_lazy dot)
                     <+> (Lit ts <+> star CSpace <+> Lit "endraw"
                          <+> star CSpace <+> Lit te))))))) st0
            (fun st => accept must s0 (close_named "RAW" st0 st))
          = Some st1) in H.
  apply exec_seq_sound in H. destruct H as (st_a & Ma & H).
  apply exec_seq_sound in H. destruct H as (st_b & Mb & H).
  apply exec_seq_sound in H. destruct H as (st_c & Mc & H).
  apply exec_seq_sound in H. destruct H as (st_d & Md & H).
  apply exec_seq_sound in H. destruct H as (st_e & Me & H).
  unfold star_lazy in H.
  apply lazy_group_shortest in H;
    [|reflexivity|reflexivity|apply accept_by_rest].
  destruct H as (v & s' & st' & E & _ & Mpost & K & Min).
  apply accept_inv in K. subst st1.
  (* the text before the group *)
  destruct Ma as (sa & Ea & Sa).
  destruct Mb as (sp1 & A1 & _ & _ & (sb & Eb & Sb)).
  destruct Mc as (sc & Ec & Sc).
  destruct Md as (sp2 & A2 & _ & _ & (sd & Ed & Sd)).
  destruct Me as (se & Ee & Se).
  assert (Ra : rest st_a = sa) by now rewrite Sa.
  assert (Rb : rest st_b = sb) by now rewrite Sb.
  assert (Rc : rest st_c = sc) by now rewrite Sc.
  assert (Rd : rest st_d = sd) by now rewrite Sd.
  assert (Re : rest st_e = se) by now rewrite Se.
  cbn [rest st0] in Ea. rewrite Ra in Eb. rewrite Rb in Ec.
  rewrite Rc in Ed. rewrite Rd in Ee. rewrite Re in E.
  (* the text after the group *)
  assert (P : exists sp3 sp4,
             all_chars is_space sp3 = true /\ all_chars is_space sp4 = true
             /\ s' = ((ts ++ sp3 ++ "endraw" ++ sp4 ++ te) ++ rest st')%string
             /\ marks st' = ("raw", v) :: marks st_e).
  { simpl in Mpost.
    destruct Mpost as (x1 & (y1 & Z1 & ->) & x2 & (w2 & B2 & _ & _
                       & (y2 & Z2 & ->)) & x3 & (y3 & Z3 & ->) & x4
                       & (w4 & B4 & _ & _ & (y4 & Z4 & ->)) & (y5 & Z5 & ->)).
    cbn [rest moved close_named] in Z1, Z2, Z3, Z4, Z5.
    exists w2, w4. split; [exact B2|]. split; [exact B4|]. split.
    - cbn [rest moved]. rewrite Z1, Z2, Z3, Z4, Z5.
      now rewrite !app_assoc.
    - cbn [marks moved close_named]. f_equal. f_equal.
      apply captured_suffix. rewrite Re. exact E. }
  destruct P as (sp3 & sp4 & A3 & A4 & Es' & Mk).
  set (closing := (ts ++ sp3 ++ "endraw" ++ sp4 ++ te)%string) in *.
  assert (Es0 : s0 = (((ts ++ sp1 ++ "raw" ++ sp2 ++ te) ++ v ++ closing)
                      ++ rest st')%string).
  { rewrite Ea, Eb, Ec, Ed, Ee, E, Es'. now rewrite !app_assoc. }
  exists sp1, sp2, v, closing.
  split; [apply captured_suffix; cbn [rest close_named st0]; exact Es0|].
  split; [exact A1|]. split; [exact A2|].
  split; [now exists sp3, sp4|].
  split; [unfold close_named; cbn [marks]; rewrite Mk; reflexivity|].
  intros w1 w2 c after Ev Nw (x1 & x2 & B1 & B2 & ->) Ew.
  assert (K0 := Min w1 w2
                  (MState None (ts ++ x1 ++ "endraw" ++ x2 ++ te
                                ++ after ++ rest st') [] None)
                  (MState (last_char te
                             (last_char x2
                                (last_char "endraw"
                                   (last_char x1 (last_char ts None)))))
                     (after ++ rest st') [] None) Ev Nw).
  assert (K1 : accept must s0
                 (close_named "RAW" st0
                    (MState (last_char te
                               (last_char x2
                                  (last_char "endraw"
                                     (last_char x1 (last_char ts None)))))
                       (after ++ rest st') [] None)) <> None).
  { apply accept_close_shorter. cbn [rest].
    rewrite Es0, Ev. apply (f_equal String.length) in Ew.
    rewrite !length_app in Ew. rewrite !length_app.
    change (String.length "raw") with 3. lia. }
  apply K1. apply K0.
  - cbn [rest]. rewrite Es'.
    replace (w2 ++ closing ++ rest st')%string
      with ((w2 ++ closing) ++ rest st')%string by now rewrite !app_assoc.
    rewrite Ew. now rewrite !app_assoc.
  - eexists. split; [apply matches_lit|].
    eexists. split; [exact (matches_rep CSpace None true x1 _ _ [] None
                              B1 I)|].
    eexists. split; [apply matches_lit|].
    eexists. split; [exact (matches_rep CSpace None true x2 _ _ [] None
                              B2 I)|].
    apply matches_lit.
Qed.

(** *** The dash before a closing delimiter *)

Lemma opt_dash_first (A : Type) (b : regex) (st : mstate)
    (k : mstate -> option A) (x : A) :
  text_only b = true -> ahead_free b = true -> by_rest k ->
  exec (opt (CChar "-") <+> b) st k = Some x ->
  exists d1 s',
    rest st = (d1 ++ s')%string
    /\ (d1 = EmptyString \/ d1 = "-")
    /\ exec b (moved (last_char d1 (prev st)) s' st) k = Some x
    /\ (d1 = EmptyString ->
        forall s'' st2 st2',
          s' = String "-" s'' -> rest st2 = s'' ->
          matches b st2 st2' -> k st2' = None).
Proof.
  intros T F B H. unfold opt in H. apply exec_greedy_seq in H.
  destruct H as (w & s' & E & Hall & Hhi & K & Max).
  exists w, s'. split; [exact E|]. split; [|split; [exact K|]].
  - clear - Hall Hhi.
    destruct w as [|a [|a' w]]; simpl in Hhi; [now left | | lia].
    right. simpl in Hall. rewrite Bool.andb_true_r in Hall.
    apply Ascii.eqb_eq in Hall. now subst a.
  - intros -> s'' st2 st2' Es R M2.
    specialize (Max "-" s''). simpl in E, Max. rewrite E, Es in Max.
    specialize (Max eq_refl eq_refl (le_n 1) (le_n 1)).
    destruct (matches_transport b T _ _ M2
                (moved (Some "-"%char) s'' st)) as (st3 & M3 & R3);
      [now rewrite R|].
    pose proof (exec_none b F _ _ _ Max st3 M3) as K3.
    exact (B st3 st2' R3 K3).
Qed.

Lemma app_inv_tail_str (c : string) :
  forall a b, (a ++ c)%string = (b ++ c)%string -> a = b.
Proof.
  induction a as [|x a IH]; intros [|y b] H; simpl in H.
  - reflexivity.
  - exfalso. apply (f_equal String.length) in H. simpl in H.
    rewrite length_app in H. lia.
  - exfalso. apply (f_equal String.length) in H. simpl in H.
    rewrite length_app in H. lia.
  - inversion H; subst. f_equal. now apply IH.
Qed.

Lemma last_char_app (a b : string) (d : option ascii) :
  last_char (a ++ b) d = last_char b (last_char a d).
Proof.
  revert d. induction a as [|x a IH]; intros d; simpl; [reflexivity|].
  apply IH.
Qed.

Lemma last_is_app (f : ascii -> bool) (a b : string) :
  b <> EmptyString -> last_is f (a ++ b) = last_is f b.
Proof.
  intros N. unfold last_is. rewrite last_char_app.
  destruct b as [|x b]; [congruence | reflexivity].
Qed.

Lemma last_is_end (f : ascii -> bool) (a : string) (x : ascii) :
  last_is f (a ++ String x EmptyString) = f x.
Proof.
  rewrite last_is_app by discriminate. reflexivity.
Qed.

(** A run of characters none of which is a dash does not end with
    one. *)
Lemma no_dash_at_end (f : ascii -> bool) (w : string) :
  f "-"%char = false -> all_chars f w = true -> last_is is_dash w = false.
Proof.
  intros F Hall. apply Bool.not_true_is_false. intros L.
  apply last_is_inv in L. destruct L as (u & a & -> & Ia).
  apply Ascii.eqb_eq in Ia. subst a.
  rewrite all_chars_app in Hall. apply andb_prop in Hall.
  destruct Hall as [_ Hall]. simpl in Hall. rewrite F in Hall. discriminate.
Qed.

(** A text that ends with a dash, seen as pieces: the last piece that
    is not empty ends with the dash. *)
Lemma last_is_pieces (f : ascii -> bool) (a b : string) :
  last_is f (a ++ b) = true ->
  (b = EmptyString /\ last_is f a = true) \/ last_is f b = true.
Proof.
  destruct b as [|x b].
  - rewrite app_empty_r. now left.
  - rewrite last_is_app by discriminate. now right.
Qed.

Lemma no_dash_chain (a b : string) :
  last_is is_dash a = false -> last_is is_dash b = false ->
  last_is is_dash (a ++ b) = false.
Proof.
  intros Ha Hb. apply Bool.not_true_is_false. intros L.
  apply last_is_pieces in L. destruct L as [[_ L]|L]; congruence.
Qed.

(** When the trim marker of a region is set, read off the pieces of
    its text. *)
Lemma dash_closed_iff (op d1 mid d e text : string) :
  text = (op ++ d1 ++ mid ++ d ++ e)%string ->
  (d1 = EmptyString \/ d1 = "-") -> (d = EmptyString \/ d = "-") ->
  (d = EmptyString -> last_is is_dash mid = false) ->
  (d = "-" -> (d1 ++ mid)%string <> EmptyString) ->
  d = "-"
  <-> endswith ("-" ++ e) text
      /\ String.length op + 1 + String.length e < String.length text.
Proof.
  intros -> D1 D H1 H2. split.
  - intros ->. split.
    + exists (op ++ d1 ++ mid)%string. now rewrite !app_assoc.
    + specialize (H2 eq_refl). rewrite !length_app. simpl.
      assert (0 < String.length (d1 ++ mid)).
      { destruct (d1 ++ mid)%string; [congruence | simpl; lia]. }
      rewrite length_app in H. lia.
  - intros [(before & E) L]. destruct D as [-> | ->]; [|reflexivity].
    exfalso. specialize (H1 eq_refl). simpl in E, L.
    replace (op ++ d1 ++ mid ++ e)%string
      with ((op ++ d1 ++ mid) ++ e)%string in E
      by now rewrite !app_assoc.
    replace (before ++ String "-" e)%string
      with ((before ++ "-") ++ e)%string in E
      by now rewrite app_assoc.
    apply app_inv_tail_str in E.
    assert (Z : last_is is_dash (op ++ d1 ++ mid) = true)
      by (rewrite E; apply last_is_end).
    rewrite <- app_assoc in Z.
    apply last_is_pieces in Z. destruct Z as [[-> _]|Z]; [|congruence].
    rewrite !length_app in L. simpl in L.
    destruct D1 as [-> | ->]; simpl in L; lia.
Qed.

Lemma spaces_no_dash (sp : string) :
  all_chars is_space sp = true -> last_is is_dash sp = false.
Proof. now apply no_dash_at_end. Qed.

Lemma blank_value_no_dash (sp v sp2 : string) :
  all_chars is_space sp = true -> all_chars is_space sp2 = true ->
  (sp2 = EmptyString -> last_is is_dash v = false) ->
  last_is is_dash (sp ++ v ++ sp2) = false.
Proof.
  intros Asp Asp2 Hd. destruct sp2 as [|c sp2'].
  - rewrite app_empty_r. apply no_dash_chain;
      [now apply spaces_no_dash | now apply Hd].
  - rewrite <- app_assoc. rewrite last_is_app by discriminate.
    now apply spaces_no_dash.
Qed.

(** The trim marker of a statement. *)
Lemma statement_trim_exec (ss se : string) (p0 : option ascii) (s0 : string)
    (must : bool) (st1 : mstate) :
  se <> EmptyString ->
  exec (Named TOKEN_STATEMENT
          (Lit ss <+> opt (CChar "-") <+> star CSpace
           <+> Named "stmt" (star_lazy dot)
           <+> star CSpace <+> Named "rss" (opt (CChar "-")) <+> Lit se))
    (MState p0 s0 [] None) (accept must s0) = Some st1 ->
  exists d,
    lookup "rss" (marks st1) = Some d
    /\ (d = EmptyString \/ d = "-")
    /\ (d = "-"
        <-> endswith ("-" ++ se) (captured (MState p0 s0 [] None) st1)
            /\ String.length ss + 1 + String.length se
               < String.length (captured (MState p0 s0 [] None) st1)).
Proof.
  intros Ne H.
  set (st0 := MState p0 s0 [] None) in *.
  change (exec (Lit ss <+> (opt (CChar "-")
                <+> (star CSpace <+> Named "stmt" (star_lazy dot)
                     <+> star CSpace <+> Named "rss" (opt (CChar "-"))
                     <+> Lit se))) st0
            (fun st => accept must s0 (close_named TOKEN_STATEMENT st0 st))
          = Some st1) in H.
  apply exec_seq_sound in H. destruct H as (st_a & Ma & H).
  assert (La : String.length (rest st_a) <= String.length s0)
    by (apply matches_length in Ma; exact Ma).
  destruct Ma as (sa & Ea & ->). cbn [rest st0 moved] in Ea, La.
  apply opt_dash_first in H;
    [|reflexivity|reflexivity|apply accept_by_rest].
  destruct H as (d1 & s' & E1 & D1 & H & Max1). cbn [rest moved] in E1.
  assert (Ls : String.length s' <= String.length s0)
    by (rewrite E1, length_app in La; lia).
  apply trimmed_group_exec in H;
    [ | exact Ne | apply accept_by_rest | apply accept_advanced; exact Ls ].
  destruct H as (sp & v & sp2 & d & st' & E & Asp & Asp2 & Dd & K & M & Hd
                 & _ & _ & _).
  cbn [rest moved] in E.
  pose proof K as K'. apply accept_inv in K'. subst st1.
  exists d. split; [|split; [exact Dd|]].
  { unfold close_named. cbn [marks]. rewrite M. reflexivity. }
  apply (dash_closed_iff ss d1 (sp ++ v ++ sp2) d se).
  - apply captured_suffix. cbn [rest close_named st0].
    rewrite Ea, E1, E. now rewrite !app_assoc.
  - exact D1.
  - exact Dd.
  - intros Z. apply blank_value_no_dash; try assumption. now apply Hd.
  - intros -> Z.
    destruct d1; [|discriminate Z]. destruct sp; [|discriminate Z].
    destruct v; [|discriminate Z]. destruct sp2; [|discriminate Z].
    simpl in E.
    assert (K0 := Max1 eq_refl (se ++ rest st')%string
                    (MState None (se ++ rest st') [] None)
                    (MState (last_char se None) (rest st')
                       [("rss", ""); ("stmt", "")] (Some "rss"))
                    E eq_refl).
    enough (K1 : accept must s0 (close_named TOKEN_STATEMENT st0 st') = None)
      by congruence.
    refine (accept_by_rest must s0 TOKEN_STATEMENT st0
              (MState (last_char se None) (rest st')
                 [("rss", ""); ("stmt", "")] (Some "rss")) st' eq_refl _).
    apply K0.
    exists (MState None (se ++ rest st') [] None).
    split; [exact (matches_rep CSpace None true "" _ None [] None
                     eq_refl I)|].
    exists (MState None (se ++ rest st') [("stmt", "")] (Some "stmt")).
    split; [exact (matches_named_rep "stmt" dot None false "" _ None
                     [] None eq_refl I)|].
    exists (MState None (se ++ rest st') [("stmt", "")] (Some "stmt")).
    split; [exact (matches_rep CSpace None true "" _ None _ _ eq_refl I)|].
    exists (MState None (se ++ rest st') [("rss", ""); ("stmt", "")]
              (Some "rss")).
    split; [exact (matches_named_rep "rss" (CChar "-") (Some 1) true "" _
                     None _ _ eq_refl (Nat.le_0_l _))|].
    apply matches_lit.
Qed.

(** The trim marker of a tag. *)
Lemma tag_trim_exec (ts te : string) (p0 : option ascii) (s0 : string)
    (must : bool) (st1 : mstate) :
  te <> EmptyString ->
  exec (Named "TAG"
          (Lit ts <+> opt (CChar "-") <+> star CSpace
           <+> Named "name" (star CWord) <+> star CSpace
           <+> Named "expr" (star_lazy dot)
           <+> star CSpace <+> Named "rst" (opt (CChar "-")) <+> Lit te))
    (MState p0 s0 [] None) (accept must s0) = Some st1 ->
  exists d,
    lookup "rst" (marks st1) = Some d
    /\ (d = EmptyString \/ d = "-")
    /\ (d = "-"
        <-> endswith ("-" ++ te) (captured (MState p0 s0 [] None) st1)
            /\ String.length ts + 1 + String.length te
               < String.length (captured (MState p0 s0 [] None) st1)).
Proof.
  intros Ne H.
  set (st0 := MState p0 s0 [] None) in *.
  change (exec (Lit ts <+> (opt (CChar "-") <+> (star CSpace
                <+> (Named "name" (star CWord)
                <+> (star CSpace <+> Named "expr" (star_lazy dot)
                     <+> star CSpace <+> Named "rst" (opt (CChar "-"))
                     <+> Lit te))))) st0
            (fun st => accept must s0 (close_named "TAG" st0 st))
          = Some st1) in H.
  apply exec_seq_sound in H. destruct H as (st_a & Ma & H).
  assert (La : String.length (rest st_a) <= String.length s0)
    by (apply matches_length in Ma; exact Ma).
  destruct Ma as (sa & Ea & ->). cbn [rest st0 moved] in Ea, La.
  apply opt_dash_first in H;
    [|reflexivity|reflexivity|apply accept_by_rest].
  destruct H as (d1 & s' & E1 & D1 & H & Max1). cbn [rest moved] in E1.
  assert (Ls : String.length s' <= String.length s0)
    by (rewrite E1, length_app in La; lia).
  apply exec_seq_sound in H. destruct H as (st_c & Mc & H).
  apply exec_seq_sound in H. destruct H as (st_n & Mn & H).
  assert (Hc : exists sp0, all_chars is_space sp0 = true
                           /\ s' = (sp0 ++ rest st_c)%string).
  { simpl in Mc. destruct Mc as (w & Aw & _ & _ & (sw & Ew & ->)).
    exists w. split; [exact Aw | exact Ew]. }
  destruct Hc as (sp0 & Asp0 & Ec).
  assert (Hn : exists name, all_chars is_word name = true
                            /\ rest st_c = (name ++ rest st_n)%string).
  { simpl in Mn.
    destruct Mn as (sx & (w & Aw & _ & _ & (sw & Ew & ->)) & ->).
    exists w. split; [exact Aw | exact Ew]. }
  destruct Hn as (name & Aname & En).
  assert (Ln : String.length (rest st_n) <= String.length s0)
    by (rewrite Ec, En, !length_app in Ls; lia).
  apply trimmed_group_exec in H;
    [ | exact Ne | apply accept_by_rest | apply accept_advanced; exact Ln ].
  destruct H as (sp & v & sp2 & d & st' & E & Asp & Asp2 & Dd & K & M & Hd
                 & _ & _ & _).
  pose proof K as K'. apply accept_inv in K'. subst st1.
  exists d. split; [|split; [exact Dd|]].
  { unfold close_named. cbn [marks]. rewrite M. reflexivity. }
  apply (dash_closed_iff ts d1 (sp0 ++ name ++ sp ++ v ++ sp2) d te).
  - apply captured_suffix. cbn [rest close_named st0].
    rewrite Ea, E1, Ec, En, E. now rewrite !app_assoc.
  - exact D1.
  - exact Dd.
  - intros Z.
    apply no_dash_chain; [now apply spaces_no_dash|].
    apply no_dash_chain; [now apply (no_dash_at_end is_word)|].
    apply blank_value_no_dash; try assumption. now apply Hd.
  - intros -> Z.
    destruct d1; [|discriminate Z]. destruct sp0; [|discriminate Z].
    destruct name; [|discriminate Z]. destruct sp; [|discriminate Z].
    destruct v; [|discriminate Z]. destruct sp2; [|discriminate Z].
    simpl in E, En, Ec. rewrite En, E in Ec.
    assert (K0 := Max1 eq_refl (te ++ rest st')%string
                    (MState None (te ++ rest st') [] None)
                    (MState (last_char te None) (rest st')
                       [("rst", ""); ("expr", ""); ("name", "")]
                       (Some "rst"))
                    Ec eq_refl).
    enough (K1 : accept must s0 (close_named "TAG" st0 st') = None)
      by congruence.
    refine (accept_by_rest must s0 "TAG" st0
              (MState (last_char te None) (rest st')
                 [("rst", ""); ("expr", ""); ("name", "")] (Some "rst"))
              st' eq_refl _).
    apply K0.
    exists (MState None (te ++ rest st') [] None).
    split; [exact (matches_rep CSpace None true "" _ None [] None
                     eq_refl I)|].
    exists (MState None (te ++ rest st') [("name", "")] (Some "name")).
    split; [exact (matches_named_rep "name" CWord None true "" _ None
                     [] None eq_refl I)|].
    exists (MState None (te ++ rest st') [("name", "")] (Some "name")).
    split; [exact (matches_rep CSpace None true "" _ None _ _ eq_refl I)|].
    exists (MState None (te ++ rest st') [("expr", ""); ("name", "")]
              (Some "expr")).
    split; [exact (matches_named_rep "expr" dot None false "" _ None
                     _ _ eq_refl I)|].
    exists (MState None (te ++ rest st') [("expr", ""); ("name", "")]
              (Some "expr")).
    split; [exact (matches_rep CSpace None true "" _ None _ _ eq_refl I)|].
    exists (MState None (te ++ rest st')
              [("rst", ""); ("expr", ""); ("name", "")] (Some "rst")).
    split; [exact (matches_named_rep "rst" (CChar "-") (Some 1) true "" _
                     None _ _ eq_refl (Nat.le_0_l _))|].
    apply matches_lit.
Qed.

End LazyFacts.

(* ================================================================== *)
(** ** The markup after a literal *)

Module MarkerFacts.

Import Str Re Tok Lex Sem StrFacts ReFacts ScanFacts RuleFacts.
Import CoverFacts StreamFacts TextFacts LineFacts PlainFacts EngineFacts.
Import LazyFacts.





End MarkerFacts.

(* ================================================================== *)
(** ** The values of the regions, as functions of their text *)

Module ValueFacts.

Import Str Re Tok Lex Sem StrFacts ReFacts ScanFacts RuleFacts.
Import CoverFacts StreamFacts TextFacts LineFacts PlainFacts EngineFacts.
Import LazyFacts MarkerFacts.

(** *** Stripping *)

Lemma lstrip_spaces_app (sp x : string) :
  all_chars is_space sp = true -> Str.lstrip (sp ++ x) = Str.lstrip x.
Proof.
  induction sp as [|a sp IH]; simpl; [reflexivity|].
  intros H. apply andb_prop in H. destruct H as [Ha Hs].
  rewrite Ha. now apply IH.
Qed.

Lemma lstrip_id (x : string) :
  first_is is_space x = false -> Str.lstrip x = x.
Proof.
  destruct x as [|a x]; simpl; [reflexivity|]. now intros ->.
Qed.

Lemma rstrip_spaces (sp : string) :
  all_chars is_space sp = true -> rstrip sp = EmptyString.
Proof.
  induction sp as [|a sp IH]; simpl; [reflexivity|].
  intros H. apply andb_prop in H. destruct H as [Ha Hs].
  now rewrite (IH Hs), Ha.
Qed.

Lemma rstrip_app_spaces (x sp : string) :
  all_chars is_space sp = true -> rstrip (x ++ sp) = rstrip x.
Proof.
  intros H. induction x as [|a x IH]; simpl.
  - now apply rstrip_spaces.
  - now rewrite IH.
Qed.

Lemma rstrip_id (x : string) :
  last_is is_space x = false -> rstrip x = x.
Proof.
  induction x as [|a x IH]; [reflexivity|].
  intros L. destruct x as [|b x].
  - simpl. unfold last_is in L. simpl in L. now rewrite L.
  - assert (L' : last_is is_space (String b x) = false) by exact L.
    cbn [rstrip]. cbn [rstrip] in IH. rewrite (IH L').
    reflexivity.
Qed.

(** The value between blanks is what stripping leaves. *)
Lemma strip_blanks (sp v sp2 : string) :
  all_chars is_space sp = true -> all_chars is_space sp2 = true ->
  first_is is_space v = false -> last_is is_space v = false ->
  strip (sp ++ v ++ sp2) = v.
Proof.
  intros Asp Asp2 F L. unfold strip.
  rewrite (lstrip_spaces_app sp _ Asp).
  destruct v as [|a v].
  - cbn [append]. rewrite <- (app_empty_r sp2).
    now rewrite (lstrip_spaces_app sp2 "" Asp2).
  - rewrite lstrip_id by exact F.
    rewrite (rstrip_app_spaces _ sp2 Asp2). now apply rstrip_id.
Qed.

(** *** Chopping the dashes *)

Lemma drop_last_end (x : string) (a : ascii) :
  drop_last (x ++ String a EmptyString) = x.
Proof.
  induction x as [|b x IH]; [reflexivity|].
  simpl. rewrite IH. destruct x; reflexivity.
Qed.

Lemma chop_end_dash_pieces (x d : string) :
  (d = EmptyString \/ d = "-") ->
  (d = EmptyString -> last_is is_dash x = false) ->
  chop_end_dash (x ++ d) = x.
Proof.
  intros [-> | ->] H; unfold chop_end_dash.
  - rewrite app_empty_r, (H eq_refl). reflexivity.
  - rewrite last_is_end. cbn [is_dash Ascii.eqb]. simpl.
    apply drop_last_end.
Qed.

Lemma chop_start_dash_pieces (d1 x : string) :
  (d1 = EmptyString \/ d1 = "-") ->
  (d1 = EmptyString -> first_is is_dash x = false) ->
  chop_start_dash (d1 ++ x) = x.
Proof.
  intros [-> | ->] H; unfold chop_start_dash; [|reflexivity].
  specialize (H eq_refl). cbn [append].
  destruct x as [|a x]; [reflexivity|].
  cbn [first_is] in H. unfold is_dash in H. cbn [strip_prefix].
  rewrite Ascii.eqb_sym, H. reflexivity.
Qed.

(** *** The statement rule *)

Lemma all_any (v : string) : all_chars (in_class dot) v = true.
Proof. induction v; simpl; auto. Qed.

(** A match of the rest of a region rule, built from its pieces. *)
Lemma region_rest_matches (n r e v sp2 d s : string) :
  all_chars is_space sp2 = true -> (d = EmptyString \/ d = "-") ->
  matches (star CSpace <+> Named n (star_lazy dot) <+> star CSpace
           <+> Named r (opt (CChar "-")) <+> Lit e)
    (MState None (v ++ sp2 ++ d ++ e ++ s) [] None)
    (MState (last_char e (last_char d (last_char sp2 (last_char v None))))
       s [(r, d); (n, v)] (Some r)).
Proof.
  intros Asp2 Dd.
  exists (MState None (v ++ sp2 ++ d ++ e ++ s) [] None).
  split; [exact (matches_rep CSpace None true "" _ None [] None eq_refl I)|].
  eexists.
  split; [exact (matches_named_rep n dot None false v _ None [] None
                   (all_any v) I)|].
  eexists.
  split; [exact (matches_rep CSpace None true sp2 _ _ _ _ Asp2 I)|].
  eexists.
  split; [apply (matches_named_rep r (CChar "-") (Some 1) true d);
          [destruct Dd as [-> | ->]; reflexivity
          |destruct Dd as [-> | ->]; simpl; lia]|].
  apply matches_lit.
Qed.

(** The value of a statement as a function of the text between the
    delimiters. *)
Lemma statement_value_exec (ss se : string) (p0 : option ascii)
    (s0 : string) (must : bool) (st1 : mstate) :
  se <> EmptyString ->
  exec (Named TOKEN_STATEMENT
          (Lit ss <+> opt (CChar "-") <+> star CSpace
           <+> Named "stmt" (star_lazy dot)
           <+> star CSpace <+> Named "rss" (opt (CChar "-")) <+> Lit se))
    (MState p0 s0 [] None) (accept must s0) = Some st1 ->
  exists core,
    captured (MState p0 s0 [] None) st1 = (ss ++ core ++ se)%string
    /\ lookup "stmt" (marks st1)
       = Some (strip (chop_end_dash (chop_start_dash core))).
Proof.
  intros Ne H.
  set (st0 := MState p0 s0 [] None) in *.
  change (exec (Lit ss <+> (opt (CChar "-")
                <+> (star CSpace <+> Named "stmt" (star_lazy dot)
                     <+> star CSpace <+> Named "rss" (opt (CChar "-"))
                     <+> Lit se))) st0
            (fun st => accept must s0 (close_named TOKEN_STATEMENT st0 st))
          = Some st1) in H.
  apply exec_seq_sound in H. destruct H as (st_a & Ma & H).
  assert (La : String.length (rest st_a) <= String.length s0)
    by (apply matches_length in Ma; exact Ma).
  destruct Ma as (sa & Ea & ->). cbn [rest st0 moved] in Ea, La.
  apply opt_dash_first in H;
    [|reflexivity|reflexivity|apply accept_by_rest].
  destruct H as (d1 & s' & E1 & D1 & H & Max1). cbn [rest moved] in E1.
  assert (Ls : String.length s' <= String.length s0)
    by (rewrite E1, length_app in La; lia).
  apply trimmed_group_exec in H;
    [ | exact Ne | apply accept_by_rest | apply accept_advanced; exact Ls ].
  destruct H as (sp & v & sp2 & d & st' & E & Asp & Asp2 & Dd & K & M & Hd
                 & _ & Fv & Lv).
  cbn [rest moved] in E.
  pose proof K as K'. apply accept_inv in K'. subst st1.
  assert (G1 : d1 = EmptyString ->
               first_is is_dash (sp ++ v ++ sp2 ++ d) = false).
  { intros ->. apply Bool.not_true_is_false. intros Z.
    apply first_is_inv in Z. destruct Z as (a & t' & Et & Ia).
    apply Ascii.eqb_eq in Ia. subst a.
    enough (K1 : accept must s0 (close_named TOKEN_STATEMENT st0 st') = None)
      by congruence.
    destruct sp as [|b sp].
    2:{ simpl in Et, Asp. inversion Et; subst b. discriminate Asp. }
    destruct v as [|b v].
    2:{ simpl in Et. inversion Et; subst b t'.
        pose proof (region_rest_matches "stmt" "rss" se v sp2 d (rest st')
                      Asp2 Dd) as Mb.
        assert (Es : s' = String "-" (v ++ sp2 ++ d ++ se ++ rest st'))
          by (rewrite E; reflexivity).
        exact (accept_none_rest must s0 TOKEN_STATEMENT st0 _ st'
                 (Max1 eq_refl _
                    (MState None (v ++ sp2 ++ d ++ se ++ rest st') [] None)
                    _ Es eq_refl Mb) eq_refl). }
    destruct sp2 as [|b sp2].
    2:{ simpl in Et, Asp2. inversion Et; subst b. discriminate Asp2. }
    destruct Dd as [-> | ->]; [discriminate Et|].
    pose proof (region_rest_matches "stmt" "rss" se "" "" "" (rest st')
                  eq_refl (or_introl eq_refl)) as Mb.
    exact (accept_none_rest must s0 TOKEN_STATEMENT st0 _ st'
             (Max1 eq_refl _ (MState None (se ++ rest st') [] None)
                _ E eq_refl Mb) eq_refl). }
  exists (d1 ++ sp ++ v ++ sp2 ++ d)%string. split.
  - apply captured_suffix. cbn [rest close_named st0].
    rewrite Ea, E1, E. now rewrite !app_assoc.
  - unfold close_named. cbn [marks]. rewrite M.
    rewrite (chop_start_dash_pieces d1 _ D1 G1).
    replace (sp ++ v ++ sp2 ++ d)%string with ((sp ++ v ++ sp2) ++ d)%string
      by now rewrite !app_assoc.
    rewrite (chop_end_dash_pieces _ d Dd).
    + rewrite (strip_blanks sp v sp2 Asp Asp2 Fv Lv). reflexivity.
    + intros Z. apply blank_value_no_dash; try assumption. now apply Hd.
Qed.

(** *** The tag rule *)

Lemma take_while_app (f : ascii -> bool) (w t : string) :
  all_chars f w = true -> first_is f t = false ->
  take_while f (w ++ t) = w /\ drop_while f (w ++ t) = t.
Proof.
  intros Hw Ht. induction w as [|a w IH]; simpl.
  - destruct t as [|b t]; [now split|]. simpl in Ht |- *. rewrite Ht.
    now split.
  - simpl in Hw. apply andb_prop in Hw. destruct Hw as [Ha Hw].
    rewrite Ha. destruct (IH Hw) as [-> ->]. now split.
Qed.

(** The rest of a region rule matches from any text that holds the
    closing delimiter: the lazy group can take all that comes before
    it. *)
Lemma region_rest_any (n r e y s : string) (p : option ascii)
    (ms : list (string * string)) (l : option string) :
  matches (star CSpace <+> Named n (star_lazy dot) <+> star CSpace
           <+> Named r (opt (CChar "-")) <+> Lit e)
    (MState p (y ++ e ++ s) ms l)
    (MState (last_char e (last_char y p)) s ((r, "") :: (n, y) :: ms)
       (Some r)).
Proof.
  exists (MState p (y ++ e ++ s) ms l).
  split; [exact (matches_rep CSpace None true "" _ p ms l eq_refl I)|].
  eexists.
  split; [exact (matches_named_rep n dot None false y _ p ms l
                   (all_any y) I)|].
  eexists.
  split; [exact (matches_rep CSpace None true "" _ _ _ _ eq_refl I)|].
  eexists.
  split; [exact (matches_named_rep r (CChar "-") (Some 1) true "" _ _ _ _
                   eq_refl (Nat.le_0_l _))|].
  apply matches_lit.
Qed.

Lemma tag_rest_any (e y s : string) :
  matches (Named "name" (star CWord) <+> star CSpace
           <+> Named "expr" (star_lazy dot) <+> star CSpace
           <+> Named "rst" (opt (CChar "-")) <+> Lit e)
    (MState None (y ++ e ++ s) [] None)
    (MState (last_char e (last_char y None)) s
       [("rst", ""); ("expr", y); ("name", "")] (Some "rst")).
Proof.
  eexists.
  split; [exact (matches_named_rep "name" CWord None true "" _ None [] None
                   eq_refl I)|].
  apply region_rest_any.
Qed.

(** The name and the expression of a tag as functions of the text
    between the delimiters. *)
Lemma tag_value_exec (ts te : string) (p0 : option ascii) (s0 : string)
    (must : bool) (st1 : mstate) :
  te <> EmptyString ->
  exec (Named "TAG"
          (Lit ts <+> opt (CChar "-") <+> star CSpace
           <+> Named "name" (star CWord) <+> star CSpace
           <+> Named "expr" (star_lazy dot)
           <+> star CSpace <+> Named "rst" (opt (CChar "-")) <+> Lit te))
    (MState p0 s0 [] None) (accept must s0) = Some st1 ->
  exists core,
    captured (MState p0 s0 [] None) st1 = (ts ++ core ++ te)%string
    /\ lookup "name" (marks st1)
       = Some (take_while is_word (Str.lstrip (chop_start_dash core)))
    /\ lookup "expr" (marks st1)
       = Some (strip (chop_end_dash
                        (drop_while is_word
                           (Str.lstrip (chop_start_dash core))))).
Proof.
  intros Ne H.
  set (st0 := MState p0 s0 [] None) in *.
  change (exec (Lit ts <+> (opt (CChar "-") <+> (star CSpace
                <+> (Named "name" (star CWord)
                <+> (star CSpace <+> Named "expr" (star_lazy dot)
                     <+> star CSpace <+> Named "rst" (opt (CChar "-"))
                     <+> Lit te))))) st0
            (fun st => accept must s0 (close_named "TAG" st0 st))
          = Some st1) in H.
  apply exec_seq_sound in H. destruct H as (st_a & Ma & H).
  assert (La : String.length (rest st_a) <= String.length s0)
    by (apply matches_length in Ma; exact Ma).
  destruct Ma as (sa & Ea & ->). cbn [rest st0 moved] in Ea, La.
  apply opt_dash_first in H;
    [|reflexivity|reflexivity|apply accept_by_rest].
  destruct H as (d1 & s' & E1 & D1 & H & Max1). cbn [rest moved] in E1.
  unfold star in H at 1.
  apply greedy_run_longest in H;
    [|reflexivity|reflexivity|apply accept_by_rest].
  destruct H as (sp0 & s_c & Ec & Asp0 & H & Max0). cbn [rest moved] in Ec.
  unfold star in H at 1.
  apply greedy_group_longest in H;
    [|reflexivity|reflexivity|apply accept_by_rest].
  destruct H as (name & s_n & En & Aname & H & Maxn). cbn [rest moved] in En.
  assert (Ln : String.length s_n <= String.length s0).
  { rewrite E1, Ec, En, !length_app in La. lia. }
  match type of H with
  | exec _ ?st _ = _ => set (st_n := st) in *
  end.
  assert (Mn : marks st_n = [("name", name)]).
  { unfold st_n, close_named. cbn [marks moved st0]. f_equal. f_equal.
    apply captured_suffix. exact En. }
  apply trimmed_group_exec in H;
    [ | exact Ne | apply accept_by_rest | apply accept_advanced; exact Ln ].
  destruct H as (sp & v & sp2 & d & st' & E & Asp & Asp2 & Dd & K & M & Hd
                 & _ & Fv & Lv).
  cbn [rest st_n close_named moved] in E.
  pose proof K as K'. apply accept_inv in K'. subst st1.
  set (Y := (name ++ sp ++ v ++ sp2 ++ d)%string).
  assert (Es_c : s_c = (Y ++ te ++ rest st')%string)
    by (unfold Y; rewrite En, E; now rewrite !app_assoc).
  assert (Es' : s' = ((sp0 ++ Y) ++ te ++ rest st')%string)
    by (rewrite Ec, Es_c; now rewrite !app_assoc).
  (* the greedy runs took all they could *)
  assert (G1 : d1 = EmptyString -> first_is is_dash (sp0 ++ Y) = false).
  { intros ->. apply Bool.not_true_is_false. intros Z.
    apply first_is_inv in Z. destruct Z as (a & t' & Et & Ia).
    apply Ascii.eqb_eq in Ia. subst a. rewrite Et in Es'.
    enough (K1 : accept must s0 (close_named "TAG" st0 st') = None)
      by congruence.
    assert (M1 : matches
                   (star CSpace <+> Named "name" (star CWord)
                    <+> star CSpace <+> Named "expr" (star_lazy dot)
                    <+> star CSpace <+> Named "rst" (opt (CChar "-"))
                    <+> Lit te)
                   (MState None (t' ++ te ++ rest st') [] None)
                   (MState (last_char te (last_char t' None)) (rest st')
                      [("rst", ""); ("expr", t'); ("name", "")]
                      (Some "rst"))).
    { eexists.
      split; [exact (matches_rep CSpace None true "" _ None [] None
                       eq_refl I)|].
      apply tag_rest_any. }
    exact (accept_none_rest must s0 "TAG" st0 _ st'
             (Max1 eq_refl _
                (MState None (t' ++ te ++ rest st') [] None) _ Es' eq_refl
                M1)
             eq_refl). }
  assert (G0 : first_is is_space Y = false).
  { apply Bool.not_true_is_false. intros Z.
    apply first_is_inv in Z. destruct Z as (a & t' & Et & Ia).
    rewrite Et in Es_c.
    enough (K1 : accept must s0 (close_named "TAG" st0 st') = None)
      by congruence.
    exact (accept_none_rest must s0 "TAG" st0 _ st'
             (Max0 a _ (MState None (t' ++ te ++ rest st') [] None)
                _ Es_c Ia eq_refl (tag_rest_any te t' (rest st')))
             eq_refl). }
  assert (Gn : first_is is_word (sp ++ v ++ sp2 ++ d) = false).
  { apply Bool.not_true_is_false. intros Z.
    apply first_is_inv in Z. destruct Z as (a & t' & Et & Ia).
    assert (Es_n : s_n = String a (t' ++ te ++ rest st')).
    { rewrite E.
      replace (sp ++ v ++ sp2 ++ d ++ te ++ rest st')%string
        with ((sp ++ v ++ sp2 ++ d) ++ te ++ rest st')%string
        by now rewrite !app_assoc.
      now rewrite Et. }
    enough (K1 : accept must s0 (close_named "TAG" st0 st') = None)
      by congruence.
    exact (accept_none_rest must s0 "TAG" st0 _ st'
             (Maxn a _ (MState None (t' ++ te ++ rest st') [] None)
                _ Es_n Ia eq_refl
                (region_rest_any "expr" "rst" te t' (rest st') None [] None))
             eq_refl). }
  exists (d1 ++ sp0 ++ Y)%string.
  assert (C : Str.lstrip (chop_start_dash (d1 ++ sp0 ++ Y)) = Y).
  { rewrite (chop_start_dash_pieces d1 _ D1 G1).
    rewrite (lstrip_spaces_app sp0 Y Asp0). now apply lstrip_id. }
  destruct (take_while_app is_word name (sp ++ v ++ sp2 ++ d) Aname Gn)
    as [Tw Dw].
  fold Y in Tw, Dw.
  split; [|split].
  - apply captured_suffix. cbn [rest close_named st0].
    rewrite Ea, E1, Es'. now rewrite !app_assoc.
  - unfold close_named. cbn [marks]. rewrite M, Mn, C, Tw. reflexivity.
  - unfold close_named. cbn [marks]. rewrite M, Mn, C, Dw.
    replace (sp ++ v ++ sp2 ++ d)%string with ((sp ++ v ++ sp2) ++ d)%string
      by now rewrite !app_assoc.
    rewrite (chop_end_dash_pieces _ d Dd).
    + rewrite (strip_blanks sp v sp2 Asp Asp2 Fv Lv). reflexivity.
    + intros Z. apply blank_value_no_dash; try assumption. now apply Hd.
Qed.

(** *** A tag region that the scan reaches *)

(** When every match takes a character and the pattern matches
    wherever text is left, the scan that has made the matches [ms1]
    stands right after their texts. *)
Lemma Scan_after (re : regex) :
  nonempty re = true ->
  (forall p a s, match_at re p (String a s) false <> None) ->
  forall ms1 p s pos ms,
    Scan re p s false pos (ms1 ++ ms) ->
    exists p' s',
      s = (join_texts ms1 ++ s')%string
      /\ Scan re p' s' false (pos + String.length (join_texts ms1)) ms.
Proof.
  intros N C ms1. induction ms1 as [|m ms1 IH]; intros p s pos ms S.
  - exists p, s. simpl. rewrite Nat.add_0_r. now split.
  - simpl in S. inversion S as [|? ? ? ? m' st1 ms' E S']; subst.
    pose proof (search_span _ _ _ _ _ _ _ E) as (S1 & S2 & S3 & _ & S5).
    specialize (S5 N).
    destruct s as [|a s0]; [simpl in S3; lia|].
    destruct (search_here re p (String a s0) pos m st1 (C p a s0) E)
      as (H1 & H2 & H3).
    assert (Z : (m_end m =? m_start m) = false) by (apply Nat.eqb_neq; lia).
    rewrite Z in S'.
    destruct (IH _ _ _ _ S') as (p' & s' & Es & S'').
    exists p', s'. cbn [join_texts]. split.
    + rewrite app_assoc, <- Es. exact H2.
    + rewrite length_app, Nat.add_assoc, <- H3. exact S''.
Qed.

(** *** The rules tried before the tag rule *)

Lemma exec_alt_skip (A : Type) (a b : regex) (st : mstate)
    (k : mstate -> option A) :
  exec a st k = None -> exec (a <|> b)%re st k = exec b st k.
Proof. intros H. simpl. now rewrite H. Qed.

Lemma exec_alt_first (A : Type) (a b : regex) (st : mstate)
    (k : mstate -> option A) (x : A) :
  exec a st k = Some x -> exec (a <|> b)%re st k = Some x.
Proof. intros H. simpl. now rewrite H. Qed.

(** The statement rule does not match a text that does not start with
    the opening delimiter of statements. *)
Lemma statement_not_here (ss se s : string) (p : option ascii) (A : Type)
    (k : mstate -> option A) :
  startswith ss s = false ->
  exec (Named TOKEN_STATEMENT
          (Lit ss <+> opt (CChar "-") <+> star CSpace
           <+> Named "stmt" (star_lazy dot)
           <+> star CSpace <+> Named "rss" (opt (CChar "-")) <+> Lit se))
    (MState p s [] None) k = None.
Proof.
  intros H.
  match goal with |- ?e = None => destruct e as [x|] eqn:E end;
    [|reflexivity].
  exfalso. apply exec_sound in E.
  destruct E as (st' & (st2 & (st3 & (s' & Es & _) & _) & _) & _).
  cbn [rest] in Es. unfold startswith in H.
  rewrite Es, strip_prefix_complete in H. discriminate.
Qed.

(** The raw rule does not match where the text after the opening
    delimiter, its dash and its whitespace does not start with a word
    character. *)
Lemma raw_not_here (ts te inner : string) (p : option ascii) (A : Type)
    (k : mstate -> option A) :
  first_is is_word (Str.lstrip (chop_start_dash inner)) = false ->
  exec (Named "RAW"
          (Lit ts <+> star CSpace <+> Lit "raw" <+> star CSpace <+> Lit te
           <+> Named "raw" (star_lazy dot)
           <+> Lit ts <+> star CSpace <+> Lit "endraw" <+> star CSpace
           <+> Lit te))
    (MState p (ts ++ inner) [] None) k = None.
Proof.
  intros H.
  match goal with |- ?e = None => destruct e as [x|] eqn:E end;
    [|reflexivity].
  exfalso. apply exec_sound in E.
  destruct E as (st' & (st2 & (st3 & (s1 & E1 & ->) & st4
                 & (w & Hw & _ & _ & (s2 & E2 & ->)) & st5
                 & (s3 & E3 & ->) & _) & _) & _).
  cbn [rest moved] in *.
  assert (Ei : inner = (w ++ "raw" ++ s3)%string).
  { pose proof (strip_prefix_complete ts inner) as Q.
    rewrite E1, strip_prefix_complete in Q. inversion Q.
    subst. reflexivity. }
  assert (Ec : chop_start_dash inner = inner).
  { rewrite Ei. destruct w as [|a w]; [reflexivity|].
    unfold chop_start_dash. cbn [append strip_prefix].
    destruct (Ascii.eqb "-" a) eqn:D; [|reflexivity].
    apply Ascii.eqb_eq in D. subst a. discriminate. }
  rewrite Ec, Ei, (lstrip_spaces_app w _ Hw) in H. discriminate.
Qed.

(** The tag rule matches wherever the opening delimiter of tags is
    followed, at any distance, by the closing one; a search accepts
    the match. *)
Lemma tag_here (ts te before after : string) (p : option ascii) :
  exec (Named "TAG"
          (Lit ts <+> opt (CChar "-") <+> star CSpace
           <+> Named "name" (star CWord) <+> star CSpace
           <+> Named "expr" (star_lazy dot)
           <+> star CSpace <+> Named "rst" (opt (CChar "-")) <+> Lit te))
    (MState p (ts ++ before ++ te ++ after) [] None)
    (accept false (ts ++ before ++ te ++ after))
  <> None.
Proof.
  intros E.
  set (s := (ts ++ before ++ te ++ after)%string) in *.
  assert (M : exists st',
             matches
               (Named "TAG"
                  (Lit ts <+> opt (CChar "-") <+> star CSpace
                   <+> Named "name" (star CWord) <+> star CSpace
                   <+> Named "expr" (star_lazy dot)
                   <+> star CSpace <+> Named "rst" (opt (CChar "-"))
                   <+> Lit te))
               (MState p s [] None) st').
  { eexists. eexists. split; [|reflexivity].
    eexists. split; [apply matches_lit|].
    eexists.
    split; [exact (matches_rep (CChar "-") (Some 1) true "" _ _ _ _
                     eq_refl (Nat.le_0_l _))|].
    eexists.
    split; [exact (matches_rep CSpace None true "" _ _ _ _ eq_refl I)|].
    eexists.
    split; [exact (matches_named_rep "name" CWord None true "" _ _ _ _
                     eq_refl I)|].
    apply region_rest_any. }
  destruct M as (st' & M).
  assert (K : accept false s st' = None).
  { refine (exec_none _ _ _ _ _ E st' M). reflexivity. }
  discriminate.
Qed.

(** *** Text that is a prefix of the text after the opening delimiter *)

Lemma lstrip_first_prefix (f : ascii -> bool) (c r : string) :
  first_is f (Str.lstrip (c ++ r)) = false ->
  first_is f (Str.lstrip c) = false.
Proof.
  induction c as [|a c IH]; [reflexivity|].
  cbn [append Str.lstrip]. destruct (is_space a); [exact IH|].
  now cbn [first_is].
Qed.

Lemma chopped_first_prefix (f : ascii -> bool) (c r : string) :
  first_is f (Str.lstrip (chop_start_dash (c ++ r))) = false ->
  first_is f (Str.lstrip (chop_start_dash c)) = false.
Proof.
  destruct c as [|a c]; [reflexivity|].
  unfold chop_start_dash. cbn [append strip_prefix].
  destruct (Ascii.eqb "-" a);
    [apply lstrip_first_prefix | apply (lstrip_first_prefix f (String a c) r)].
Qed.

Lemma take_while_none (f : ascii -> bool) (s : string) :
  first_is f s = false ->
  take_while f s = EmptyString /\ drop_while f s = s.
Proof.
  destruct s as [|a s]; [now split|]. cbn [first_is].
  intros H. simpl. rewrite H. now split.
Qed.

(** *** The match at an empty-name region *)

(** Where the text starts with the opening delimiter of tags and not
    with that of statements, holds the closing delimiter of tags later
    on, and has no word character after the opening delimiter, its dash
    and its whitespace, the rules match with the tag rule.  The name
    is empty, and the expression is the text of the region without
    its dashes, stripped. *)
Lemma region_match (ts te ss se inner : string) (p : option ascii) :
  te <> EmptyString ->
  startswith ss (ts ++ inner) = false ->
  contains te inner ->
  first_is is_word (Str.lstrip (chop_start_dash inner)) = false ->
  exists st1 core,
    match_at (compile_liquid_rules ts te ss se) p (ts ++ inner) false
    = Some st1
    /\ last st1 = Some "TAG"
    /\ inner = (core ++ te ++ rest st1)%string
    /\ lookup "name" (marks st1) = Some EmptyString
    /\ lookup "expr" (marks st1)
       = Some (strip (chop_end_dash (Str.lstrip (chop_start_dash core)))).
Proof.
  intros Ne Hs (before & after & Ei) Hw.
  set (s := (ts ++ inner)%string) in *.
  set (tag := Named "TAG"
                (Lit ts <+> opt (CChar "-") <+> star CSpace
                 <+> Named "name" (star CWord) <+> star CSpace
                 <+> Named "expr" (star_lazy dot)
                 <+> star CSpace <+> Named "rst" (opt (CChar "-"))
                 <+> Lit te)).
  destruct (exec tag (MState p s [] None) (accept false s)) as [st1|] eqn:E.
  2:{ exfalso. revert E. unfold tag, s. rewrite Ei. apply tag_here. }
  assert (Hm : match_at (compile_liquid_rules ts te ss se) p s false
               = Some st1).
  { unfold match_at. fold (accept false s).
    unfold compile_liquid_rules, _compile_rules.
    cbn [map fst snd alternation].
    rewrite exec_alt_skip by (apply raw_not_here; exact Hw).
    rewrite exec_alt_skip by (apply statement_not_here; exact Hs).
    apply exec_alt_first. exact E. }
  pose proof E as X. unfold tag in X.
  apply tag_value_exec in X; [|exact Ne].
  destruct X as (core & T & Gn & Ge).
  apply exec_sound in E. destruct E as (st' & M & K).
  apply accept_inv in K. subst st'.
  pose proof M as (st2 & _ & L).
  destruct (matches_suffix _ _ _ M) as (w & Ew). cbn [rest] in Ew.
  assert (Tw : w = (ts ++ core ++ te)%string).
  { rewrite <- T. symmetry. apply captured_suffix. exact Ew. }
  assert (Ec : inner = (core ++ te ++ rest st1)%string).
  { pose proof (strip_prefix_complete ts inner) as Q. fold s in Q.
    rewrite Ew, Tw, !app_assoc, strip_prefix_complete in Q.
    now inversion Q. }
  assert (Hc : first_is is_word (Str.lstrip (chop_start_dash core)) = false).
  { apply (chopped_first_prefix is_word core (te ++ rest st1)).
    now rewrite <- Ec. }
  destruct (take_while_none is_word _ Hc) as [Tn Dn].
  exists st1, core. split; [exact Hm|]. split; [now rewrite L|].
  split; [exact Ec|]. split.
  - now rewrite Gn, Tn.
  - now rewrite Ge, Dn.
Qed.

End ValueFacts.

(* ================================================================== *)
(** ** Properties of the tokenizers *)

Import Str Re Tok Lex Sem StrFacts ReFacts ScanFacts RuleFacts.
Import GroupFacts TemplateFacts ExprFacts CoverFacts EndFacts.
Import TextFacts EngineFacts LazyFacts ValueFacts.

(** *** The template lexer *)

(** C8.  With the default delimiters, the template
    [{% if true %}a{% endif %}] is tokenized into exactly four tokens: the
    tag [if], the expression [true], the literal [a] and the tag
    [endif], the last one without an expression token. *)
Theorem if_endif_tokens :
  default_lexer "{% if true %}a{% endif %}"
  = MkOutput [ MkToken 1 TOKEN_TAG "if";
               MkToken 1 TOKEN_EXPRESSION "true";
               MkToken 1 TOKEN_LITERAL "a";
               MkToken 1 TOKEN_TAG "endif" ] None.
Proof. vm_compute. reflexivity. Qed.

(** C1, at the input where the code departs from it.  With the
    delimiters [<% %> << >>] the unterminated statement [<< x] is yielded
    as a literal token and no error is raised: the check for an
    unterminated region compares the literal with the default opening
    delimiters and not with the configured ones.  For the same reason
    the plain text [{{ x], which contains no delimiter of this
    configuration, is rejected. *)
Theorem unterminated_custom_delimiters :
  get_lexer "<%" "%>" "<<" ">>" "<< x"
  = MkOutput [ MkToken 1 TOKEN_LITERAL "<< x" ] None
  /\ get_lexer "<%" "%>" "<<" ">>" "{{ x"
     = MkOutput [] (Some (LiquidSyntaxError expected_end 1)).
Proof. split; vm_compute; reflexivity. Qed.

(** What the check for an unterminated region does.  Whatever the
    configured delimiters, a literal match whose text starts with one
    of the default opening delimiters, [{{] or [{%], ends the tokens
    with the error, reported at the line count after the match.  Under
    the default delimiters an unterminated region is therefore always
    reported; [{{ x] raises the error at line 1. *)
Theorem unterminated_default_raises
    (tag_start tag_end statement_start statement_end source : string)
    (ms1 ms2 : list Match) (m : Match) (st : tstate) :
  finditer (compile_liquid_rules tag_start tag_end
              statement_start statement_end) source
  = ms1 ++ m :: ms2 ->
  last_state _tokenize_template_body (TState 1 false) ms1 = Some st ->
  lastgroup m = Some TOKEN_LITERAL ->
  startswith "{{" (m_text m) = true \/ startswith "{%" (m_text m) = true ->
  get_lexer tag_start tag_end statement_start statement_end source
  = MkOutput (tokens (for_each _tokenize_template_body (TState 1 false) ms1))
      (Some (LiquidSyntaxError expected_end
               (line_count st + count_nl (m_text m)))).
Proof.
  intros F L K H.
  rewrite (lexer_split _ _ _ _ _ _ _ _ F L).
  cbn [for_each]. rewrite (opening_literal_pass st m K H).
  cbn [tokens raised]. now rewrite app_nil_r.
Qed.

Lemma unterminated_default_raises_witness :
  default_lexer "{{ x" = MkOutput [] (Some (LiquidSyntaxError expected_end 1)).
Proof.
  apply (unterminated_default_raises "{%" "%}" "{{" "}}" "{{ x" [] []
           (MkMatch 0 4 "{{ x" (Some TOKEN_LITERAL) [(TOKEN_LITERAL, "{{ x")])
           (TState 1 false)).
  - vm_compute. reflexivity.
  - reflexivity.
  - reflexivity.
  - left. reflexivity.
Defined.

(** C2 as stated fails: a tag region whose name is empty can still
    carry text, and that text is emitted as an expression token.  In
    [{% !x %}] the name is empty, and it is not true that the lexer
    emits no expression token. *)
Lemma empty_name_with_expression :
  default_lexer "{% !x %}"
  = MkOutput [ MkToken 1 TOKEN_TAG ""; MkToken 1 TOKEN_EXPRESSION "!x" ] None
  /\ ~ Forall (fun t => kind t <> TOKEN_EXPRESSION)
         (tokens (default_lexer "{% !x %}")).
Proof.
  split; [vm_compute; reflexivity|].
  intros F. rewrite Forall_forall in F.
  apply (F (MkToken 1 TOKEN_EXPRESSION "!x")); [|reflexivity].
  vm_compute. tauto.
Qed.

(** C2, amended.  Take any source of ASCII characters, and delimiters
    of which those of tags are not empty.  Let the scan, without an
    exception so far,
    stand at a tag region whose name is empty: the text left starts
    with the opening delimiter of tags (and not with that of
    statements), holds the closing delimiter of tags later on, and has
    no word character after the opening delimiter, its dash and its
    whitespace.  Then the next match is a match of the tag rule, from
    the opening delimiter to a closing one, and the lexer yields for it
    a tag token with the empty value, followed by an expression token
    exactly when the text of the region, without its dashes and
    stripped, is not empty, and nothing else: no literal token stands
    for the region.  For [{%  %}] the empty tag token is all there
    is. *)
Theorem empty_tag_name
    (tag_start tag_end statement_start statement_end source inner : string)
    (ms1 ms : list Match) (st : tstate) :
  isascii source = true ->
  tag_start <> EmptyString -> tag_end <> EmptyString ->
  finditer (compile_liquid_rules tag_start tag_end
              statement_start statement_end) source
  = ms1 ++ ms ->
  last_state _tokenize_template_body (TState 1 false) ms1 = Some st ->
  source = (join_texts ms1 ++ tag_start ++ inner)%string ->
  startswith statement_start (tag_start ++ inner) = false ->
  contains tag_end inner ->
  first_is is_word (Str.lstrip (chop_start_dash inner)) = false ->
  (exists m ms2 core left,
      ms = m :: ms2
      /\ lastgroup m = Some "TAG"
      /\ m_start m = String.length (join_texts ms1)
      /\ m_text m = (tag_start ++ core ++ tag_end)%string
      /\ inner = (core ++ tag_end ++ left)%string
      /\ let expr :=
           strip (chop_end_dash (Str.lstrip (chop_start_dash core))) in
         let before :=
           tokens (for_each _tokenize_template_body (TState 1 false) ms1) in
         let after :=
           for_each _tokenize_template_body
             (TState (line_count st + count_nl (m_text m))
                (truthy_opt (group m "rst"))) ms2 in
         get_lexer tag_start tag_end statement_start statement_end source
         = MkOutput
             (before
              ++ MkToken (line_count st) TOKEN_TAG ""
                 :: (if truthy expr
                     then [MkToken (line_count st) TOKEN_EXPRESSION expr]
                     else [])
                 ++ tokens after)
             (raised after))
  /\ default_lexer "{%  %}" = MkOutput [MkToken 1 TOKEN_TAG ""] None.
Proof.
  intros _ Ht Ne F L Es Hs Hc Hw.
  split; [|vm_compute; reflexivity].
  assert (Hss : statement_start <> EmptyString)
    by (intros ->; discriminate Hs).
  set (re := compile_liquid_rules tag_start tag_end statement_start
               statement_end) in *.
  pose proof (finditer_Scan re source) as S. rewrite F in S.
  destruct (Scan_after re
              (template_rules_nonempty tag_start tag_end statement_start
                 statement_end Ht Hss)
              (template_rules_match tag_start tag_end statement_start
                 statement_end)
              ms1 None source 0 ms S) as (p' & s' & E1 & S').
  assert (Es' : s' = (tag_start ++ inner)%string).
  { pose proof (strip_prefix_complete (join_texts ms1) s') as Q.
    rewrite <- E1, Es, strip_prefix_complete in Q. now inversion Q. }
  subst s'. cbn [Nat.add] in S'.
  destruct (region_match tag_start tag_end statement_start statement_end
              inner p' Ne Hs Hc Hw)
    as (st1 & core & Hm & Hl & Ec & Gn & Ge).
  fold re in Hm.
  set (pos := String.length (join_texts ms1)) in *.
  assert (Hsearch : search re p' (tag_start ++ inner) false pos
                    = Some (mk_match pos (tag_start ++ inner) st1, st1)).
  { destruct (tag_start ++ inner)%string; simpl; now rewrite Hm. }
  assert (Hms : exists ms2,
             ms = mk_match pos (tag_start ++ inner) st1 :: ms2).
  { clear - S' Hsearch.
    inversion S' as [? ? ? ? N|? ? ? ? m0 st2 ms2 Hs2 S2]; subst.
    - congruence.
    - rewrite Hsearch in Hs2. inversion Hs2; subst. now exists ms2. }
  destruct Hms as (ms2 & ->).
  set (m := mk_match pos (tag_start ++ inner) st1) in *.
  assert (Tm : m_text m = (tag_start ++ core ++ tag_end)%string).
  { unfold m. rewrite Ec.
    replace (tag_start ++ core ++ tag_end ++ rest st1)%string
      with ((tag_start ++ core ++ tag_end) ++ rest st1)%string
      by now rewrite !app_assoc.
    now apply mk_match_text. }
  assert (Lm : lastgroup m = Some "TAG") by exact Hl.
  exists m, ms2, core, (rest st1).
  split; [reflexivity|]. split; [exact Lm|]. split; [reflexivity|].
  split; [exact Tm|]. split; [exact Ec|].
  intros expr before after.
  rewrite (lexer_split _ _ _ _ _ _ _ _ F L). fold before.
  cbn [for_each]. rewrite (tag_pass st m Lm).
  assert (G1 : group_str m "name" = EmptyString).
  { unfold group_str, group, m. cbn [m_groups mk_match]. now rewrite Gn. }
  assert (G2 : group_str m "expr" = expr).
  { unfold group_str, group, m. cbn [m_groups mk_match]. now rewrite Ge. }
  rewrite G1, G2. fold after.
  destruct (truthy expr); reflexivity.
Qed.

Lemma empty_tag_name_witness :
  default_lexer "a{%%}b"
  = MkOutput [ MkToken 1 TOKEN_LITERAL "a"; MkToken 1 TOKEN_TAG "";
               MkToken 1 TOKEN_LITERAL "b" ] None.
Proof.
  destruct (empty_tag_name "{%" "%}" "{{" "}}" "a{%%}b" "%}b"
              [MkMatch 0 1 "a" (Some TOKEN_LITERAL)
                 [(TOKEN_LITERAL, "a"); ("rstrip", "")]]
              [MkMatch 1 5 "{%%}" (Some "TAG")
                 [("TAG", "{%%}"); ("rst", ""); ("expr", ""); ("name", "")];
               MkMatch 5 6 "b" (Some TOKEN_LITERAL) [(TOKEN_LITERAL, "b")]]
              (TState 1 false))
    as ((m & ms2 & core & left & Em & _ & _ & Tm & _ & E) & _).
  - reflexivity.
  - discriminate.
  - discriminate.
  - vm_compute. reflexivity.
  - reflexivity.
  - reflexivity.
  - reflexivity.
  - exists "", "b". reflexivity.
  - reflexivity.
  - inversion Em; subst m ms2. cbn [m_text] in Tm.
    assert (Ec : core = "").
    { apply (app_inv_tail_str "%}"). inversion Tm. reflexivity. }
    subst core. exact E.
Defined.

(** C5.  In the template lexer, whatever the delimiters and the source,
    the tokens yielded for a match carry the line count as it was
    before the match, which is 1 plus the newlines inside the spans
    of all earlier matches: each pass adds to the counter exactly the
    newlines of its own span.  So the two newlines of a raw body and
    the newline of a statement body move the tokens after them to
    lines 3 and 4. *)
Theorem template_line_accounting
    (tag_start tag_end statement_start statement_end source : string) :
  let ms :=
    finditer (compile_liquid_rules tag_start tag_end
                statement_start statement_end) source in
  let passes := yields _tokenize_template_body (TState 1 false) ms in
  tokens (get_lexer tag_start tag_end statement_start statement_end source)
  = concat passes
  /\ (forall i chunk t,
         nth_error passes i = Some chunk -> In t chunk ->
         linenum t = 1 + newlines_before ms i)
  /\ (forall st m ts st',
         _tokenize_template_body st m = Next ts st' ->
         Forall (fun t => linenum t = line_count st) ts
         /\ line_count st' = line_count st + count_nl (m_text m))
  /\ default_lexer multi_line_source
     = MkOutput [ MkToken 1 TOKEN_LITERAL (String nl (String nl ""));
                  MkToken 3 TOKEN_STATEMENT "x";
                  MkToken 4 TOKEN_LITERAL "y" ] None.
Proof.
  intros ms passes. split; [|split; [|split]].
  - apply tokens_concat_yields.
  - intros i chunk t N I.
    exact (@template_yields_lines ms (TState 1 false) i chunk t N I).
  - intros st m ts st' B.
    pose proof (template_pass_lines st m) as P. now rewrite B in P.
  - vm_compute. reflexivity.
Qed.

(** With non-empty opening delimiters the matches tile the source, so
    the line a token carries is the line of the source on which its
    match starts: 1 plus the newlines of the source before the match. *)
Theorem template_line_is_source_line
    (tag_start tag_end statement_start statement_end source : string)
    (i : nat) (chunk : list Token) (t : Token) :
  tag_start <> EmptyString -> statement_start <> EmptyString ->
  let ms :=
    finditer (compile_liquid_rules tag_start tag_end
                statement_start statement_end) source in
  nth_error (yields _tokenize_template_body (TState 1 false) ms) i
  = Some chunk ->
  In t chunk ->
  exists m before after,
    nth_error ms i = Some m
    /\ source = (before ++ after)%string
    /\ String.length before = m_start m
    /\ linenum t = 1 + count_nl before.
Proof.
  intros Ht Hs ms N I.
  destruct (yields_nth _ _ _ _ _ _ N) as [m Hm].
  destruct (template_tiles tag_start tag_end statement_start statement_end
              source Ht Hs) as [C J].
  fold ms in C, J.
  exists m, (join_texts (firstn i ms)), (join_texts (skipn i ms)).
  split; [exact Hm|]. split; [|split].
  - rewrite J at 1. apply join_firstn_skipn.
  - rewrite (contiguous_prefix ms 0 _ i m C
               (finditer_span_text _ source) Hm). reflexivity.
  - rewrite count_nl_join_firstn.
    exact (template_yields_lines ms (TState 1 false) i chunk t N I).
Qed.

Lemma template_line_is_source_line_witness :
  exists m before after,
    nth_error (finditer (compile_liquid_rules "{%" "%}" "{{" "}}")
                 multi_line_source) 1 = Some m
    /\ multi_line_source = (before ++ after)%string
    /\ String.length before = m_start m
    /\ 3 = 1 + count_nl before.
Proof.
  apply (template_line_is_source_line "{%" "%}" "{{" "}}" multi_line_source
           1 [MkToken 3 TOKEN_STATEMENT "x"] (MkToken 3 TOKEN_STATEMENT "x")).
  - discriminate.
  - discriminate.
  - vm_compute. reflexivity.
  - left. reflexivity.
Defined.



(** *** The expression sub-lexers *)

(** C7.  In [_tokenize] a match of the catch-all rule raises the
    unexpected-character error whatever the table of operators is: the
    table is not consulted.  So in a boolean expression the first
    character that only the catch-all rule matches, if nothing was
    raised before it, ends the tokens with that error, at the line
    reached.  The unknown-operator error is only ever raised for a span
    of one or two characters among [!=<>] that the table does not map,
    and the unexpected-character error for a single character.  A
    source that starts with a tilde is rejected with the
    unexpected-character error whatever follows, and the input [a ~ b]
    yields the identifier [a] and raises the unexpected-character error
    for the tilde. *)
Theorem illegal_before_operator_lookup
    (operators : string -> option string) :
  (forall keywords ln m,
      lastgroup m = Some TOKEN_ILLEGAL ->
      forall operators',
        _tokenize_body operators' keywords ln m
        = Raise [] (LiquidSyntaxError (unexpected (m_text m)) ln))
  /\ (forall source ms1 m ms2 ln,
         finditer (_compile_rules boolean_expression_rules) source
         = ms1 ++ m :: ms2 ->
         lastgroup m = Some TOKEN_ILLEGAL ->
         last_state (_tokenize_body operators boolean_expression_keywords)
           1 ms1 = Some ln ->
         tokenize_boolean_expression operators source
         = MkOutput
             (tokens (for_each
                        (_tokenize_body operators boolean_expression_keywords)
                        1 ms1))
             (Some (LiquidSyntaxError (unexpected (m_text m)) ln)))
  /\ (forall source w ln,
         raised (tokenize_boolean_expression operators source)
         = Some (LiquidSyntaxError (unknown_operator w) ln) ->
         operators w = None
         /\ all_chars (in_class operator_chars) w = true
         /\ 1 <= String.length w <= 2)
  /\ (forall source w ln,
         raised (tokenize_boolean_expression operators source)
         = Some (LiquidSyntaxError (unexpected w) ln) ->
         String.length w = 1)
  /\ (forall more,
         tokenize_boolean_expression operators (String "~" more)
         = MkOutput [] (Some (LiquidSyntaxError (unexpected "~") 1)))
  /\ tokenize_boolean_expression operators "a ~ b"
     = MkOutput [MkToken 1 TOKEN_IDENTIFIER "a"]
         (Some (LiquidSyntaxError (unexpected "~") 1)).
Proof.
  split; [|split; [|split; [|split; [|split]]]].
  - intros keywords ln m K operators'. now apply illegal_pass.
  - intros source ms1 m ms2 ln E K L.
    unfold tokenize_boolean_expression, _tokenize. rewrite E.
    rewrite (for_each_app _ _ _ (m :: ms2) _ _ L). simpl.
    rewrite illegal_pass by exact K. simpl. now rewrite app_nil_r.
  - intros source w ln H. apply boolean_raise_origin in H.
    destruct H as (ln' & w' & [(E & O & A & L)|(E & _)]); [|discriminate].
    inversion E; subst. repeat split; assumption || lia.
  - intros source w ln H. apply boolean_raise_origin in H.
    destruct H as (ln' & w' & [(E & _)|(E & L)]); [discriminate|].
    inversion E; subst. exact L.
  - intros more. apply tilde_first.
  - vm_compute. reflexivity.
Qed.

(** C3 as stated fails: the keyword set of [tokenize_loop_expression] in
    [liquid/lex.py] has no [continue], which stays an identifier there;
    [tokenize] of [liquid/expressions/loop/lex.py] makes it a keyword. *)
Lemma continue_is_identifier_in_lex :
  tokenize_loop_expression no_operators "continue"
  = MkOutput [ MkToken 1 TOKEN_IDENTIFIER "continue" ] None
  /\ LoopLex.tokenize "continue" 1
     = MkOutput [ MkToken 1 TOKEN_CONTINUE "continue" ] None
  /\ loop_expression_keywords <> LoopLex.keywords.
Proof. repeat split; try (vm_compute; reflexivity). discriminate. Qed.

(** C3, amended.  In both loop-expression tokenizers a match of the
    identifier rule becomes a keyword token exactly when its text is, by
    exact comparison, a member of the tokenizer's own keyword set:
    [in], [offset], [limit], [reversed], [cols] and [continue] for
    [tokenize] of [liquid/expressions/loop/lex.py]; [in], [offset],
    [limit], [reversed] and [cols] for [tokenize_loop_expression] of
    [liquid/lex.py].  In the tokens of the latter, on every source, a
    keyword kind always carries its own text and an identifier token is
    never one of the five keywords. *)
Theorem loop_keyword_sets (m : Match) :
  lastgroup m = Some TOKEN_IDENTIFIER ->
  (forall ln,
      exists k,
        LoopLex.tokenize_body ln m
        = Next [MkToken (ln + count_nl (m_text m)) k (m_text m)]
               (ln + count_nl (m_text m))
        /\ (In (m_text m)
              ["in"; "offset"; "limit"; "reversed"; "cols"; "continue"]
            -> k = m_text m)
        /\ (~ In (m_text m)
                ["in"; "offset"; "limit"; "reversed"; "cols"; "continue"]
            -> k = TOKEN_IDENTIFIER))
  /\ (forall operators ln,
         exists k,
           _tokenize_body operators loop_expression_keywords ln m
           = Next [MkToken ln k (m_text m)] ln
           /\ (In (m_text m) ["in"; "offset"; "limit"; "reversed"; "cols"]
               -> k = m_text m)
           /\ (~ In (m_text m) ["in"; "offset"; "limit"; "reversed"; "cols"]
               -> k = TOKEN_IDENTIFIER))
  /\ (forall operators source t,
         In t (tokens (tokenize_loop_expression operators source)) ->
         (In (kind t) ["in"; "offset"; "limit"; "reversed"; "cols"]
          /\ value t = kind t)
         \/ (~ In (kind t) ["in"; "offset"; "limit"; "reversed"; "cols"]
             /\ (kind t = TOKEN_IDENTIFIER ->
                 ~ In (value t)
                      ["in"; "offset"; "limit"; "reversed"; "cols"]))).
Proof.
  intros K. split; [|split].
  - intros ln. unfold LoopLex.tokenize_body. rewrite K.
    change ((TOKEN_IDENTIFIER =? TOKEN_IDENTIFIER)%string) with true.
    cbn [andb].
    destruct (mem (m_text m) LoopLex.keywords) eqn:M.
    + eexists. split; [reflexivity|]. split; [reflexivity|].
      intros N. exfalso. apply N. now apply mem_true_In in M.
    + eexists. split; [reflexivity|]. split; [|reflexivity].
      intros I. exfalso. now apply (mem_false_not_In _ _ M).
  - intros operators ln. unfold _tokenize_body. rewrite K.
    change ((TOKEN_IDENTIFIER =? TOKEN_IDENTIFIER)%string) with true.
    cbn [andb].
    destruct (mem (m_text m) loop_expression_keywords) eqn:M.
    + eexists. split; [reflexivity|]. split; [reflexivity|].
      intros N. exfalso. apply N. now apply mem_true_In in M.
    + eexists. split; [reflexivity|]. split; [|reflexivity].
      intros I. exfalso. now apply (mem_false_not_In _ _ M).
  - intros operators source t. apply loop_expression_token_kinds.
Qed.

Lemma loop_keyword_sets_witness :
  exists k,
    LoopLex.tokenize_body 1
      (MkMatch 0 8 "continue" (Some TOKEN_IDENTIFIER)
         [(TOKEN_IDENTIFIER, "continue")])
    = Next [MkToken 1 k "continue"] 1
    /\ k = "continue".
Proof.
  destruct (@loop_keyword_sets
              (MkMatch 0 8 "continue" (Some TOKEN_IDENTIFIER)
                 [(TOKEN_IDENTIFIER, "continue")]) eq_refl) as (H & _).
  destruct (H 1) as (k & B & Y & _).
  exists k. split; [exact B|].
  apply Y. simpl. tauto.
Defined.

(** *** The liquid-line sub-lexer *)

(** C4, at the input where the code departs from it.  In the source
    made of the line [a], a blank line and the line [b], two newlines
    precede [b], but the tag token for [b] carries line 2: the blank
    line is skipped by the search for the next match, and only the
    newlines inside matched spans are counted. *)
Theorem liquid_line_blank_line :
  tokenize_liquid_expression blank_line_source
  = MkOutput [ MkToken 1 TOKEN_TAG "a"; MkToken 2 TOKEN_TAG "b" ] None
  /\ 1 + count_nl (take 3 blank_line_source) = 3.
Proof. split; vm_compute; reflexivity. Qed.

(** *** Termination *)

(** C9.  Every tokenizer terminates on every source.  The scanning loop
    behind [finditer] never runs out of fuel, whatever the pattern, and
    its matches come in order, each starting at or after the end of
    the one before.  For the expression grammars, which end with the
    catch-all rule, and for the template lexer with non-empty opening
    delimiters, every match takes at least one character and starts
    where the previous one ended, and the matches cover the source up
    to its end, so there are at most as many matches as characters; the
    matches of the liquid-line pattern each take at least one
    character.  Each tokenizer yields at most one or two tokens per
    match and either ends without an exception or raises a syntax
    error. *)
Theorem tokenizers_terminate (source : string) :
  (forall re,
      finditer_opt re source = Some (finditer re source)
      /\ ordered 0 (String.length source) (finditer re source))
  /\ (forall re,
         In re expression_grammars ->
         contiguous 0 (String.length source) (finditer re source)
         /\ source = join_texts (finditer re source)
         /\ List.length (finditer re source) <= String.length source)
  /\ (forall tag_start tag_end statement_start statement_end,
         tag_start <> EmptyString -> statement_start <> EmptyString ->
         let re := compile_liquid_rules tag_start tag_end
                     statement_start statement_end in
         contiguous 0 (String.length source) (finditer re source)
         /\ source = join_texts (finditer re source)
         /\ List.length (finditer re source) <= String.length source)
  /\ (advancing (finditer LIQUID_EXPRESSION_RE source)
      /\ List.length (finditer LIQUID_EXPRESSION_RE source)
         <= String.length source)
  /\ (forall operators tokenizer,
         In tokenizer (expression_tokenizers operators) ->
         ends_well (tokenizer source)
         /\ List.length (tokens (tokenizer source)) <= String.length source)
  /\ (forall line_num,
         ends_well (LoopLex.tokenize source line_num)
         /\ List.length (tokens (LoopLex.tokenize source line_num))
            <= String.length source)
  /\ (forall tag_start tag_end statement_start statement_end,
         let o := get_lexer tag_start tag_end statement_start statement_end
                    source in
         ends_well o
         /\ (tag_start <> EmptyString -> statement_start <> EmptyString ->
             List.length (tokens o) <= 2 * String.length source))
  /\ (raised (tokenize_liquid_expression source) = None
      /\ List.length (tokens (tokenize_liquid_expression source))
         <= 2 * String.length source).
Proof.
  split; [|split; [|split; [|split; [|split; [|split; [|split]]]]]].
  - intros re. split; [apply finditer_total|].
    exact (Scan_ordered _ _ _ _ _ _ (finditer_Scan re source)).
  - intros re I. destruct (@expression_grammar_tiles _ source I) as [C J].
    repeat split; try assumption.
    destruct (@contiguous_advancing _ _ _ C) as [_ L]. simpl in L. exact L.
  - intros ts te ss se Ht Hs re.
    destruct (@template_tiles ts te ss se source Ht Hs) as [C J].
    repeat split; try assumption.
    destruct (@contiguous_advancing _ _ _ C) as [_ L]. simpl in L. exact L.
  - destruct (liquid_line_advances source) as (_ & A & L). now split.
  - intros operators tokenizer I.
    now apply (expression_tokenizers_end_well operators).
  - intros line_num.
    destruct (loop_ends_well source line_num) as [E L]. split; [exact E|].
    assert (I : In LoopLex.OUTPUT_RE expression_grammars)
      by (simpl; tauto).
    destruct (@expression_grammar_tiles _ source I) as [C _].
    destruct (@contiguous_advancing _ _ _ C) as [_ L']. simpl in L'. lia.
  - intros ts te ss se o.
    destruct (template_ends_well ts te ss se source) as [E L].
    split; [exact E|]. intros Ht Hs.
    destruct (@template_tiles ts te ss se source Ht Hs) as [C _].
    destruct (@contiguous_advancing _ _ _ C) as [_ L']. simpl in L'.
    unfold o. lia.
  - destruct (liquid_line_ends_well source) as [R L]. split; [exact R|].
    destruct (liquid_line_advances source) as (_ & _ & L'). lia.
Qed.

Lemma tokenizers_terminate_witness :
  contiguous 0 4 (finditer (compile_liquid_rules "{%" "%}" "{{" "}}") "{{ x")
  /\ List.length (tokens (default_lexer "{{ x")) <= 8.
Proof.
  destruct (tokenizers_terminate "{{ x")
    as (_ & _ & T & _ & _ & _ & G & _).
  split.
  - destruct (T "{%" "%}" "{{" "}}") as (C & _).
    + discriminate.
    + discriminate.
    + exact C.
  - destruct (G "{%" "%}" "{{" "}}") as (_ & L).
    apply L; discriminate.
Defined.

(* ================================================================== *)
(** ** Further properties of the tokenizers *)

Import Str Re Tok Lex Sem StrFacts ReFacts ScanFacts RuleFacts.
Import GroupFacts TemplateFacts ExprFacts CoverFacts EndFacts StreamFacts TextFacts.
Import LineFacts PlainFacts EngineFacts LazyFacts MarkerFacts ValueFacts.

(** *** The shape of the token streams *)

(** The tokens of the template lexer, for every source and all
    delimiters: each one is a statement, tag, expression or literal
    token; an expression token is never empty and always comes
    directly after a tag token of the same line. *)
Theorem template_token_shape
    (tag_start tag_end statement_start statement_end source : string) :
  let ts :=
    tokens (get_lexer tag_start tag_end statement_start statement_end
              source) in
  Forall (fun t => In (kind t) template_kinds
                   /\ (kind t = TOKEN_EXPRESSION -> value t <> EmptyString))
         ts
  /\ paired None ts.
Proof.
  unfold get_lexer, _tokenize_template, compile_liquid_rules.
  match goal with
  | |- context [finditer (_compile_rules ?rs) source] => set (rules := rs)
  end.
  assert (K : forall m, In m (finditer (_compile_rules rules) source) ->
                lastgroup m = Some "RAW"
                \/ lastgroup m = Some TOKEN_STATEMENT
                \/ lastgroup m = Some "TAG"
                \/ lastgroup m = Some TOKEN_LITERAL).
  { intros m I. apply finditer_lastgroup in I; [|discriminate].
    destruct I as (name & Hn & L). simpl in Hn.
    destruct Hn as [<-|[<-|[<-|[<-|[]]]]]; tauto. }
  split.
  - apply for_each_Forall. intros st m I.
    destruct (K m I) as [L|[L|[L|L]]];
      [ rewrite (raw_pass st m L)
      | unfold _tokenize_template_body; rewrite L
      | rewrite (tag_pass st m L);
        destruct (group_str m "expr") eqn:E; cbn [negb truthy]
      | rewrite (literal_pass st m L);
        repeat match goal with
               | |- context [if ?c then _ else _] => destruct c
               end ];
      repeat (apply Forall_cons || apply Forall_nil);
      (split; [simpl; tauto
              | simpl; intros N; first [discriminate N | discriminate]]).
  - apply for_each_paired. intros st m I.
    destruct (K m I) as [L|[L|[L|L]]].
    + rewrite (raw_pass st m L). apply closed_one. discriminate.
    + unfold _tokenize_template_body. rewrite L.
      apply closed_one. discriminate.
    + rewrite (tag_pass st m L).
      destruct (negb (truthy (group_str m "expr")));
        [apply closed_one; discriminate | apply closed_tag_expression].
    + rewrite (literal_pass st m L).
      repeat match goal with
             | |- context [if ?c then _ else _] => destruct c
             end;
        try apply closed_nil; apply closed_one; discriminate.
Qed.

(** The tokens of the liquid-line sub-lexer, for every source of ASCII
    characters: a tag token named by one or more word characters, each
    optionally followed on the same line by an expression token that
    is not empty and holds no newline; and nothing else. *)
Theorem liquid_line_token_shape (source : string) :
  isascii source = true ->
  let ts := tokens (tokenize_liquid_expression source) in
  Forall (fun t =>
            (kind t = TOKEN_TAG /\ value t <> EmptyString
             /\ all_chars is_word (value t) = true)
            \/ (kind t = TOKEN_EXPRESSION /\ value t <> EmptyString
                /\ count_nl (value t) = 0))
         ts
  /\ paired None ts.
Proof.
  intros _. unfold tokenize_liquid_expression. split.
  - apply for_each_Forall. intros st m I.
    destruct (liquid_line_groups source m I)
      as (name & expr & Gn & Ge & Nn & Wn & Ee).
    unfold liquid_expression_body, group_str. rewrite Gn, Ge.
    destruct expr as [|a expr]; cbn [truthy_opt truthy].
    + constructor; [|constructor]. left. repeat split; assumption.
    + constructor; [left; repeat split; assumption|].
      constructor; [|constructor].
      right. repeat split; [discriminate|]. now apply count_nl_none.
  - apply for_each_paired. intros st m I.
    unfold liquid_expression_body.
    destruct (truthy_opt (group m "expr"));
      [apply closed_tag_expression | apply closed_one; discriminate].
Qed.

Lemma liquid_line_token_shape_witness :
  let ts := tokens (tokenize_liquid_expression liquid_lines_source) in
  Forall (fun t =>
            (kind t = TOKEN_TAG /\ value t <> EmptyString
             /\ all_chars is_word (value t) = true)
            \/ (kind t = TOKEN_EXPRESSION /\ value t <> EmptyString
                /\ count_nl (value t) = 0))
         ts
  /\ paired None ts.
Proof.
  apply (liquid_line_token_shape liquid_lines_source). reflexivity.
Defined.

(** *** Line numbers along the stream *)

(** In every tokenizer, on every source, the line numbers of the tokens
    never go down, starting from the first line (from the line handed
    to the loop sub-lexer), and an exception reports a line that is
    not before the line of any token yielded. *)
Theorem lines_never_decrease (source : string) :
  (forall tag_start tag_end statement_start statement_end,
      let o := get_lexer tag_start tag_end statement_start statement_end
                 source in
      nondecreasing 1 (tokens o) /\ error_after o)
  /\ (forall operators rules keywords,
         let o := _tokenize operators source rules keywords in
         nondecreasing 1 (tokens o) /\ error_after o)
  /\ (forall line_num,
         let o := LoopLex.tokenize source line_num in
         nondecreasing line_num (tokens o) /\ error_after o)
  /\ nondecreasing 1 (tokens (tokenize_liquid_expression source)).
Proof.
  assert (E : forall o lo,
             (nondecreasing lo (tokens o)
              /\ forall msg ln,
                   raised o = Some (LiquidSyntaxError msg ln) ->
                   lo <= ln /\ Forall (fun t => linenum t <= ln) (tokens o)) ->
             nondecreasing lo (tokens o) /\ error_after o).
  { intros o lo [N R]. split; [exact N|]. unfold error_after.
    destruct (raised o) as [[msg ln|]|]; try exact I.
    now apply (R msg ln). }
  split; [|split; [|split]].
  - intros ts te ss se o. apply E. subst o.
    unfold get_lexer, _tokenize_template.
    refine (for_each_lines tstate _tokenize_template_body line_count _ _
              (TState 1 false)).
    intros st m. pose proof (template_pass_lines st m) as P.
    destruct (_tokenize_template_body st m) as [tk st'|tk e] eqn:B.
    + destruct P as [F L]. split; [lia|].
      exists (line_count st). repeat split; try lia. exact F.
    + split; [exact P|]. intros msg ln ->.
      unfold _tokenize_template_body in B.
      destruct (lastgroup m); [|discriminate].
      repeat match type of B with
             | (if ?c then _ else _) = _ => destruct c
             end;
        inversion B; lia.
  - intros operators rules keywords o. apply E. subst o. unfold _tokenize.
    refine (for_each_lines nat (_tokenize_body operators keywords)
              (fun n => n) _ _ 1).
    intros ln m. unfold _tokenize_body.
    destruct (lastgroup m); [|split; [reflexivity | discriminate]].
    destruct (operators (m_text m));
      repeat match goal with
             | |- context [if ?c then _ else _] => destruct c
             end;
      first
        [ split; [reflexivity|]; intros msg l Eq; inversion Eq; lia
        | split; [lia|]; eexists; split;
          [|constructor; [reflexivity|constructor]]; simpl; lia
        | split; [lia|]; exists ln; split; [lia|constructor] ].
  - intros line_num o. apply E. subst o. unfold LoopLex.tokenize.
    refine (for_each_lines nat LoopLex.tokenize_body (fun n => n) _ _
              line_num).
    intros ln m. unfold LoopLex.tokenize_body.
    destruct (lastgroup m); [|split; [reflexivity | discriminate]].
    repeat match goal with
           | |- context [if ?c then _ else _] => destruct c
           end;
      first
        [ split; [reflexivity|]; intros msg l Eq; inversion Eq; lia
        | split; [lia|]; eexists; split;
          [|constructor; [reflexivity|constructor]]; simpl; lia
        | split; [lia|]; exists ln; split; [lia|constructor] ].
  - unfold tokenize_liquid_expression.
    refine (proj1 (for_each_lines nat liquid_expression_body (fun n => n)
                     _ _ 1)).
    intros ln m. unfold liquid_expression_body.
    destruct (truthy_opt (group m "expr"));
      (split; [lia|]; exists ln; repeat split; try lia; repeat constructor).
Qed.

(** *** The start line of the loop sub-lexer *)

(** Starting the loop sub-lexer [d] lines further down moves the line
    of every token, and of the exception if there is one, down by [d]
    lines and changes nothing else. *)
Theorem loop_start_line_shifts (source : string) (line_num d : nat) :
  LoopLex.tokenize source (line_num + d)
  = shift_output d (LoopLex.tokenize source line_num).
Proof.
  unfold LoopLex.tokenize. revert line_num.
  induction (finditer LoopLex.OUTPUT_RE source) as [|m ms IH];
    intros ln; [reflexivity|].
  assert (A : forall n, ln + d + n = ln + n + d) by (intros; lia).
  simpl. unfold LoopLex.tokenize_body.
  destruct (lastgroup m); [|reflexivity].
  repeat match goal with
         | |- context [if ?c then _ else _] => destruct c
         end;
    cbn [tokens raised app]; rewrite ?A, ?IH; reflexivity.
Qed.

(** *** The table of operators *)

(** Only the tokenizer of boolean expressions consults the table of
    operators: each of the other six yields the same tokens and raises
    the same exception whatever the table is, and none of them ever
    reports an unknown operator. *)
Theorem operators_only_in_boolean
    (operators operators' : string -> option string) (source : string) :
  Forall2 (fun tokenizer tokenizer' => tokenizer source = tokenizer' source)
    (plain_tokenizers operators) (plain_tokenizers operators')
  /\ Forall (fun tokenizer =>
               forall op ln,
                 raised (tokenizer source)
                 <> Some (LiquidSyntaxError (unknown_operator op) ln))
       (plain_tokenizers operators).
Proof.
  assert (H : forall ops ops' rules keywords,
             rules <> [] ->
             forallb (fun rule => negb (fst rule =? "OP")%string) rules
             = true ->
             _tokenize ops source (_compile_rules rules) keywords
             = _tokenize ops' source (_compile_rules rules) keywords).
  { intros ops ops' rules keywords N F. unfold _tokenize.
    apply for_each_ext. intros st m I.
    apply finditer_lastgroup in I; [|exact N].
    destruct I as (name & I & L).
    apply in_map_iff in I. destruct I as ([name' pattern] & <- & I).
    rewrite forallb_forall in F. specialize (F _ I). simpl in F, L.
    unfold _tokenize_body. rewrite L.
    destruct (name' =? "OP")%string; [discriminate|reflexivity]. }
  assert (K : forall rules keywords op ln,
             rules <> [] ->
             forallb (fun rule => negb (fst rule =? "OP")%string) rules
             = true ->
             raised (_tokenize operators source (_compile_rules rules)
                       keywords)
             <> Some (LiquidSyntaxError (unknown_operator op) ln)).
  { intros rules keywords op ln N F R.
    rewrite (H operators (fun _ => Some EmptyString) rules keywords N F) in R.
    apply for_each_raised in R. destruct R as (st & m & ts & _ & B).
    unfold _tokenize_body in B.
    destruct (lastgroup m); [|discriminate].
    repeat match type of B with
           | (if ?c then _ else _) = _ => destruct c
           end; discriminate. }
  split.
  - repeat (apply Forall2_cons || apply Forall2_nil);
      apply H; (discriminate || reflexivity).
  - repeat (apply Forall_cons || apply Forall_nil);
      intros op ln; apply K; (discriminate || reflexivity).
Qed.

(** *** The tokenizer of paginate expressions *)

(** The tokenizer of paginate expressions is the tokenizer of
    identifiers with the identifier [by] turned into a keyword: the two
    yield the same tokens but for the kind of [by], and raise the same
    exception. *)
Theorem paginate_is_identifier_with_by
    (operators : string -> option string) (source : string) :
  tokens (tokenize_paginate_expression operators source)
  = map (as_keyword TOKEN_BY) (tokens (tokenize_identifier operators source))
  /\ raised (tokenize_paginate_expression operators source)
     = raised (tokenize_identifier operators source).
Proof.
  unfold tokenize_paginate_expression, tokenize_identifier, _tokenize.
  rewrite (for_each_map nat (_tokenize_body operators [])
             (_tokenize_body operators [TOKEN_BY]) (as_keyword TOKEN_BY)).
  { split; reflexivity. }
  intros ln m I.
  apply finditer_lastgroup in I; [|discriminate].
  destruct I as (name & I & L).
  unfold _tokenize_body. rewrite L. simpl in I.
  repeat (destruct I as [<-|I]; [try reflexivity|]); try contradiction.
  change (mem (m_text m) []) with false.
  change (mem (m_text m) [TOKEN_BY])
    with ((m_text m =? TOKEN_BY)%string || false).
  change ((TOKEN_IDENTIFIER =? TOKEN_IDENTIFIER)%string) with true.
  change ((TOKEN_IDENTIFIER =? TOKEN_STRING)%string) with false.
  change ((TOKEN_IDENTIFIER =? "OP")%string) with false.
  change ((TOKEN_IDENTIFIER =? "NEWLINE")%string) with false.
  change ((TOKEN_IDENTIFIER =? "SKIP")%string) with false.
  change ((TOKEN_IDENTIFIER =? TOKEN_ILLEGAL)%string) with false.
  cbn [andb orb map]. unfold as_keyword. cbn [kind value linenum].
  change ((TOKEN_IDENTIFIER =? TOKEN_IDENTIFIER)%string) with true.
  rewrite Bool.orb_false_r. cbn [andb].
  destruct (m_text m =? TOKEN_BY)%string eqn:E; [|reflexivity].
  apply String.eqb_eq in E. rewrite E. reflexivity.
Qed.

(** *** The groups the lexers read *)

(** Whatever the source, every group whose text a lexer yields took
    part in the match it is read from, so no token is given [None] for
    a value: the statement and trim groups of a statement, the name,
    expression and trim groups of a tag, the body of a raw block, the
    quoted text of a string in each expression table, the index and the
    quoted name in the loop sub-lexer, and the name and expression of a
    line of a liquid tag. *)
Theorem read_groups_take_part (source : string) :
  (forall tag_start tag_end statement_start statement_end,
      Forall (fun m =>
                (lastgroup m = Some TOKEN_STATEMENT ->
                 group m "stmt" <> None /\ group m "rss" <> None)
                /\ (lastgroup m = Some "TAG" ->
                    group m "name" <> None /\ group m "expr" <> None
                    /\ group m "rst" <> None)
                /\ (lastgroup m = Some "RAW" -> group m "raw" <> None))
        (finditer (compile_liquid_rules tag_start tag_end
                     statement_start statement_end) source))
  /\ Forall (fun rules =>
               Forall (fun m => lastgroup m = Some TOKEN_STRING ->
                                group m "quoted" <> None)
                 (finditer (_compile_rules rules) source))
       expression_tables
  /\ Forall (fun m =>
               (lastgroup m = Some TOKEN_IDENTINDEX ->
                group m LoopLex.GROUP_IDENTINDEX <> None)
               /\ (lastgroup m = Some TOKEN_IDENTSTRING ->
                   group m LoopLex.GROUP_IDENTQUOTED <> None))
       (finditer LoopLex.OUTPUT_RE source)
  /\ Forall (fun m => group m "name" <> None /\ group m "expr" <> None)
       (finditer LIQUID_EXPRESSION_RE source).
Proof.
  split; [|split; [|split]].
  - intros ts te ss se. apply Forall_forall. intros m I.
    exact (template_groups_participate ts te ss se source m I).
  - apply Forall_forall. intros rules T.
    apply Forall_forall. intros m I.
    exact (string_group_participates rules source m T I).
  - apply Forall_forall. intros m I.
    exact (loop_groups_participate source m I).
  - apply Forall_forall. intros m I.
    exact (liquid_line_groups_participate source m I).
Qed.

(** *** The lines of the loop tokenizers *)

(** In the loop sub-lexer the matches tile the source and every pass
    adds the newlines of its match before it yields, so the line a
    token carries is the start line plus the newlines of the source up
    to the end of the token's match. *)
Theorem loop_line_is_source_line
    (source : string) (line_num i : nat) (chunk : list Token) (t : Token) :
  let ms := finditer LoopLex.OUTPUT_RE source in
  nth_error (yields LoopLex.tokenize_body line_num ms) i = Some chunk ->
  In t chunk ->
  exists m upto after,
    nth_error ms i = Some m
    /\ source = (upto ++ after)%string
    /\ String.length upto = m_end m
    /\ linenum t = line_num + count_nl upto.
Proof.
  intros ms N I.
  destruct (yields_lines nat LoopLex.tokenize_body (fun n => n)
              (fun m => count_nl (m_text m)) ms
              (fun st m Hm => loop_pass_lines source m Hm st)
              line_num i chunk t N I) as (m & Hm & E).
  destruct (expression_grammar_tiles LoopLex.OUTPUT_RE source) as [C J].
  { simpl. tauto. }
  fold ms in C, J.
  pose proof (finditer_span_text LoopLex.OUTPUT_RE source) as F.
  fold ms in F.
  exists m, (join_texts (firstn (S i) ms)), (join_texts (skipn (S i) ms)).
  split; [exact Hm|]. split; [|split].
  - rewrite J at 1. apply join_firstn_skipn.
  - rewrite (join_firstn_succ ms i m Hm), length_app.
    pose proof (contiguous_prefix ms 0 _ i m C F Hm) as P.
    rewrite Forall_forall in F. rewrite (F m (nth_error_In _ _ Hm)).
    lia.
  - rewrite (join_firstn_succ ms i m Hm), count_nl_app, count_nl_join_firstn.
    rewrite E. lia.
Qed.

Lemma loop_line_is_source_line_witness :
  exists m upto after,
    nth_error (finditer LoopLex.OUTPUT_RE loop_lines_source) 2 = Some m
    /\ loop_lines_source = (upto ++ after)%string
    /\ String.length upto = m_end m
    /\ 2 = 1 + count_nl upto.
Proof.
  apply (loop_line_is_source_line loop_lines_source 1 2
           [MkToken 2 TOKEN_IN TOKEN_IN] (MkToken 2 TOKEN_IN TOKEN_IN)).
  - vm_compute. reflexivity.
  - left. reflexivity.
Defined.

(** The table of loop expressions of [liquid/lex.py] has no rule that
    reads a newline but the rule for newlines, so there the line a
    token carries is the line of the source on which the token stands:
    1 plus the newlines of the source before its match. *)
Theorem loop_expression_line_is_source_line
    (operators : string -> option string)
    (source : string) (i : nat) (chunk : list Token) (t : Token) :
  let ms := finditer (_compile_rules loop_expression_rules) source in
  nth_error (yields (_tokenize_body operators loop_expression_keywords) 1 ms)
    i = Some chunk ->
  In t chunk ->
  exists m before after,
    nth_error ms i = Some m
    /\ source = (before ++ after)%string
    /\ String.length before = m_start m
    /\ linenum t = 1 + count_nl before.
Proof.
  intros ms N I.
  destruct (yields_lines nat
              (_tokenize_body operators loop_expression_keywords)
              (fun n => n) (fun _ => 0) ms
              (fun st m Hm =>
                 loop_expression_pass_lines operators source m Hm st)
              1 i chunk t N I) as (m & Hm & E).
  destruct (expression_grammar_tiles
              (_compile_rules loop_expression_rules) source) as [C J].
  { simpl. tauto. }
  fold ms in C, J.
  pose proof (finditer_span_text (_compile_rules loop_expression_rules)
                source) as F.
  fold ms in F.
  exists m, (join_texts (firstn i ms)), (join_texts (skipn i ms)).
  split; [exact Hm|]. split; [|split].
  - rewrite J at 1. apply join_firstn_skipn.
  - now rewrite (contiguous_prefix ms 0 _ i m C F Hm).
  - rewrite count_nl_join_firstn, E. lia.
Qed.

Lemma loop_expression_line_is_source_line_witness :
  exists m before after,
    nth_error (finditer (_compile_rules loop_expression_rules)
                 loop_lines_source) 2 = Some m
    /\ loop_lines_source = (before ++ after)%string
    /\ String.length before = m_start m
    /\ 2 = 1 + count_nl before.
Proof.
  apply (loop_expression_line_is_source_line no_operators loop_lines_source 2
           [MkToken 2 TOKEN_IN TOKEN_IN] (MkToken 2 TOKEN_IN TOKEN_IN)).
  - vm_compute. reflexivity.
  - left. reflexivity.
Defined.

(** *** What the tokens of a loop expression spell *)

(** [tokenize_loop_expression] loses nothing but blanks.  It reads a
    prefix of the source and yields tokens whose values, joined, are
    that prefix without its spaces, tabs and newlines.  Without an
    exception the prefix is the whole source; otherwise the exception
    is the unexpected-character error for the first character not
    read, raised with the line on which that character stands. *)
Theorem loop_expression_spells_source
    (operators : string -> option string) (source : string) :
  let o := tokenize_loop_expression operators source in
  exists read unread,
    source = (read ++ unread)%string
    /\ join_values (tokens o) = remove_blank read
    /\ match raised o with
       | None => unread = EmptyString
       | Some e =>
           exists a more,
             unread = String a more
             /\ e = LiquidSyntaxError (unexpected (String a EmptyString))
                      (1 + count_nl read)
       end.
Proof.
  intros o. unfold o, tokenize_loop_expression, _tokenize.
  destruct (loop_expression_run operators source
              (finditer (_compile_rules loop_expression_rules) source)
              (fun m I => I) 1) as (ms1 & ms2 & E & J & R).
  destruct (expression_grammar_tiles
              (_compile_rules loop_expression_rules) source) as [_ T].
  { simpl. tauto. }
  exists (join_texts ms1), (join_texts ms2).
  split; [now rewrite T at 1; rewrite E, join_texts_app|].
  split; [exact J|].
  destruct (raised _) as [e|].
  - destruct R as (m & ms3 & a & -> & Ta & ->).
    exists a, (join_texts ms3). simpl. rewrite Ta. split; reflexivity.
  - now rewrite R.
Qed.

(** *** Plain text in the template lexer *)

(** Text without markup passes through the template lexer unchanged.
    With non-empty opening delimiters, a source none of whose
    characters starts an opening delimiter or is a brace raises no
    exception and yields only literal tokens, whose values joined are
    the source. *)
Theorem plain_text_passes_through
    (tag_start tag_end statement_start statement_end source : string) :
  tag_start <> EmptyString -> statement_start <> EmptyString ->
  all_chars (plain tag_start statement_start) source = true ->
  let o := get_lexer tag_start tag_end statement_start statement_end source in
  raised o = None
  /\ Forall (fun t => kind t = TOKEN_LITERAL) (tokens o)
  /\ join_values (tokens o) = source.
Proof.
  intros Ht Hs A o. unfold o, get_lexer, _tokenize_template.
  destruct (template_tiles tag_start tag_end statement_start statement_end
              source Ht Hs) as [_ J].
  rewrite J at 4.
  apply (plain_run tag_start statement_start); [|reflexivity].
  apply (Scan_Forall_chars
           (compile_liquid_rules tag_start tag_end statement_start
              statement_end)
           (plain tag_start statement_start) _
           (fun p s must pos m st1 =>
              plain_match tag_start tag_end statement_start statement_end
                p s must pos m st1 Ht Hs)
           None source false 0 _ (finditer_Scan _ source) A).
Qed.

Lemma plain_text_passes_through_witness :
  let o := default_lexer plain_source in
  raised o = None
  /\ Forall (fun t => kind t = TOKEN_LITERAL) (tokens o)
  /\ join_values (tokens o) = plain_source.
Proof.
  apply (plain_text_passes_through "{%" "%}" "{{" "}}" plain_source).
  - discriminate.
  - discriminate.
  - vm_compute. reflexivity.
Defined.

(** *** Assignments and filtered expressions *)

(** The table of assignment expressions is the table of filtered
    expressions with a first rule for [=].  On a source without [=]
    the two tokenizers yield the same tokens and raise the same
    exception. *)
Theorem assignment_without_equals
    (operators : string -> option string) (source : string) :
  all_chars (fun a => negb (Ascii.eqb a "=")) source = true ->
  tokenize_assignment_expression operators source
  = tokenize_filtered_expression operators source.
Proof.
  intros A.
  unfold tokenize_assignment_expression, tokenize_filtered_expression,
    _tokenize, assignment_expression_rules.
  rewrite (first_rule_unused TOKEN_ASSIGN "=" filtered_expression_rules
             source ltac:(discriminate) A).
  reflexivity.
Qed.

Lemma assignment_without_equals_witness :
  tokenize_assignment_expression no_operators "x | upcase"
  = tokenize_filtered_expression no_operators "x | upcase".
Proof.
  apply (assignment_without_equals no_operators "x | upcase").
  vm_compute. reflexivity.
Defined.

(** *** Where a string ends *)

(** In every expression table a string ends at the first quote like
    the one that opens it.  The text of a match of the string rule is
    a quote, single or double, a text without that quote, and the same
    quote again; what the pass yields for it, whatever the keywords and
    the operators, is one string token whose value is the text between
    the quotes. *)
Theorem string_ends_at_first_quote (source : string) :
  Forall (fun rules =>
            Forall (fun m =>
                      lastgroup m = Some TOKEN_STRING ->
                      exists q v,
                        (q = dquote \/ q = "'"%char)
                        /\ m_text m = String q (v ++ String q EmptyString)
                        /\ all_chars (fun a => negb (Ascii.eqb a q)) v = true
                        /\ forall operators keywords ln,
                             _tokenize_body operators keywords ln m
                             = Next [MkToken ln TOKEN_STRING v] ln)
              (finditer (_compile_rules rules) source))
    expression_tables.
Proof.
  apply Forall_forall. intros rules T.
  assert (N : rules <> []).
  { simpl in T. repeat (destruct T as [<-|T]; [discriminate|]). contradiction. }
  eapply Scan_Forall; [|apply finditer_Scan].
  intros p s must pos m st1 E L.
  apply search_exec in E; [|exact N].
  destruct E as (name & pattern & skipped & s0 & p0 & must0 & Hin & -> & Em
                 & X & L').
  rewrite L in L'. inversion L'; subst name. clear L'.
  rewrite (string_rule rules pattern T Hin) in X.
  apply string_exec in X.
  destruct X as (q & v & s' & Q & E0 & A & R & La & Ma).
  exists q, v. split; [exact Q|]. split; [|split; [exact A|]].
  - rewrite Em.
    replace s0 with ((String q (v ++ String q "")) ++ s')%string.
    + now apply mk_match_text.
    + rewrite E0. simpl. now rewrite app_assoc.
  - intros operators keywords ln. unfold _tokenize_body. rewrite L.
    unfold group_str, group. rewrite Em. cbn [m_groups mk_match]. rewrite Ma.
    reflexivity.
Qed.

(** *** The values of statements and expressions *)

(** With non-empty closing delimiters, the value of a statement token
    never contains the closing delimiter of statements and neither
    starts nor ends with whitespace, and the value of an expression
    token never contains the closing delimiter of tags and neither
    starts nor ends with whitespace: the lazy group of the rule stops
    at the first closing delimiter, and the blanks around it go to the
    greedy runs on its sides. *)
Theorem region_values_trimmed
    (tag_start tag_end statement_start statement_end source : string) :
  tag_end <> EmptyString -> statement_end <> EmptyString ->
  Forall (fun t =>
            (kind t = TOKEN_STATEMENT ->
             ~ contains statement_end (value t)
             /\ first_is is_space (value t) = false
             /\ last_is is_space (value t) = false)
            /\ (kind t = TOKEN_EXPRESSION ->
                ~ contains tag_end (value t)
                /\ first_is is_space (value t) = false
                /\ last_is is_space (value t) = false))
    (tokens (get_lexer tag_start tag_end statement_start statement_end
               source)).
Proof.
  intros Nt Ns. unfold get_lexer, _tokenize_template.
  pose proof (template_group_values tag_start tag_end statement_start
                statement_end source) as G.
  rewrite Forall_forall in G.
  assert (K : forall m,
             In m (finditer (compile_liquid_rules tag_start tag_end
                               statement_start statement_end) source) ->
             lastgroup m = Some "RAW"
             \/ lastgroup m = Some TOKEN_STATEMENT
             \/ lastgroup m = Some "TAG"
             \/ lastgroup m = Some TOKEN_LITERAL).
  { intros m I. unfold compile_liquid_rules in I.
    apply finditer_lastgroup in I; [|discriminate].
    destruct I as (name & Hn & L). simpl in Hn.
    destruct Hn as [<-|[<-|[<-|[<-|[]]]]]; tauto. }
  apply for_each_Forall. intros st m I.
  destruct (G m I) as [Gs Gt].
  destruct (K m I) as [L|[L|[L|L]]].
  - rewrite (raw_pass st m L).
    constructor; [|constructor]. split; intros E; discriminate E.
  - destruct (Gs Ns L) as (v & Ev & P).
    unfold _tokenize_template_body. rewrite L. cbn.
    unfold group_str. rewrite Ev.
    constructor; [|constructor].
    split; intros E; [exact P | discriminate E].
  - destruct (Gt Nt L) as (v & Ev & P).
    rewrite (tag_pass st m L). unfold group_str. rewrite Ev.
    destruct (negb (truthy v));
      repeat (apply Forall_cons || apply Forall_nil);
      (split; intros E; first [discriminate E | exact P]).
  - rewrite (literal_pass st m L).
    repeat match goal with
           | |- context [if ?c then _ else _] => destruct c
           end;
      repeat (apply Forall_cons || apply Forall_nil);
      (split; intros E; discriminate E).
Qed.

Lemma region_values_trimmed_witness :
  Forall (fun t =>
            (kind t = TOKEN_STATEMENT ->
             ~ contains "}}" (value t)
             /\ first_is is_space (value t) = false
             /\ last_is is_space (value t) = false)
            /\ (kind t = TOKEN_EXPRESSION ->
                ~ contains "%}" (value t)
                /\ first_is is_space (value t) = false
                /\ last_is is_space (value t) = false))
    (tokens (default_lexer tag_source)).
Proof.
  apply (region_values_trimmed "{%" "%}" "{{" "}}" tag_source);
    discriminate.
Defined.

(** *** Where a raw block ends *)

(** A raw block ends at the first tag that closes it.  Whatever the
    delimiters, on a source of ASCII characters the text of a match of
    the raw rule is
    an opening [raw] tag, a text, and a closing [endraw] tag, each tag
    with or without whitespace inside it.  No [endraw] tag starts
    before the end of the text between the two tags, so none is
    contained in it.  The pass over the match yields that text as one
    literal token, at the line count before the match, and leaves the
    pending trim as it is. *)
Theorem raw_ends_at_first_endraw
    (tag_start tag_end statement_start statement_end source : string) :
  isascii source = true ->
  Forall (fun m =>
            lastgroup m = Some "RAW" ->
            exists blanks1 blanks2 v closing,
              m_text m
              = ((tag_start ++ blanks1 ++ "raw" ++ blanks2 ++ tag_end)
                 ++ v ++ closing)%string
              /\ all_chars is_space blanks1 = true
              /\ all_chars is_space blanks2 = true
              /\ closes_raw tag_start tag_end closing
              /\ (forall v1 v2 c after,
                     v = (v1 ++ v2)%string -> v2 <> EmptyString ->
                     closes_raw tag_start tag_end c ->
                     (v2 ++ closing)%string <> (c ++ after)%string)
              /\ (forall c, closes_raw tag_start tag_end c -> ~ contains c v)
              /\ forall st,
                   _tokenize_template_body st m
                   = Next [MkToken (line_count st) TOKEN_LITERAL v]
                       (TState (line_count st + count_nl (m_text m))
                          (lstrip st)))
    (finditer (compile_liquid_rules tag_start tag_end statement_start
                 statement_end) source).
Proof.
  intros _.
  eapply Scan_Forall; [|apply finditer_Scan].
  intros p s must pos m st1 E L. unfold compile_liquid_rules in E.
  apply search_exec in E; [|discriminate].
  destruct E as (name & pattern & skipped & s0 & p0 & must0 & Hin & -> & Em
                 & X & L').
  rewrite L in L'. inversion L'; subst name. clear L'.
  simpl in Hin.
  destruct Hin as [Hin|[Hin|[Hin|[Hin|[]]]]]; inversion Hin; subst pattern.
  clear Hin.
  apply raw_exec in X.
  destruct X as (sp1 & sp2 & v & closing & T & A1 & A2 & C & Ev & F).
  exists sp1, sp2, v, closing.
  split; [rewrite Em; exact T|].
  split; [exact A1|]. split; [exact A2|]. split; [exact C|].
  split; [exact F|]. split.
  - intros c Hc (u1 & u2 & Eu).
    apply (F u1 (c ++ u2)%string c (u2 ++ closing)%string Eu); [|exact Hc|].
    + destruct Hc as (x1 & x2 & _ & _ & ->).
      destruct tag_start; simpl; [|discriminate].
      destruct x1; simpl; discriminate.
    + now rewrite !app_assoc.
  - intros st. rewrite (raw_pass st m L).
    unfold group_str, group. rewrite Em. cbn [m_groups mk_match].
    now rewrite Ev.
Qed.

Lemma raw_ends_at_first_endraw_witness :
  Forall (fun m =>
            lastgroup m = Some "RAW" ->
            exists blanks1 blanks2 v closing,
              m_text m
              = (("{%" ++ blanks1 ++ "raw" ++ blanks2 ++ "%}")
                 ++ v ++ closing)%string
              /\ all_chars is_space blanks1 = true
              /\ all_chars is_space blanks2 = true
              /\ closes_raw "{%" "%}" closing
              /\ (forall v1 v2 c after,
                     v = (v1 ++ v2)%string -> v2 <> EmptyString ->
                     closes_raw "{%" "%}" c ->
                     (v2 ++ closing)%string <> (c ++ after)%string)
              /\ (forall c, closes_raw "{%" "%}" c -> ~ contains c v)
              /\ forall st,
                   _tokenize_template_body st m
                   = Next [MkToken (line_count st) TOKEN_LITERAL v]
                       (TState (line_count st + count_nl (m_text m))
                          (lstrip st)))
    (finditer (compile_liquid_rules "{%" "%}" "{{" "}}") trim_raw_source).
Proof.
  apply (raw_ends_at_first_endraw "{%" "%}" "{{" "}}" trim_raw_source).
  reflexivity.
Defined.

(** *** The dash before a closing delimiter *)

(** Whitespace control on the left of what follows.  With non-empty
    closing delimiters, the pass over a statement or a tag leaves a
    left trim pending exactly when the text of the region ends with a
    dash and the closing delimiter, the dash not being the one that
    directly follows the opening delimiter with nothing after it: the
    regions [{{-}}] and [{%-%}] trim nothing on their right. *)
Theorem dash_before_close_sets_trim
    (tag_start tag_end statement_start statement_end source : string) :
  tag_end <> EmptyString -> statement_end <> EmptyString ->
  Forall (fun m =>
            (lastgroup m = Some TOKEN_STATEMENT ->
             forall st, exists tk st',
               _tokenize_template_body st m = Next tk st'
               /\ (lstrip st' = true
                   <-> endswith ("-" ++ statement_end) (m_text m)
                       /\ String.length statement_start + 1
                          + String.length statement_end
                          < String.length (m_text m)))
            /\ (lastgroup m = Some "TAG" ->
                forall st, exists tk st',
                  _tokenize_template_body st m = Next tk st'
                  /\ (lstrip st' = true
                      <-> endswith ("-" ++ tag_end) (m_text m)
                          /\ String.length tag_start + 1
                             + String.length tag_end
                             < String.length (m_text m))))
    (finditer (compile_liquid_rules tag_start tag_end statement_start
                 statement_end) source).
Proof.
  intros Nt Ns.
  eapply Scan_Forall; [|apply finditer_Scan].
  intros p s must pos m st1 E. unfold compile_liquid_rules in E.
  apply search_exec in E; [|discriminate].
  destruct E as (name & pattern & skipped & s0 & p0 & must0 & Hin & -> & Em
                 & X & L).
  assert (T : m_text m = captured (MState p0 s0 [] None) st1)
    by (rewrite Em; reflexivity).
  assert (G : forall g, group m g = lookup g (marks st1))
    by (intros g; rewrite Em; reflexivity).
  assert (Y : forall d, (d = EmptyString \/ d = "-") ->
                        (truthy_opt (Some d) = true <-> d = "-")).
  { intros d [-> | ->]; simpl; split; congruence. }
  simpl in Hin.
  destruct Hin as [Hin|[Hin|[Hin|[Hin|[]]]]]; inversion Hin; subst name pattern;
    clear Hin; (split; intros L'; rewrite L in L'; try discriminate L').
  - apply statement_trim_exec in X; [|exact Ns].
    destruct X as (d & Ed & Dd & Hd). intros st.
    unfold _tokenize_template_body. rewrite L. cbn.
    eexists. eexists. split; [reflexivity|]. cbn [lstrip].
    rewrite G, Ed, T. rewrite (Y d Dd). exact Hd.
  - apply tag_trim_exec in X; [|exact Nt].
    destruct X as (d & Ed & Dd & Hd). intros st.
    rewrite (tag_pass st m L).
    destruct (negb (truthy (group_str m "expr")));
      (eexists; eexists; split; [reflexivity|]; cbn [lstrip];
       rewrite G, Ed, T; rewrite (Y d Dd); exact Hd).
Qed.

Lemma dash_before_close_sets_trim_witness :
  Forall (fun m =>
            (lastgroup m = Some TOKEN_STATEMENT ->
             forall st, exists tk st',
               _tokenize_template_body st m = Next tk st'
               /\ (lstrip st' = true
                   <-> endswith ("-" ++ "}}") (m_text m)
                       /\ String.length "{{" + 1 + String.length "}}"
                          < String.length (m_text m)))
            /\ (lastgroup m = Some "TAG" ->
                forall st, exists tk st',
                  _tokenize_template_body st m = Next tk st'
                  /\ (lstrip st' = true
                      <-> endswith ("-" ++ "%}") (m_text m)
                          /\ String.length "{%" + 1 + String.length "%}"
                             < String.length (m_text m))))
    (finditer (compile_liquid_rules "{%" "%}" "{{" "}}") tag_source).
Proof.
  apply (dash_before_close_sets_trim "{%" "%}" "{{" "}}" tag_source);
    discriminate.
Defined.

(** *** The dash after an opening delimiter *)



(** *** The value of a statement *)

(** The value of a statement token as a function of the text of its
    region.  On a source of ASCII characters and with a non-empty
    closing delimiter, the text of a match of
    the statement rule is the opening delimiter, a text and the closing
    delimiter, and the pass yields one statement token whose value is
    that text without the dash it starts with, if any, then without
    the dash it ends with, if any, and then stripped of the whitespace
    on both sides. *)
Theorem statement_value_is_stripped_core
    (tag_start tag_end statement_start statement_end source : string) :
  isascii source = true ->
  statement_end <> EmptyString ->
  Forall (fun m =>
            lastgroup m = Some TOKEN_STATEMENT ->
            exists core,
              m_text m = (statement_start ++ core ++ statement_end)%string
              /\ forall st, exists st',
                   _tokenize_template_body st m
                   = Next [MkToken (line_count st) TOKEN_STATEMENT
                             (strip (chop_end_dash (chop_start_dash core)))]
                       st')
    (finditer (compile_liquid_rules tag_start tag_end statement_start
                 statement_end) source).
Proof.
  intros _ Ne.
  eapply Scan_Forall; [|apply finditer_Scan].
  intros p s must pos m st1 E L. unfold compile_liquid_rules in E.
  apply search_exec in E; [|discriminate].
  destruct E as (name & pattern & skipped & s0 & p0 & must0 & Hin & -> & Em
                 & X & L').
  rewrite L in L'. inversion L'; subst name. clear L'.
  simpl in Hin.
  destruct Hin as [Hin|[Hin|[Hin|[Hin|[]]]]]; inversion Hin; subst pattern.
  clear Hin.
  apply statement_value_exec in X; [|exact Ne].
  destruct X as (core & T & G).
  exists core. split; [rewrite Em; exact T|].
  intros st. unfold _tokenize_template_body. rewrite L. cbn.
  unfold group_str, group. rewrite Em. cbn [m_groups mk_match]. rewrite G.
  eexists. reflexivity.
Qed.

Lemma statement_value_is_stripped_core_witness :
  Forall (fun m =>
            lastgroup m = Some TOKEN_STATEMENT ->
            exists core,
              m_text m = ("{{" ++ core ++ "}}")%string
              /\ forall st, exists st',
                   _tokenize_template_body st m
                   = Next [MkToken (line_count st) TOKEN_STATEMENT
                             (strip (chop_end_dash (chop_start_dash core)))]
                       st')
    (finditer (compile_liquid_rules "{%" "%}" "{{" "}}") tag_source).
Proof.
  apply (statement_value_is_stripped_core "{%" "%}" "{{" "}}" tag_source).
  - reflexivity.
  - discriminate.
Defined.

(** *** The name and the expression of a tag *)

(** The tokens of a tag as functions of the text of its region.  On a
    source of ASCII characters and with a non-empty closing delimiter
    of tags, the text of a match of the tag rule is the opening
    delimiter, a text and the closing delimiter.  Take that text without
    the dash it starts with, if any, and without the whitespace it then
    starts with: the name of the tag is its longest prefix of word
    characters, and the expression is what follows the name, without
    the dash it ends with, if any, and stripped of the whitespace on
    both sides.  The pass yields the tag token with that name, and
    after it, when the expression is not empty, an expression token
    with that expression, both on the line of the start of the tag. *)
Theorem tag_tokens_from_region_text
    (tag_start tag_end statement_start statement_end source : string) :
  isascii source = true ->
  tag_end <> EmptyString ->
  Forall (fun m =>
            lastgroup m = Some "TAG" ->
            exists core,
              m_text m = (tag_start ++ core ++ tag_end)%string
              /\ let body := Str.lstrip (chop_start_dash core) in
                 let name := take_while is_word body in
                 let expr := strip (chop_end_dash (drop_while is_word body)) in
                 forall st, exists st',
                   _tokenize_template_body st m
                   = Next (MkToken (line_count st) TOKEN_TAG name
                           :: (if truthy expr
                               then [MkToken (line_count st) TOKEN_EXPRESSION
                                       expr]
                               else []))
                       st')
    (finditer (compile_liquid_rules tag_start tag_end statement_start
                 statement_end) source).
Proof.
  intros _ Ne.
  eapply Scan_Forall; [|apply finditer_Scan].
  intros p s must pos m st1 E L. unfold compile_liquid_rules in E.
  apply search_exec in E; [|discriminate].
  destruct E as (name & pattern & skipped & s0 & p0 & must0 & Hin & -> & Em
                 & X & L').
  rewrite L in L'. inversion L'; subst name. clear L'.
  simpl in Hin.
  destruct Hin as [Hin|[Hin|[Hin|[Hin|[]]]]]; inversion Hin; subst pattern.
  clear Hin.
  apply tag_value_exec in X; [|exact Ne].
  destruct X as (core & T & Gn & Ge).
  exists core. split; [rewrite Em; exact T|].
  intros body name expr st. rewrite (tag_pass st m L).
  assert (G1 : group_str m "name" = name).
  { unfold group_str, group. rewrite Em. cbn [m_groups mk_match].
    now rewrite Gn. }
  assert (G2 : group_str m "expr" = expr).
  { unfold group_str, group. rewrite Em. cbn [m_groups mk_match].
    now rewrite Ge. }
  rewrite G1, G2.
  destruct (truthy expr); eexists; reflexivity.
Qed.

Lemma tag_tokens_from_region_text_witness :
  Forall (fun m =>
            lastgroup m = Some "TAG" ->
            exists core,
              m_text m = ("{%" ++ core ++ "%}")%string
              /\ let body := Str.lstrip (chop_start_dash core) in
                 let name := take_while is_word body in
                 let expr := strip (chop_end_dash (drop_while is_word body)) in
                 forall st, exists st',
                   _tokenize_template_body st m
                   = Next (MkToken (line_count st) TOKEN_TAG name
                           :: (if truthy expr
                               then [MkToken (line_count st) TOKEN_EXPRESSION
                                       expr]
                               else []))
                       st')
    (finditer (compile_liquid_rules "{%" "%}" "{{" "}}") tag_source).
Proof.
  apply (tag_tokens_from_region_text "{%" "%}" "{{" "}}" tag_source).
  - reflexivity.
  - discriminate.
Defined.
